(** * Website-cloning agent: orchestrator, gateway, chunker and validator

    A shallow embedding of the TypeScript sources

      - [lib/agent/graph.ts]               ([runAgent], [updateRedisState])
      - [lib/agent/nodes/architectNode.ts] ([callLLMWithFallback],
                                            [chunkScoutData], [architectNode])
      - [lib/agent/nodes/coderNode.ts]     ([callCoderLLMWithFallback], [coderNode])
      - [lib/agent/nodes/qaNode.ts]        ([callVisionAPIWithFallback],
                                            [getMetricValue], [qaNode])
      - [lib/agent/nodes/scoutNode.ts]     ([scoutNode])
      - [app/api/stream/route.ts]          (the polling callback of [GET])
      - [lib/types.ts], [lib/config.ts]

    JavaScript numbers are IEEE-754 binary64 values, embedded as Rocq's
    primitive floats.  Everything that leaves the process (browser automation,
    model providers, the clock, [JSON.parse]) is a field of the [Runtime]
    class; the nodes are written in a state-and-exception monad over the
    runtime's world, and every provider call is recorded in a journal. *)

From Stdlib Require Import Bool Arith ZArith Lia List String Ascii Floats.
Import ListNotations.

#[local] Set Warnings "-inexact-float,-register-all".
#[local] Open Scope string_scope.
#[local] Open Scope list_scope.
#[local] Open Scope nat_scope.

(* ===================================================================== *)
(** * JavaScript values, strings and exceptions                          *)
(* ===================================================================== *)

(** A JSON-shaped JavaScript value, as [JSON.parse] produces them, plus
    [undefined] for a property that is absent. *)
Inductive JsValue : Type :=
| JUndefined
| JNull
| JBool (b : bool)
| JNumber (x : float)
| JString (s : string)
| JArray (items : list JsValue)
| JObject (fields : list (string * JsValue)).

(** [assoc k o]: the own property [k] of an object kept as an association
    list in key order. *)
Fixpoint assoc {A : Type} (k : string) (o : list (string * A)) : option A :=
  match o with
  | [] => None
  | (k', v) :: rest => if String.eqb k k' then Some v else assoc k rest
  end.

(** [o[k] = v] on such an object: overwrite in place, or append a new key. *)
Fixpoint assign_key {A : Type} (k : string) (v : A) (o : list (string * A))
  : list (string * A) :=
  match o with
  | [] => [(k, v)]
  | (k', v') :: rest =>
      if String.eqb k k' then (k, v) :: rest else (k', v') :: assign_key k v rest
  end.

Definition keys {A : Type} (o : list (string * A)) : list string := map fst o.
Definition values {A : Type} (o : list (string * A)) : list A := map snd o.

(** [v.k] for a value [v] that is neither [null] nor [undefined]; none of the
    property names read in this development exists on a string, a number, a
    boolean or an array. *)
Definition getProp (v : JsValue) (k : string) : JsValue :=
  match v with
  | JObject fields => match assoc k fields with Some x => x | None => JUndefined end
  | _ => JUndefined
  end.

(** [String.prototype.includes]. *)
Definition includes (s sub : string) : bool :=
  match String.index 0 sub s with Some _ => true | None => false end.

Definition lower_ascii (c : ascii) : ascii :=
  let n := nat_of_ascii c in
  if (65 <=? n) && (n <=? 90) then ascii_of_nat (n + 32) else c.

(** [String.prototype.toLowerCase] on the ASCII letters. *)
Fixpoint toLowerCase (s : string) : string :=
  match s with
  | EmptyString => EmptyString
  | String c rest => String (lower_ascii c) (toLowerCase rest)
  end.

(** [String.prototype.endsWith]. *)
Definition endsWith (s suffix : string) : bool :=
  let n := String.length s in
  let k := String.length suffix in
  (k <=? n) && String.eqb (String.substring (n - k) k s) suffix.

(** [String.prototype.startsWith]. *)
Definition startsWith (s pre : string) : bool := String.prefix pre s.

(** [String.prototype.slice(0, n)]. *)
Definition slice0 (n : nat) (s : string) : string := String.substring 0 n s.

(** [Array.prototype.join]. *)
Definition join (sep : string) (l : list string) : string := String.concat sep l.

(** [Array.prototype.find]. *)
Definition find_first {A : Type} (p : A -> bool) (l : list A) : option A := List.find p l.

(** A thrown [Error]: its [name] and [message]. *)
Record JsError : Type := mkError { err_name : string; err_message : string }.

Definition Error (msg : string) : JsError := mkError "Error" msg.
Definition TypeError (msg : string) : JsError := mkError "TypeError" msg.

(** [Error.prototype.toString]. *)
Definition err_toString (e : JsError) : string :=
  if String.eqb (err_name e) "" then err_message e
  else if String.eqb (err_message e) "" then err_name e
  else (err_name e ++ ": " ++ err_message e)%string.

(** The outcome of an expression that may throw. *)
Inductive Result (A : Type) : Type :=
| Ok (a : A)
| Throw (e : JsError).
Arguments Ok {A} a.
Arguments Throw {A} e.

(* ===================================================================== *)
(** * State-and-exception monad                                          *)
(* ===================================================================== *)

(** A computation over a state [S] that returns or throws; the state
    survives a throw (effects performed before it are not undone). *)
Definition Eff (S A : Type) : Type := S -> Result A * S.

Definition ret {S A : Type} (a : A) : Eff S A := fun s => (Ok a, s).

Definition throw {S A : Type} (e : JsError) : Eff S A := fun s => (Throw e, s).

Definition bind {S A B : Type} (c : Eff S A) (k : A -> Eff S B) : Eff S B :=
  fun s =>
    match c s with
    | (Ok a, s') => k a s'
    | (Throw e, s') => (Throw e, s')
    end.

(** [try { body } catch (error) { handler error }]. *)
Definition tryCatch {S A : Type} (body : Eff S A) (handler : JsError -> Eff S A)
  : Eff S A :=
  fun s =>
    match body s with
    | (Ok a, s') => (Ok a, s')
    | (Throw e, s') => handler e s'
    end.

(** Lift a pure expression that may throw. *)
Definition liftR {S A : Type} (r : Result A) : Eff S A := fun s => (r, s).

Declare Scope eff_scope.
Delimit Scope eff_scope with eff.
Notation "x <- c ;; k" := (bind c (fun x => k))
  (at level 61, c at next level, right associativity) : eff_scope.
Notation "c ;; k" := (bind c (fun _ => k))
  (at level 61, right associativity) : eff_scope.
#[local] Open Scope eff_scope.

(* ===================================================================== *)
(** * Data model ([lib/types.ts])                                        *)
(* ===================================================================== *)

(** ** Scout types *)

Inductive DOMSnapshot : Type :=
| DomNode (html selector tag : string) (classes : list string)
          (textContent : string) (children : list DOMSnapshot).

Definition dom_children (n : DOMSnapshot) : list DOMSnapshot :=
  match n with DomNode _ _ _ _ _ ch => ch end.

Definition dom_with_children (n : DOMSnapshot) (ch : list DOMSnapshot) : DOMSnapshot :=
  match n with DomNode h s t c x _ => DomNode h s t c x ch end.

Record Styles : Type := mkStyles {
  display : string; position : string; width : string; height : string;
  padding : string; margin : string; color : string; backgroundColor : string;
  fontFamily : string; fontSize : string; fontWeight : string; lineHeight : string;
  flexDirection : option string; justifyContent : option string;
  alignItems : option string; gridTemplateColumns : option string;
  gap : option string; transition : option string; animation : option string;
  transform : option string
}.

Record ComputedStyleData : Type := mkComputedStyle {
  cs_selector : string;
  cs_styles : Styles
}.

Record BBox : Type := mkBBox { bx : float; by_ : float; bwidth : float; bheight : float }.

Record LayoutData : Type := mkLayout {
  lay_selector : string;
  lay_bbox : BBox;
  lay_zIndex : float
}.

Inductive AssetType : Type := image | font | video.

Record AssetData : Type := mkAsset {
  asset_type : AssetType;
  originalUrl : string;
  localPath : string;
  dimensions : option (float * float);
  format : option string
}.

Record AnimationProperty : Type := mkAnimProp {
  ap_property : string; ap_from : string; ap_to : string;
  ap_duration : string; ap_easing : string; ap_delay : option string
}.

Inductive AnimationType : Type := css | scroll_trigger.

Record AnimationData : Type := mkAnimation {
  an_selector : string;
  an_type : AnimationType;
  an_properties : list AnimationProperty
}.

Inductive Theme : Type := light | dark | unknown.

Record Meta : Type := mkMeta {
  meta_title : string; meta_description : string; meta_viewport : string;
  meta_theme : Theme
}.

Record Breakpoints : Type := mkBreakpoints { mobile : nat; tablet : nat; desktop : nat }.

Record ScoutOutput : Type := mkScoutOutput {
  so_url : string;
  so_timestamp : string;
  dom : DOMSnapshot;
  computedStyles : list ComputedStyleData;
  layout : list LayoutData;
  assets : list AssetData;
  animations : list AnimationData;
  breakpoints : Breakpoints;
  meta : Meta
}.

(** ** Architect types *)

Inductive ComponentType : Type := ct_layout | ct_content | ct_interactive.

Inductive ComponentSpec : Type :=
| Component (name : string) (type : ComponentType) (selector : string)
            (props : JsValue) (children : option (list ComponentSpec))
            (tailwindClasses : list string).

Record ConflictResolution : Type := mkConflict {
  cf_type : string; cf_description : string; cf_decision : string; cf_reasoning : string
}.

Record ColorPalette : Type := mkPalette {
  primary : string; secondary : string; background : string;
  text : string; accent : string
}.

Record Typography : Type := mkTypography {
  headingFont : string; bodyFont : string; sizes : list (string * string)
}.

Record Spacing : Type := mkSpacing { unit_ : float; scale : list float }.

Record ArchitectPlan : Type := mkPlan {
  components : list ComponentSpec;
  conflicts : list ConflictResolution;
  deviationNotes : list string;
  colorPalette : ColorPalette;
  typography : Typography;
  spacing : Spacing
}.

(** ** Coder types *)

Record Dependency : Type := mkDependency { dep_component : string; dep_imports : list string }.

Record Packages : Type := mkPackages {
  pk_dependencies : list (string * string);
  pk_devDependencies : list (string * string)
}.

(** [files] is the object [{ [filepath]: source }], in key order. *)
Record GeneratedCode : Type := mkGeneratedCode {
  files : list (string * string);
  dependencies : list Dependency;
  packages : Packages
}.

(** ** QA types *)

Record Metrics : Type := mkMetrics {
  structuralSimilarity : float;
  visualSimilarity : float;
  layoutAccuracy : float;
  colorAccuracy : float
}.

Record Screenshots : Type := mkScreenshots {
  shot_original : string; shot_generated : string; shot_diff : option string
}.

(** An issue as the vision model reports it; [severity] and [suggestion] may
    be missing ([issue.severity || 'medium'], [if (issue.suggestion)]). *)
Record Issue : Type := mkIssue {
  severity : option string;
  category : string;
  description : string;
  suggestion : option string
}.

Record QAResult : Type := mkQAResult {
  score : float;
  passed : bool;
  metrics : Metrics;
  screenshots : Screenshots;
  issues : list Issue
}.

(** ** Agent state *)

Module Status.
Inductive t : Type := pending | scouting | planning | coding | qa | complete | failed.

Definition eqb (a b : t) : bool :=
  match a, b with
  | pending, pending | scouting, scouting | planning, planning
  | coding, coding | qa, qa | complete, complete | failed, failed => true
  | _, _ => false
  end.

End Status.

Module Node.
Inductive t : Type := scout | architect | coder | qa.

Definition eqb (a b : t) : bool :=
  match a, b with
  | scout, scout | architect, architect | coder, coder | qa, qa => true
  | _, _ => false
  end.

(** The string the source writes for the node. *)
Definition name (n : t) : string :=
  match n with
  | scout => "scout" | architect => "architect" | coder => "coder" | qa => "qa"
  end.
End Node.

Record Attempt : Type := mkAttempt {
  attempt : nat;
  qaScore : float;
  att_issues : list string;
  att_timestamp : string
}.

(** The template the source fills to build a decision's [reasoning] string. *)
Inductive Reasoning : Type :=
| Extracted (elements n_assets n_animations : nat)
    (* `Extracted ${..} elements, ${..} assets, ${..} animations` *)
| Designed (n_components : nat)            (* `Designed ${..} components` *)
| Created (n_files : nat)                  (* `Created ${..} files` *)
| ScoreIs (s : float)                      (* `Score: ${..}/100` *)
| ScoreAttempt (s : float) (n max : nat)   (* `Score: ${..}/100 - Attempt ${..}/${..}` *)
| FinalScore (s : float).                  (* `Final score: ${..}/100` *)

Record Decision : Type := mkDecision {
  d_timestamp : string;
  d_node : string;
  decision : string;
  reasoning : Reasoning
}.

Record ErrorEntry : Type := mkErrorEntry {
  e_node : string;
  e_error : string;
  e_timestamp : string
}.

Record AgentState : Type := mkAgentState {
  jobId : string;
  url : string;
  userInstructions : option string;
  status : Status.t;
  currentNode : option Node.t;
  scoutData : option ScoutOutput;
  architectPlan : option ArchitectPlan;
  generatedCode : option GeneratedCode;
  qaResult : option QAResult;
  retryCount : nat;
  maxRetries : nat;
  attemptHistory : list Attempt;
  decisionLog : list Decision;
  errors : list ErrorEntry;
  startedAt : string;
  completedAt : option string
}.

(** What a node returns: [Partial<AgentState>], restricted to the keys some
    node writes.  [None] is an absent key. *)
Record Partial : Type := mkPartial {
  p_scoutData : option ScoutOutput;
  p_architectPlan : option ArchitectPlan;
  p_generatedCode : option GeneratedCode;
  p_qaResult : option QAResult;
  p_status : option Status.t;
  p_currentNode : option (option Node.t);
  p_retryCount : option nat;
  p_attemptHistory : option (list Attempt);
  p_decisionLog : option (list Decision);
  p_errors : option (list ErrorEntry);
  p_completedAt : option string
}.

Definition over {A : Type} (old : A) (new : option A) : A :=
  match new with Some x => x | None => old end.

Definition over_opt {A : Type} (old : option A) (new : option A) : option A :=
  match new with Some x => Some x | None => old end.

(** [{ ...state, ...update }]. *)
Definition merge (st : AgentState) (u : Partial) : AgentState :=
  {| jobId := jobId st;
     url := url st;
     userInstructions := userInstructions st;
     status := over (status st) (p_status u);
     currentNode := over (currentNode st) (p_currentNode u);
     scoutData := over_opt (scoutData st) (p_scoutData u);
     architectPlan := over_opt (architectPlan st) (p_architectPlan u);
     generatedCode := over_opt (generatedCode st) (p_generatedCode u);
     qaResult := over_opt (qaResult st) (p_qaResult u);
     retryCount := over (retryCount st) (p_retryCount u);
     maxRetries := maxRetries st;
     attemptHistory := over (attemptHistory st) (p_attemptHistory u);
     decisionLog := over (decisionLog st) (p_decisionLog u);
     errors := over (errors st) (p_errors u);
     startedAt := startedAt st;
     completedAt := over_opt (completedAt st) (p_completedAt u) |}.

(** The update every node returns from its [catch] block:
    [{ status: 'failed', errors: [...state.errors, entry] }]. *)
Definition failure (st : AgentState) (entry : ErrorEntry) : Partial :=
  {| p_scoutData := None; p_architectPlan := None; p_generatedCode := None;
     p_qaResult := None;
     p_status := Some Status.failed;
     p_currentNode := None; p_retryCount := None; p_attemptHistory := None;
     p_decisionLog := None;
     p_errors := Some (errors st ++ [entry]);
     p_completedAt := None |}.

(* ===================================================================== *)
(** * Prompts, providers and the runtime                                 *)
(* ===================================================================== *)

(** The elements of one chunk: a slice of one of the three flat lists. *)
Inductive ChunkData : Type :=
| StyleItems (l : list ComputedStyleData)
| LayoutItems (l : list LayoutData)
| AnimationItems (l : list AnimationData).

Definition cd_length (d : ChunkData) : nat :=
  match d with
  | StyleItems l => List.length l
  | LayoutItems l => List.length l
  | AnimationItems l => List.length l
  end.

(** [data.slice(a, b)]. *)
Definition cd_slice (a b : nat) (d : ChunkData) : ChunkData :=
  match d with
  | StyleItems l => StyleItems (firstn (b - a) (skipn a l))
  | LayoutItems l => LayoutItems (firstn (b - a) (skipn a l))
  | AnimationItems l => AnimationItems (firstn (b - a) (skipn a l))
  end.

(** [data.slice(a)]. *)
Definition cd_slice_from (a : nat) (d : ChunkData) : ChunkData :=
  match d with
  | StyleItems l => StyleItems (skipn a l)
  | LayoutItems l => LayoutItems (skipn a l)
  | AnimationItems l => AnimationItems (skipn a l)
  end.

Record Chunk : Type := mkChunk {
  chunk_type : string;
  chunk_data : ChunkData;
  chunk_index : nat;
  chunk_total : nat
}.

Record OverviewStats : Type := mkStats {
  totalStyles : nat; totalLayout : nat; totalAnimations : nat; domNodes : nat
}.

Record ScoutOverview : Type := mkOverview {
  ov_url : string;
  ov_meta : Meta;
  ov_dom : DOMSnapshot;
  ov_assets : list AssetData;
  ov_stats : OverviewStats
}.

(** The architect's prompts: each constructor is one template string of
    [architectNode], carrying the values interpolated into it. *)
Inductive ArchitectPrompt : Type :=
| InitialPrompt (overview : ScoutOverview) (instructions : string)
| ChunkPrompt (number total : nat) (chunk : Chunk) (previous : option string)
| PartialPrompt1 (type : string) (data : ChunkData)
| PartialPrompt2 (type : string) (data : ChunkData) (response1 : string)
| SummaryPrompt (processed : nat)
| FinalPrompt (context : string) (n_styles n_layout n_animations n_assets : nat)
              (instructions : string).

Record CoderSystemPrompt : Type := mkSystemPrompt {
  sp_assetMappings : string;
  sp_previousIssues : option string     (* [Some qaFeedback] on a retry *)
}.

Record CoderUserPrompt : Type := mkUserPrompt {
  up_plan : option ArchitectPlan;
  up_total : nat;
  up_assetsToSend : list AssetData
}.

(** What is sent to a provider. *)
Inductive Prompt : Type :=
| ArchitectText (p : ArchitectPrompt)
| CoderText (system : CoderSystemPrompt) (user : CoderUserPrompt)
| VisionParts (original generated : string).   (* rubric text + two PNG images *)

Inductive ModelType : Type := claude | gemini | openai.
Inductive QaModel : Type := qa_gpt4o | qa_gemini.

Inductive Provider : Type :=
| Anthropic                (* claude-3-5-sonnet-20241022 *)
| OpenAI                   (* gpt-4o *)
| Gemini (modelName : string).

Record Call : Type := mkCall { provider : Provider; request : Prompt }.

(** The vision model's parsed answer, through the properties [qaNode] reads:
    [Object.keys(gptResult)], [gptResult.metrics], [gptResult.issues]. *)
Record VisionAnswer : Type := mkVisionAnswer {
  va_keys : list string;
  va_metrics : JsValue;
  va_issues : option (list Issue)
}.

(** Everything outside the process. *)
Class Runtime : Type := {
  World : Type;
  (** [MODEL_CONFIG] ([lib/config.ts]), read from the environment. *)
  architectModel : ModelType;
  coderModel : ModelType;
  qaModel : QaModel;
  (** [llm.invoke(...)] then [response.content.toString()]. *)
  anthropic_invoke : Prompt -> World -> Result string * World;
  (** [openai.chat.completions.create(...)] then [choices[0].message.content]. *)
  openai_create : Prompt -> World -> Result (option string) * World;
  (** [getGenerativeModel({model}).generateContent(...)] then [response.text()]. *)
  gemini_generateContent : string -> Prompt -> World -> Result string * World;
  (** The browser session of [scoutNode]: [(url, jobId)] to a snapshot. *)
  playwright_extract : string -> string -> World -> Result ScoutOutput * World;
  (** [qaNode] step 1: write the preview of the files for the job, open it
      and take the screenshot (base64). *)
  screenshot_generated : string -> list (string * string) -> World -> Result string * World;
  (** [qaNode] step 1: open the original URL and take the screenshot. *)
  screenshot_original : string -> World -> Result string * World;
  (** [new Date().toISOString()]. *)
  toISOString : World -> string;
  (** [`job-${Date.now()}-${Math.random().toString(36).substring(7)}`]. *)
  fresh_job_id : World -> string;
  (** [JSON.parse] at the three types the nodes read its result at. *)
  JSON_parse_plan : string -> Result ArchitectPlan;
  JSON_parse_code : string -> Result GeneratedCode;
  JSON_parse_vision : string -> Result VisionAnswer;
  JSON_stringify : JsValue -> string
}.

Section Effects.
Context `{RT : Runtime}.

(** The state the nodes run in: the world and the journal of provider calls
    made so far, oldest first. *)
Record MState : Type := mkMState { world : World; journal : list Call }.

Definition M (A : Type) : Type := Eff MState A.

(** Run a runtime primitive. *)
Definition perform {A : Type} (f : World -> Result A * World) : M A :=
  fun s => let (r, w) := f (world s) in (r, mkMState w (journal s)).

(** Call a provider, recording the call. *)
Definition call_provider {A : Type} (p : Provider) (req : Prompt)
  (f : World -> Result A * World) : M A :=
  fun s => let (r, w) := f (world s) in (r, mkMState w (journal s ++ [mkCall p req])).

Definition timestamp : M string := fun s => (Ok (toISOString (world s)), s).

End Effects.

(** [content.match(/\{[\s\S]*\}/)]: from the first opening brace to the last
    closing brace after it. *)
Fixpoint last_index (c : ascii) (s : string) : option nat :=
  match s with
  | EmptyString => None
  | String a rest =>
      match last_index c rest with
      | Some j => Some (S j)
      | None => if Ascii.eqb a c then Some 0 else None
      end
  end.

Definition jsonMatch (content : string) : option string :=
  match String.index 0 "{" content, last_index "}"%char content with
  | Some i, Some j => if i <? j then Some (String.substring i (j - i + 1) content) else None
  | _, _ => None
  end.

(** [x || fallback] on strings. *)
Definition or_string (x fallback : string) : string :=
  if String.eqb x "" then fallback else x.

(** [x || fallback] on an optional string. *)
Definition or_default (x : option string) (fallback : string) : string :=
  match x with Some s => or_string s fallback | None => fallback end.

(* ===================================================================== *)
(** * [architectNode.ts]                                                 *)
(* ===================================================================== *)

Module Architect.
Section WithRuntime.
Context `{RT : Runtime}.

(** Fallback models for Gemini (in order of preference). *)
Definition GEMINI_FALLBACK_MODELS : list string :=
  ["gemini-2.5-pro"; "gemini-2.5-flash"; "gemini-pro-latest"; "gemini-2.0-flash-001"].

(** [error.message || error.toString()]. *)
Definition errorMsg (error : JsError) : string :=
  or_string (err_message error) (err_toString error).

(** The [for (const modelName of GEMINI_FALLBACK_MODELS)] loop of
    [callLLMWithFallback], from the candidates still to try. *)
Fixpoint tryModels (prompt : Prompt) (models : list string) : M string :=
  match models with
  | [] => throw (Error "All Gemini models exceeded quota/token limits or unavailable")
  | modelName :: rest =>
      tryCatch
        (call_provider (Gemini modelName) prompt (gemini_generateContent modelName prompt))
        (fun error =>
           let msg := errorMsg error in
           (* quota error *)
           if includes msg "429" || includes msg "quota" then tryModels prompt rest
           (* token limit error (400 with token-related message) *)
           else if includes msg "400" &&
                   (includes msg "token" || includes msg "exceeds" || includes msg "1048576")
           then tryModels prompt rest
           (* for other errors, throw immediately *)
           else throw error)
  end.

Definition callLLMWithFallback (prompt : Prompt) (modelType : ModelType) : M string :=
  match modelType with
  | claude => call_provider Anthropic prompt (anthropic_invoke prompt)
  | openai =>
      content <- call_provider OpenAI prompt (openai_create prompt) ;;
      ret (or_default content "")
  | gemini => tryModels prompt GEMINI_FALLBACK_MODELS
  end.

(** [Math.ceil(n / chunkSize)] on lengths.  [chunkSize] is a positive
    integer at every call (default 200; [architectNode] passes 300); for
    [chunkSize = 0] and a non-empty list the source loop has no end, and this
    model yields no chunk. *)
Definition ceil_div (n chunkSize : nat) : nat := (n + chunkSize - 1) / chunkSize.

(** One [for (let i = 0; i < total; i++) chunks.push({...})] loop. *)
Definition pushChunks (type : string) (data : ChunkData) (chunkSize : nat) : list Chunk :=
  let total := ceil_div (cd_length data) chunkSize in
  map (fun i => {| chunk_type := type;
                   chunk_data := cd_slice (i * chunkSize) ((i + 1) * chunkSize) data;
                   chunk_index := i;
                   chunk_total := total |})
      (seq 0 total).

Definition chunkScoutData (scoutData : ScoutOutput) (chunkSize : nat) : list Chunk :=
  pushChunks "styles" (StyleItems (computedStyles scoutData)) chunkSize
  ++ pushChunks "layout" (LayoutItems (layout scoutData)) chunkSize
  ++ pushChunks "animations" (AnimationItems (animations scoutData)) chunkSize.

Fixpoint countDOMNodes (node : DOMSnapshot) : nat :=
  match node with
  | DomNode _ _ _ _ _ children =>
      1 + fold_left (fun sum child => sum + countDOMNodes child) children 0
  end.

Definition getScoutOverview (scoutData : ScoutOutput) : ScoutOverview :=
  {| ov_url := so_url scoutData;
     ov_meta := meta scoutData;
     ov_dom :=
       dom_with_children (dom scoutData)
         (map (fun child => dom_with_children child (firstn 3 (dom_children child)))
              (firstn 10 (dom_children (dom scoutData))));
     ov_assets := assets scoutData;
     ov_stats :=
       {| totalStyles := List.length (computedStyles scoutData);
          totalLayout := List.length (layout scoutData);
          totalAnimations := List.length (animations scoutData);
          domNodes := countDOMNodes (dom scoutData) |} |}.

Definition maxChunksToProcess : nat := 20.

(** [chunks.slice(0, maxChunksToProcess)] for the chunks of [architectNode]. *)
Definition chunksToProcess (scoutData : ScoutOutput) : list Chunk :=
  firstn maxChunksToProcess (chunkScoutData scoutData 300).

(** The [catch] of one chunk call: on a token-limit message split the chunk
    in half and analyse the halves, skipping the chunk if that fails too;
    re-throw anything else. *)
Definition splitAndRetry (modelType : ModelType) (chunk : Chunk)
  (accumulatedContext : string) (error : JsError) : M string :=
  if includes (err_message error) "token" || includes (err_message error) "exceeds" then
    let halfSize := cd_length (chunk_data chunk) / 2 in
    let data1 := cd_slice 0 halfSize (chunk_data chunk) in
    let data2 := cd_slice_from halfSize (chunk_data chunk) in
    tryCatch
      (response1 <- callLLMWithFallback
                      (ArchitectText (PartialPrompt1 (chunk_type chunk) data1)) modelType ;;
       response2 <- callLLMWithFallback
                      (ArchitectText (PartialPrompt2 (chunk_type chunk) data2 response1))
                      modelType ;;
       ret (accumulatedContext ++ String "010" (String "010" "") ++ response1
            ++ String "010" "" ++ response2)%string)
      (fun _ => ret accumulatedContext)
  else throw error.

(** The body of [for (let i = 0; i < chunksToProcess.length; i++)], from
    index [i] with the chunks still to process; [n] is
    [chunksToProcess.length].  The loop variables are [accumulatedContext]
    and [planSummary]. *)
Fixpoint processChunks (modelType : ModelType) (n i : nat) (todo : list Chunk)
  (accumulatedContext planSummary : string) : M (string * string) :=
  match todo with
  | [] => ret (accumulatedContext, planSummary)
  | chunk :: rest =>
      let previous :=
        if 0 <? i then Some (or_string planSummary (slice0 300 accumulatedContext))
        else None in
      accumulatedContext' <-
        tryCatch
          (chunkResponse <- callLLMWithFallback
                              (ArchitectText (ChunkPrompt (i + 1) n chunk previous))
                              modelType ;;
           ret (if i =? 0 then chunkResponse
                else (accumulatedContext ++ String "010" (String "010" "")
                      ++ chunkResponse)%string))
          (splitAndRetry modelType chunk accumulatedContext) ;;
      (* summarize every 3 chunks to prevent context bloat *)
      if ((i + 1) mod 3 =? 0) || (i =? n - 1) then
        summary <- callLLMWithFallback (ArchitectText (SummaryPrompt (i + 1))) modelType ;;
        processChunks modelType n (i + 1) rest summary summary
      else
        processChunks modelType n (i + 1) rest accumulatedContext' planSummary
  end.

(** [scoutData.x] for the [scoutData] of a state: a [TypeError] when the
    state has none. *)
Definition require_scoutData (st : AgentState) (property : string)
  : Result ScoutOutput :=
  match scoutData st with
  | Some sd => Ok sd
  | None =>
      Throw (TypeError ("Cannot read properties of undefined (reading '" ++ property
                        ++ "')")%string)
  end.

(** The [try] block of [architectNode]. *)
Definition architectBody (state : AgentState) : M Partial :=
  let modelType := architectModel in
  sd <- liftR (require_scoutData state "url") ;;
  let overview := getScoutOverview sd in
  accumulatedContext <-
    callLLMWithFallback
      (ArchitectText
         (InitialPrompt overview
            (or_default (userInstructions state) "Clone the website accurately")))
      modelType ;;
  let todo := chunksToProcess sd in
  loop <- processChunks modelType (List.length todo) 0 todo accumulatedContext "" ;;
  let (accumulatedContext', planSummary) := (loop : string * string) in
  content <-
    callLLMWithFallback
      (ArchitectText
         (FinalPrompt (or_string planSummary (slice0 1000 accumulatedContext'))
            (List.length (computedStyles sd)) (List.length (layout sd))
            (List.length (animations sd)) (List.length (assets sd))
            (or_default (userInstructions state) "None - clone exactly as-is")))
      modelType ;;
  match jsonMatch content with
  | None => throw (Error "Architect failed to return valid JSON")
  | Some json =>
      plan <- liftR (JSON_parse_plan json) ;;
      now <- timestamp ;;
      ret {| p_scoutData := None;
             p_architectPlan := Some plan;
             p_generatedCode := None;
             p_qaResult := None;
             p_status := Some Status.coding;
             p_currentNode := Some (Some Node.coder);
             p_retryCount := None;
             p_attemptHistory := None;
             p_decisionLog :=
               Some (decisionLog state
                     ++ [ {| d_timestamp := now;
                             d_node := "architect";
                             decision := "Created component plan";
                             reasoning := Designed (List.length (components plan)) |} ]);
             p_errors := None;
             p_completedAt := None |}
  end.

Definition architectNode (state : AgentState) : M Partial :=
  tryCatch (architectBody state)
    (fun error =>
       now <- timestamp ;;
       ret (failure state {| e_node := "architect";
                             e_error := err_message error;
                             e_timestamp := now |})).

End WithRuntime.
End Architect.

(* ===================================================================== *)
(** * [coderNode.ts]                                                     *)
(* ===================================================================== *)

Module Coder.
Section WithRuntime.
Context `{RT : Runtime}.

(** Fallback models for Gemini (in order of preference). *)
Definition GEMINI_FALLBACK_MODELS : list string :=
  ["gemini-2.5-pro"; "gemini-2.5-flash"; "gemini-pro-latest"; "gemini-2.0-flash-001"].

Definition errorMsg (error : JsError) : string :=
  or_string (err_message error) (err_toString error).

(** The candidate loop of [callCoderLLMWithFallback]. *)
Fixpoint tryModels (prompt : Prompt) (models : list string) : M string :=
  match models with
  | [] => throw (Error "All Gemini models exceeded quota/token limits or unavailable")
  | modelName :: rest =>
      tryCatch
        (call_provider (Gemini modelName) prompt (gemini_generateContent modelName prompt))
        (fun error =>
           let msg := errorMsg error in
           if includes msg "429" || includes msg "quota" then tryModels prompt rest
           else if includes msg "400" &&
                   (includes msg "token" || includes msg "exceeds" || includes msg "1048576")
           then tryModels prompt rest
           else throw error)
  end.

Definition callCoderLLMWithFallback (systemPrompt : CoderSystemPrompt)
  (userPrompt : CoderUserPrompt) (modelType : ModelType) : M string :=
  let prompt := CoderText systemPrompt userPrompt in
  match modelType with
  | claude => call_provider Anthropic prompt (anthropic_invoke prompt)
  | openai =>
      content <- call_provider OpenAI prompt (openai_create prompt) ;;
      ret (or_default content "")
  | gemini => tryModels prompt GEMINI_FALLBACK_MODELS
  end.

(** [files[k]] when it is truthy (a non-empty string). *)
Definition truthy_file (fs : list (string * string)) (k : string) : option string :=
  match assoc k fs with
  | Some v => if String.eqb v "" then None else Some v
  | None => None
  end.

(** [a || b]. *)
Definition or_else {A : Type} (a b : option A) : option A :=
  match a with Some x => Some x | None => b end.

(** [const appFile = files['App.tsx'] || files['/App.tsx'] || files['app.tsx']
      || files['/app.tsx'] || Object.keys(files).find(key => ...)]:
    the first four alternatives are file contents, the last one is a key. *)
Definition appFile (fs : list (string * string)) : option string :=
  or_else (truthy_file fs "App.tsx")
    (or_else (truthy_file fs "/App.tsx")
       (or_else (truthy_file fs "app.tsx")
          (or_else (truthy_file fs "/app.tsx")
             (find_first (fun key => includes (toLowerCase key) "app.tsx") (keys fs))))).

Definition mainFile (fs : list (string * string)) : option string :=
  find_first (fun key => includes (toLowerCase key) "app"
                         || includes (toLowerCase key) "main"
                         || endsWith (toLowerCase key) ".tsx")
             (keys fs).

(** The "check for App.tsx" block: the files after it, or the thrown error. *)
Definition ensureAppFile (fs : list (string * string)) : Result (list (string * string)) :=
  match appFile fs with
  | None =>
      match mainFile fs with
      | Some main =>
          (* rename to App.tsx: files['App.tsx'] = files[mainFile] *)
          match assoc main fs with
          | Some source => Ok (assign_key "App.tsx" source fs)
          | None => Ok fs
          end
      | None =>
          Throw (Error ("Generated code missing App.tsx. Available files: "
                        ++ join ", " (keys fs))%string)
      end
  | Some found =>
      match assoc "App.tsx" fs with
      | Some current =>
          if String.eqb found current then Ok fs
          else Ok (assign_key "App.tsx" found fs)      (* normalize to App.tsx *)
      | None => Ok (assign_key "App.tsx" found fs)
      end
  end.

(** [qaResult?.issues?.map(i => `- ${i.description}: ${i.suggestion}`).join('\n') || '']. *)
Definition qaFeedback (state : AgentState) : string :=
  match qaResult state with
  | Some r =>
      join (String "010" "")
        (map (fun i => ("- " ++ description i ++ ": "
                        ++ match suggestion i with Some s => s | None => "undefined" end)%string)
             (issues r))
  | None => ""
  end.

Definition require_scoutData (st : AgentState) (property : string)
  : Result ScoutOutput :=
  match scoutData st with
  | Some sd => Ok sd
  | None =>
      Throw (TypeError ("Cannot read properties of undefined (reading '" ++ property
                        ++ "')")%string)
  end.

(** [const systemPrompt = `...`]: the asset mappings and, on a retry, the
    issues of the last validation. *)
Definition systemPrompt (state : AgentState) (sd : ScoutOutput) : CoderSystemPrompt :=
  let isRetry := 0 <? retryCount state in
  let assetMappings :=
    join (String "010" "")
      (map (fun a => (originalUrl a ++ " -> " ++ localPath a)%string) (assets sd)) in
  {| sp_assetMappings := assetMappings;
     sp_previousIssues := if isRetry then Some (qaFeedback state) else None |}.

(** [const userPrompt = `...`]: the plan and the first twenty assets. *)
Definition userPrompt (state : AgentState) (sd : ScoutOutput) : CoderUserPrompt :=
  let assetsToSend := firstn 20 (assets sd) in
  {| up_plan := architectPlan state;
     up_total := List.length (assets sd);
     up_assetsToSend := assetsToSend |}.

(** The [try] block of [coderNode]. *)
Definition coderBody (state : AgentState) : M Partial :=
  let isRetry := 0 <? retryCount state in
  sd <- liftR (require_scoutData state "assets") ;;
  let systemPrompt := systemPrompt state sd in
  let userPrompt := userPrompt state sd in
  content <- callCoderLLMWithFallback systemPrompt userPrompt coderModel ;;
  match jsonMatch content with
  | None => throw (Error "Coder failed to return valid JSON")
  | Some json =>
      parsed <- liftR (JSON_parse_code json) ;;
      fs <- liftR (ensureAppFile (files parsed)) ;;
      let generated :=
        {| files := fs; dependencies := dependencies parsed; packages := packages parsed |} in
      now <- timestamp ;;
      ret {| p_scoutData := None;
             p_architectPlan := None;
             p_generatedCode := Some generated;
             p_qaResult := None;
             p_status := Some Status.qa;
             p_currentNode := Some (Some Node.qa);
             p_retryCount := None;
             p_attemptHistory := None;
             p_decisionLog :=
               Some (decisionLog state
                     ++ [ {| d_timestamp := now;
                             d_node := "coder";
                             decision := if isRetry then "Regenerated code with fixes"
                                         else "Generated initial code";
                             reasoning := Created (List.length (keys fs)) |} ]);
             p_errors := None;
             p_completedAt := None |}
  end.

Definition coderNode (state : AgentState) : M Partial :=
  tryCatch (coderBody state)
    (fun error =>
       now <- timestamp ;;
       ret (failure state {| e_node := "coder";
                             e_error := err_message error;
                             e_timestamp := now |})).

End WithRuntime.
End Coder.

(* ===================================================================== *)
(** * [qaNode.ts]                                                        *)
(* ===================================================================== *)

Module QA.

(** ** Numbers *)

#[local] Open Scope float_scope.

(** The Number nearest to an integer (round to nearest, ties to even), as
    [parseInt] returns it. *)
Definition number_of_Z (z : Z) : float := SF2Prim (binary_normalize prec emax z 0 false).

(** [Math.round]: the integral Number closest to [x], ties towards
    +Infinity; NaN, the infinities and the zeros are returned unchanged, and
    a result of zero keeps the sign of [x]. *)
Definition Math_round (x : float) : float :=
  match Prim2SF x with
  | S754_nan => x
  | S754_infinity _ => x
  | S754_zero _ => x
  | S754_finite s m e =>
      if (0 <=? e)%Z then x
      else
        let num := if s then Z.neg m else Z.pos m in
        (* floor (num * 2^e + 1/2) *)
        let n := Z.shiftr (2 * num + 2 ^ (- e))%Z (1 - e)%Z in
        if (n =? 0)%Z then (if s then (-0) else 0) else number_of_Z n
  end.

(** [isNaN]. *)
Definition isNaN (x : float) : bool := PrimFloat.is_nan x.

Definition is_digit (c : ascii) : bool :=
  let n := nat_of_ascii c in (48 <=? n)%nat && (n <=? 57)%nat.

Fixpoint take_digits (s : string) : string :=
  match s with
  | EmptyString => EmptyString
  | String c rest => if is_digit c then String c (take_digits rest) else EmptyString
  end.

(** [value.match(/(\d+)/)]: the first maximal run of decimal digits. *)
Fixpoint match_digits (s : string) : option string :=
  match s with
  | EmptyString => None
  | String c rest =>
      if is_digit c then Some (String c (take_digits rest)) else match_digits rest
  end.

Fixpoint digits_value (acc : Z) (digits : string) : Z :=
  match digits with
  | EmptyString => acc
  | String c rest => digits_value (10 * acc + Z.of_nat (nat_of_ascii c - 48))%Z rest
  end.

(** [parseInt(digits, 10)] on a run of decimal digits. *)
Definition parseInt (digits : string) : float := number_of_Z (digits_value 0 digits).

(** The four weights of the composite score, in the order the source adds
    the products. *)
Definition compositeScore (structural visual layout color : float) : float :=
  (structural * 0.4) + (visual * 0.3) + (layout * 0.2) + (color * 0.1).

(** ** Metric coercion *)

Definition getMetricValue (value : JsValue) : float :=
  match value with
  | JNumber x => x
  | JString s =>
      match match_digits s with
      | Some digits => parseInt digits
      | None => 0
      end
  | _ => 0
  end.

(** JavaScript truthiness. *)
Definition truthy (v : JsValue) : bool :=
  match v with
  | JUndefined | JNull => false
  | JBool b => b
  | JNumber x => negb (PrimFloat.is_zero x || PrimFloat.is_nan x)
  | JString s => negb (String.eqb s "")
  | JArray _ | JObject _ => true
  end.

#[local] Close Scope float_scope.

Section WithRuntime.
Context `{RT : Runtime}.

(** Fallback models for Gemini Vision (in order of preference). *)
Definition GEMINI_VISION_FALLBACK_MODELS : list string :=
  ["gemini-2.5-pro"; "gemini-2.5-flash"; "gemini-pro-latest"; "gemini-2.0-flash-001"].

(** The candidate loop of [callVisionAPIWithFallback]. *)
Fixpoint tryModels (prompt : Prompt) (models : list string) : M string :=
  match models with
  | [] => throw (Error "All Gemini models exceeded quota or unavailable")
  | modelName :: rest =>
      tryCatch
        (call_provider (Gemini modelName) prompt (gemini_generateContent modelName prompt))
        (fun error =>
           (* check if it's a quota error *)
           if includes (err_message error) "429" || includes (err_message error) "quota"
           then tryModels prompt rest
           (* for other errors, throw immediately *)
           else throw error)
  end.

Definition callVisionAPIWithFallback (originalBase64 generatedBase64 : string)
  (isGemini : bool) : M string :=
  let prompt := VisionParts originalBase64 generatedBase64 in
  if negb isGemini then
    content <- call_provider OpenAI prompt (openai_create prompt) ;;
    ret (or_default content "{}")
  else tryModels prompt GEMINI_VISION_FALLBACK_MODELS.

Definition truthy_file (fs : list (string * string)) (k : string) : option string :=
  match assoc k fs with
  | Some v => if String.eqb v "" then None else Some v
  | None => None
  end.

(** [const appContent = files['App.tsx'] || files['/App.tsx'] || files['app.tsx']
      || Object.values(files).find(v => ...) || '']. *)
Definition appContent (fs : list (string * string)) : string :=
  match truthy_file fs "App.tsx" with
  | Some v => v
  | None =>
      match truthy_file fs "/App.tsx" with
      | Some v => v
      | None =>
          match truthy_file fs "app.tsx" with
          | Some v => v
          | None =>
              match find_first (fun v => includes v "export default"
                                         || includes v "function App") (values fs) with
              | Some v => v
              | None => ""
              end
          end
      end
  end.

(** [key.replace(/^\//, '')]. *)
Definition strip_slash (key : string) : string :=
  match key with
  | String "/" rest => rest
  | _ => key
  end.

(** The component files included in the preview. *)
Definition allFiles (fs : list (string * string)) : list (string * string) :=
  map (fun kv => (strip_slash (fst kv), snd kv))
      (filter (fun kv => endsWith (fst kv) ".tsx" || endsWith (fst kv) ".ts") fs).

Definition require_generatedCode (st : AgentState) : Result GeneratedCode :=
  match generatedCode st with
  | Some g => Ok g
  | None => Throw (TypeError "Cannot read properties of undefined (reading 'files')")
  end.

Definition require_scoutData (st : AgentState) (property : string)
  : Result ScoutOutput :=
  match scoutData st with
  | Some sd => Ok sd
  | None =>
      Throw (TypeError ("Cannot read properties of undefined (reading '" ++ property
                        ++ "')")%string)
  end.

Definition withDecision (state : AgentState) (now label : string) (why : Reasoning)
  : list Decision :=
  decisionLog state
  ++ [ {| d_timestamp := now; d_node := "qa"; decision := label; reasoning := why |} ].

(** Step 3 of [qaNode]: decide the next step from the validation result. *)
Definition decideNextStep (state : AgentState) (result : QAResult) (now : string)
  : Partial :=
  let retryCount := retryCount state in
  let maxRetries := maxRetries state in
  let shouldRetry := negb (passed result) && (retryCount <? maxRetries) in
  if passed result then
    {| p_scoutData := None; p_architectPlan := None; p_generatedCode := None;
       p_qaResult := Some result;
       p_status := Some Status.complete;
       p_currentNode := Some None;
       p_retryCount := None;
       p_attemptHistory := None;
       p_decisionLog :=
         Some (withDecision state now "Validation passed" (ScoreIs (score result)));
       p_errors := None;
       p_completedAt := Some now |}
  else if shouldRetry then
    {| p_scoutData := None; p_architectPlan := None; p_generatedCode := None;
       p_qaResult := Some result;
       p_status := Some Status.coding;
       p_currentNode := Some (Some Node.coder);
       p_retryCount := Some (retryCount + 1);
       p_attemptHistory :=
         Some (attemptHistory state
               ++ [ {| attempt := retryCount + 1;
                       qaScore := score result;
                       att_issues := map description (issues result);
                       att_timestamp := now |} ]);
       p_decisionLog :=
         Some (withDecision state now "Retrying with fixes"
                 (ScoreAttempt (score result) (retryCount + 1) maxRetries));
       p_errors := None;
       p_completedAt := None |}
  else
    {| p_scoutData := None; p_architectPlan := None; p_generatedCode := None;
       p_qaResult := Some result;
       p_status := Some Status.complete;
       p_currentNode := Some None;
       p_retryCount := None;
       p_attemptHistory := None;
       p_decisionLog :=
         Some (withDecision state now "Max retries exhausted" (FinalScore (score result)));
       p_errors := None;
       p_completedAt := Some now |}.

(** The [try] block of [qaNode]. *)
Definition qaBody (state : AgentState) : M Partial :=
  (* step 1: render generated code *)
  generated <- liftR (require_generatedCode state) ;;
  let content := appContent (files generated) in
  if String.eqb content "" then throw (Error "No App.tsx content found in generated code")
  else
  generatedBase64 <-
    perform (screenshot_generated (jobId state) (allFiles (files generated))) ;;
  sd <- liftR (require_scoutData state "url") ;;
  originalBase64 <- perform (screenshot_original (so_url sd)) ;;
  (* step 2: vision API comparison *)
  let isGemini := match qaModel with qa_gemini => true | qa_gpt4o => false end in
  gptResponse <- callVisionAPIWithFallback originalBase64 generatedBase64 isGemini ;;
  match jsonMatch gptResponse with
  | None =>
      throw (Error ("Vision API failed to return valid JSON. Response: "
                    ++ slice0 200 gptResponse)%string)
  | Some json =>
      gptResult <-
        liftR (match JSON_parse_vision json with
               | Ok v => Ok v
               | Throw parseError =>
                   Throw (Error ("Failed to parse JSON: " ++ err_message parseError)%string)
               end) ;;
      if negb (truthy (va_metrics gptResult)) then
        throw (Error ("Vision API response missing metrics field. Response keys: "
                      ++ join ", " (va_keys gptResult))%string)
      else
      let metrics := va_metrics gptResult in
      let structural := getMetricValue (getProp metrics "structuralSimilarity") in
      let visual := getMetricValue (getProp metrics "visualSimilarity") in
      let layout := getMetricValue (getProp metrics "layoutAccuracy") in
      let color := getMetricValue (getProp metrics "colorAccuracy") in
      let composite := compositeScore structural visual layout color in
      if isNaN composite then
        throw (Error ("Score calculation failed. Metrics: "
                      ++ JSON_stringify metrics)%string)
      else
      let result :=
        {| score := Math_round composite;
           passed := PrimFloat.leb 90%float composite;
           metrics := {| structuralSimilarity := structural;
                         visualSimilarity := visual;
                         layoutAccuracy := layout;
                         colorAccuracy := color |};
           screenshots := {| shot_original := originalBase64;
                             shot_generated := generatedBase64;
                             shot_diff := None |};
           issues := match va_issues gptResult with Some l => l | None => [] end |} in
      (* step 3: decide next step *)
      now <- timestamp ;;
      ret (decideNextStep state result now)
  end.

Definition qaNode (state : AgentState) : M Partial :=
  tryCatch (qaBody state)
    (fun error =>
       now <- timestamp ;;
       ret (failure state {| e_node := "qa";
                             e_error := err_message error;
                             e_timestamp := now |})).

End WithRuntime.
End QA.

(* ===================================================================== *)
(** * [scoutNode.ts]                                                     *)
(* ===================================================================== *)

Module Scout.

(** [String.prototype.split] with a separator of one character. *)
Fixpoint split (sep : ascii) (s : string) : list string :=
  match s with
  | EmptyString => [EmptyString]
  | String c rest =>
      if Ascii.eqb c sep then EmptyString :: split sep rest
      else match split sep rest with
           | piece :: pieces => String c piece :: pieces
           | [] => [String c EmptyString]      (* [split] is never empty *)
           end
  end.

(** What [Array.prototype.pop] returns: the last element, if any. *)
Fixpoint pop {A : Type} (l : list A) : option A :=
  match l with
  | [] => None
  | [x] => Some x
  | _ :: rest => pop rest
  end.

(** [url.split('.').pop()?.split('?')[0] || 'png']. *)
Definition extension (url : string) : string :=
  match pop (split "." url) with
  | Some piece =>
      match split "?" piece with
      | first :: _ => if String.eqb first "" then "png" else first
      | [] => "png"
      end
  | None => "png"
  end.

(** [getCachedFilename], the name of an image in the shared cache;
    [md5hex url] is [createHash('md5').update(url).digest('hex')]. *)
Definition getCachedFilename (md5hex : string -> string) (url : string) : string :=
  let urlHash := String.substring 0 12 (md5hex url) in
  (urlHash ++ "." ++ extension url)%string.

Section WithRuntime.
Context `{RT : Runtime}.

(** The [try] block of [scoutNode]: the browser session is the runtime's;
    the node wraps its snapshot into the update. *)
Definition scoutBody (state : AgentState) : M Partial :=
  scoutOutput <- perform (playwright_extract (url state) (jobId state)) ;;
  now <- timestamp ;;
  ret {| p_scoutData := Some scoutOutput;
         p_architectPlan := None; p_generatedCode := None; p_qaResult := None;
         p_status := Some Status.planning;
         p_currentNode := Some (Some Node.architect);
         p_retryCount := None;
         p_attemptHistory := None;
         p_decisionLog :=
           Some (decisionLog state
                 ++ [ {| d_timestamp := now;
                         d_node := "scout";
                         decision := "Completed website analysis";
                         reasoning := Extracted (List.length (computedStyles scoutOutput))
                                                (List.length (assets scoutOutput))
                                                (List.length (animations scoutOutput)) |} ]);
         p_errors := None;
         p_completedAt := None |}.

Definition scoutNode (state : AgentState) : M Partial :=
  tryCatch (scoutBody state)
    (fun error =>
       now <- timestamp ;;
       ret (failure state {| e_node := "scout";
                             e_error := err_message error;
                             e_timestamp := now |})).

End WithRuntime.
End Scout.

(* ===================================================================== *)
(** * [graph.ts]: the orchestrator                                       *)
(* ===================================================================== *)

Module Graph.

(** [routeAfterQA]: the conditional edge after [qa] of the compiled graph. *)
Inductive Route : Type := END | to_coder.

Definition routeAfterQA (state : AgentState) : Route :=
  if Status.eqb (status state) Status.complete || Status.eqb (status state) Status.failed
  then END
  else
    match currentNode state with
    | Some Node.qa => if Status.eqb (status state) Status.coding then to_coder (* retry *)
                      else END
    | _ => END
    end.

Section WithRuntime.
Context `{RT : Runtime}.

(** What the orchestrator does, in order: each [updateRedisState(state)]
    and each [await node(currentState)] with the update it returned. *)
Inductive TraceEvent : Type :=
| RedisSetex (state : AgentState)
| Called (node : Node.t) (input : AgentState) (result : Result Partial).

(** The orchestrator's variables: the nodes' state, the trace, and the
    local [currentState]. *)
Record OrchState : Type := mkOrchState {
  mstate : MState;
  trace : list TraceEvent;
  currentState : AgentState
}.

Definition Orch (A : Type) : Type := Eff OrchState A.

Definition current : Orch AgentState := fun s => (Ok (currentState s), s).

(** [currentState = f(currentState)]. *)
Definition assign (f : AgentState -> AgentState) : Orch unit :=
  fun s => (Ok tt, mkOrchState (mstate s) (trace s) (f (currentState s))).

(** [await updateRedisState(state)]: the write is attempted and its own
    errors are swallowed. *)
Definition updateRedisState (state : AgentState) : Orch unit :=
  fun s => (Ok tt, mkOrchState (mstate s) (trace s ++ [RedisSetex state]) (currentState s)).

(** [await updateRedisState(currentState)]. *)
Definition persist : Orch unit := c <- current ;; updateRedisState c.

(** [await node(currentState)]. *)
Definition await (n : Node.t) (node : AgentState -> M Partial) : Orch Partial :=
  fun s =>
    let (r, m) := node (currentState s) (mstate s) in
    (r, mkOrchState m (trace s ++ [Called n (currentState s) r]) (currentState s)).

Definition now : Orch string := fun s => (Ok (toISOString (world (mstate s))), s).

(** [{ ...c, status, currentNode }]. *)
Definition with_stage (c : AgentState) (s : Status.t) (n : Node.t) : AgentState :=
  {| jobId := jobId c; url := url c; userInstructions := userInstructions c;
     status := s; currentNode := Some n;
     scoutData := scoutData c; architectPlan := architectPlan c;
     generatedCode := generatedCode c; qaResult := qaResult c;
     retryCount := retryCount c; maxRetries := maxRetries c;
     attemptHistory := attemptHistory c; decisionLog := decisionLog c;
     errors := errors c; startedAt := startedAt c; completedAt := completedAt c |}.

(** [{ ...c, retryCount, status: 'coding', currentNode: 'coder' }]. *)
Definition with_retry (c : AgentState) (retryCount : nat) : AgentState :=
  {| jobId := jobId c; url := url c; userInstructions := userInstructions c;
     status := Status.coding; currentNode := Some Node.coder;
     scoutData := scoutData c; architectPlan := architectPlan c;
     generatedCode := generatedCode c; qaResult := qaResult c;
     retryCount := retryCount; maxRetries := maxRetries c;
     attemptHistory := attemptHistory c; decisionLog := decisionLog c;
     errors := errors c; startedAt := startedAt c; completedAt := completedAt c |}.

(** [{ ...c, status: 'complete', completedAt }]. *)
Definition with_complete (c : AgentState) (at_ : string) : AgentState :=
  {| jobId := jobId c; url := url c; userInstructions := userInstructions c;
     status := Status.complete; currentNode := currentNode c;
     scoutData := scoutData c; architectPlan := architectPlan c;
     generatedCode := generatedCode c; qaResult := qaResult c;
     retryCount := retryCount c; maxRetries := maxRetries c;
     attemptHistory := attemptHistory c; decisionLog := decisionLog c;
     errors := errors c; startedAt := startedAt c; completedAt := Some at_ |}.

(** [{ ...c, status: 'failed', errors: [...c.errors, entry], completedAt }]. *)
Definition with_failure (c : AgentState) (entry : ErrorEntry) (at_ : string) : AgentState :=
  {| jobId := jobId c; url := url c; userInstructions := userInstructions c;
     status := Status.failed; currentNode := currentNode c;
     scoutData := scoutData c; architectPlan := architectPlan c;
     generatedCode := generatedCode c; qaResult := qaResult c;
     retryCount := retryCount c; maxRetries := maxRetries c;
     attemptHistory := attemptHistory c; decisionLog := decisionLog c;
     errors := errors c ++ [entry]; startedAt := startedAt c; completedAt := Some at_ |}.

(** One turn of the body of the retry [while]. *)
Definition retryBody (retryCount : nat) : Orch unit :=
  assign (fun c => with_retry c retryCount) ;;
  persist ;;
  retryCoderResult <- await Node.coder Coder.coderNode ;;
  assign (fun c => merge c retryCoderResult) ;;
  persist ;;
  c <- current ;;
  if Status.eqb (status c) Status.qa then
    assign (fun c => with_stage c Status.qa Node.qa) ;;
    persist ;;
    retryQaResult <- await Node.qa QA.qaNode ;;
    assign (fun c => merge c retryQaResult) ;;
    persist
  else ret tt.

(** The retry [while]; [localRetryCount] is the local [let retryCount] of
    [runAgent].  [fuel] bounds the turns; [retryLoop_fuel] shows that
    [maxRetries] turns are never used up while the loop test still holds. *)
Fixpoint retryLoop (fuel : nat) (localRetryCount : nat) : Orch unit :=
  c <- current ;;
  if Status.eqb (status c) Status.coding
     && (retryCount c <? maxRetries c)
     && (localRetryCount <? maxRetries c)
  then
    match fuel with
    | 0 => ret tt
    | S fuel' =>
        let localRetryCount := localRetryCount + 1 in
        retryBody localRetryCount ;;
        retryLoop fuel' localRetryCount
    end
  else ret tt.

(** The [try] block of [runAgent]. *)
Definition tryBlock : Orch unit :=
  (* scout node *)
  assign (fun c => with_stage c Status.scouting Node.scout) ;;
  persist ;;
  scoutResult <- await Node.scout Scout.scoutNode ;;
  assign (fun c => merge c scoutResult) ;;
  persist ;;
  (* architect node *)
  assign (fun c => with_stage c Status.planning Node.architect) ;;
  persist ;;
  architectResult <- await Node.architect Architect.architectNode ;;
  assign (fun c => merge c architectResult) ;;
  persist ;;
  (* coder node *)
  assign (fun c => with_stage c Status.coding Node.coder) ;;
  persist ;;
  coderResult <- await Node.coder Coder.coderNode ;;
  assign (fun c => merge c coderResult) ;;
  persist ;;
  (* QA node *)
  assign (fun c => with_stage c Status.qa Node.qa) ;;
  persist ;;
  qaResult <- await Node.qa QA.qaNode ;;
  assign (fun c => merge c qaResult) ;;
  persist ;;
  (* handle retry loop if QA score is low *)
  c <- current ;;
  retryLoop (maxRetries c) 0 ;;
  (* mark as complete if not already failed *)
  c <- current ;;
  if negb (Status.eqb (status c) Status.failed) then
    at_ <- now ;;
    assign (fun c => with_complete c at_)
  else ret tt.

(** The [catch] block of [runAgent]. *)
Definition catchBlock (error : JsError) : Orch unit :=
  at_ <- now ;;
  assign (fun c =>
            with_failure c
              {| e_node := match currentNode c with
                           | Some n => Node.name n
                           | None => "unknown"
                           end;
                 e_error := err_message error;
                 e_timestamp := at_ |}
              at_) ;;
  persist.

Definition initialState (url : string) (userInstructions : option string)
  (jobId : option string) (w : World) : AgentState :=
  {| jobId := or_default jobId (fresh_job_id w);
     url := url;
     userInstructions := userInstructions;
     status := Status.pending;
     currentNode := None;
     scoutData := None; architectPlan := None; generatedCode := None; qaResult := None;
     retryCount := 0;
     maxRetries := 3;
     attemptHistory := [];
     decisionLog := [];
     errors := [];
     startedAt := toISOString w;
     completedAt := None |}.

(** [runAgent], started from a given initial state. *)
Definition runFrom (initial : AgentState) (m : MState) : OrchState :=
  snd ((updateRedisState initial ;;
        tryCatch tryBlock catchBlock ;;
        (* final update *)
        persist)
         (mkOrchState m [] initial)).

(** [runAgent(url, userInstructions, jobId)]: the returned state is the
    [currentState] of the result. *)
Definition runAgent (url : string) (userInstructions : option string)
  (jobId : option string) (m : MState) : OrchState :=
  runFrom (initialState url userInstructions jobId (world m)) m.

(** The states written to the store, oldest first. *)
Fixpoint persisted (t : list TraceEvent) : list AgentState :=
  match t with
  | [] => []
  | RedisSetex st :: rest => st :: persisted rest
  | Called _ _ _ :: rest => persisted rest
  end.

(** How many times a node was invoked. *)
Fixpoint invocations (n : Node.t) (t : list TraceEvent) : nat :=
  match t with
  | [] => 0
  | Called n' _ _ :: rest => (if Node.eqb n n' then 1 else 0) + invocations n rest
  | RedisSetex _ :: rest => invocations n rest
  end.

(** The nodes invoked, in order. *)
Fixpoint calledNodes (t : list TraceEvent) : list Node.t :=
  match t with
  | [] => []
  | Called n _ _ :: rest => n :: calledNodes rest
  | RedisSetex _ :: rest => calledNodes rest
  end.

End WithRuntime.
End Graph.

(* ===================================================================== *)
(** * [app/api/stream/route.ts]: the streaming boundary                  *)
(* ===================================================================== *)

Module Stream.

Inductive SSEEvent : Type :=
| status_event (status : Status.t) (message : string)
| decision_event (node decision : string) (reasoning : Reasoning)
| error_event (message node : string) (timestamp : option string)
| qa_issue (description : string) (suggestion : option string) (severity : string)
| qa_metrics (score : float) (metrics : Metrics) (passed : bool)
| progress (node : Node.t) (percent : nat)
| complete_event (code : GeneratedCode) (qaScore : float).

(** The variables of [start(controller)] that the polling callback closes
    over; [closed] is set by [clearInterval] and [controller.close()]. *)
Record Poller : Type := mkPoller {
  lastDecisionCount : nat;
  lastErrorCount : nat;
  lastStatus : option Status.t;         (* [None] is the initial [''] *)
  lastProgress : option nat;
  qaIssuesSent : bool;
  qaMetricsSent : bool;
  closed : bool
}.

Definition start : Poller :=
  {| lastDecisionCount := 0; lastErrorCount := 0; lastStatus := None;
     lastProgress := None; qaIssuesSent := false; qaMetricsSent := false;
     closed := false |}.

(** The event enqueued by [start] before the first poll. *)
Definition initialEvent : SSEEvent := status_event Status.pending "Starting...".

Definition statusMessage (s : Status.t) : string :=
  match s with
  | Status.scouting => "Analyzing website..."
  | Status.planning => "Creating component plan..."
  | Status.coding => "Generating React code..."
  | Status.qa => "Validating with vision AI..."
  | Status.complete => "Completed!"
  | Status.failed => "Failed"
  | Status.pending => "pending"
  end.

Definition progressMap (n : Node.t) : nat :=
  match n with
  | Node.scout => 25 | Node.architect => 50 | Node.coder => 75 | Node.qa => 90
  end.

(** [state.status === 'qa' || state.status === 'complete' || state.status === 'coding']. *)
Definition qaVisible (s : Status.t) : bool :=
  match s with
  | Status.qa | Status.complete | Status.coding => true
  | _ => false
  end.

(** [x || 0] on a number. *)
Definition or_zero (x : float) : float :=
  if PrimFloat.is_zero x || PrimFloat.is_nan x then 0%float else x.

(** What one tick of the interval reads: whether the ten minutes are over,
    and the job's state in the store, if any. *)
Record Tick : Type := mkTick { timedOut : bool; jobData : option AgentState }.

(** One run of the polling callback on an open stream: the poller's
    variables afterwards and the events enqueued, in order. *)
Definition pollOpen (p : Poller) (tick : Tick) : Poller * list SSEEvent :=
  if timedOut tick then
    ({| lastDecisionCount := lastDecisionCount p; lastErrorCount := lastErrorCount p;
        lastStatus := lastStatus p; lastProgress := lastProgress p;
        qaIssuesSent := qaIssuesSent p; qaMetricsSent := qaMetricsSent p;
        closed := true |},
     [error_event "Stream timeout" "stream" None])
  else
    match jobData tick with
    | None => (p, [])                              (* job not found yet, wait *)
    | Some state =>
        (* status updates *)
        let statusChanged :=
          match lastStatus p with
          | Some s => negb (Status.eqb (status state) s)
          | None => true
          end in
        let ev_status :=
          if statusChanged
          then [status_event (status state) (statusMessage (status state))] else [] in
        let lastStatus' := if statusChanged then Some (status state) else lastStatus p in
        (* new decision logs *)
        let newDecisions := lastDecisionCount p <? List.length (decisionLog state) in
        let ev_decisions :=
          if newDecisions
          then map (fun d => decision_event (d_node d) (decision d) (reasoning d))
                   (skipn (lastDecisionCount p) (decisionLog state))
          else [] in
        let lastDecisionCount' :=
          if newDecisions then List.length (decisionLog state) else lastDecisionCount p in
        (* new errors *)
        let newErrors := lastErrorCount p <? List.length (errors state) in
        let ev_errors :=
          if newErrors
          then map (fun e => error_event (e_error e) (e_node e) (Some (e_timestamp e)))
                   (skipn (lastErrorCount p) (errors state))
          else [] in
        let lastErrorCount' :=
          if newErrors then List.length (errors state) else lastErrorCount p in
        (* QA issues if available (only once) *)
        let sendIssues :=
          match qaResult state with
          | Some r => (0 <? List.length (issues r)) && negb (qaIssuesSent p)
                      && qaVisible (status state)
          | None => false
          end in
        let ev_issues :=
          match qaResult state with
          | Some r =>
              if sendIssues
              then map (fun i => qa_issue (description i) (suggestion i)
                                          (or_default (severity i) "medium"))
                       (issues r)
              else []
          | None => []
          end in
        let qaIssuesSent1 := if sendIssues then true else qaIssuesSent p in
        (* QA metrics if available (only once per QA result) *)
        let sendMetrics :=
          match qaResult state with
          | Some _ => negb (qaMetricsSent p) && qaVisible (status state)
          | None => false
          end in
        let ev_metrics :=
          match qaResult state with
          | Some r => if sendMetrics then [qa_metrics (score r) (metrics r) (passed r)] else []
          | None => []
          end in
        let qaMetricsSent1 := if sendMetrics then true else qaMetricsSent p in
        (* reset flags when QA result changes (new QA run) *)
        let reset :=
          match currentNode state, qaResult state with
          | Some Node.qa, None => Status.eqb (status state) Status.qa
          | _, _ => false
          end in
        let qaIssuesSent' := if reset then false else qaIssuesSent1 in
        let qaMetricsSent' := if reset then false else qaMetricsSent1 in
        (* progress updates based on currentNode (only when it changes) *)
        let sendProgress :=
          match currentNode state with
          | Some n =>
              match lastProgress p with
              | Some 0 | None => true
              | Some last => negb (last =? progressMap n)
              end
          | None => false
          end in
        let ev_progress :=
          match currentNode state with
          | Some n => if sendProgress then [progress n (progressMap n)] else []
          | None => []
          end in
        let lastProgress' :=
          match currentNode state with
          | Some n => if sendProgress then Some (progressMap n) else lastProgress p
          | None => lastProgress p
          end in
        (* completion *)
        let terminal :=
          Status.eqb (status state) Status.complete
          || Status.eqb (status state) Status.failed in
        let ev_complete :=
          match generatedCode state with
          | Some code =>
              if Status.eqb (status state) Status.complete
              then [complete_event code
                      (match qaResult state with
                       | Some r => or_zero (score r)
                       | None => 0%float
                       end)]
              else []
          | None => []
          end in
        ({| lastDecisionCount := lastDecisionCount';
            lastErrorCount := lastErrorCount';
            lastStatus := lastStatus';
            lastProgress := lastProgress';
            qaIssuesSent := qaIssuesSent';
            qaMetricsSent := qaMetricsSent';
            closed := terminal |},
         ev_status ++ ev_decisions ++ ev_errors ++ ev_issues ++ ev_metrics
         ++ ev_progress ++ ev_complete)
    end.

(** The callback never runs again once the interval is cleared. *)
Definition poll (p : Poller) (tick : Tick) : Poller * list SSEEvent :=
  if closed p then (p, []) else pollOpen p tick.

(** The events of a stream over a sequence of ticks, after [initialEvent]. *)
Fixpoint events (p : Poller) (ticks : list Tick) : list SSEEvent :=
  match ticks with
  | [] => []
  | tick :: rest => let (p', evs) := poll p tick in evs ++ events p' rest
  end.

Definition stream (ticks : list Tick) : list SSEEvent := initialEvent :: events start ticks.

(** The [qa_metrics] events of a stream. *)
Definition metricsEvents (evs : list SSEEvent) : list SSEEvent :=
  filter (fun e => match e with qa_metrics _ _ _ => true | _ => false end) evs.

(** The [qa_issue] events of a stream. *)
Definition issueEvents (evs : list SSEEvent) : list SSEEvent :=
  filter (fun e => match e with qa_issue _ _ _ => true | _ => false end) evs.

End Stream.

(* ===================================================================== *)
(** * A scripted runtime                                                 *)
(* ===================================================================== *)

(** A runtime whose world is a script: the outcome of the browser session
    and the provider replies still to come, consumed one per call.  It gives
    the concrete runs the theorems below are instantiated at. *)
Module Scripted.

Record Script : Type := mkScript {
  extraction : Result ScoutOutput;
  replies : list (Result string)
}.

Definition next_reply (w : Script) : Result string * Script :=
  match replies w with
  | [] => (Throw (Error "no reply scripted"), w)
  | r :: rest => (r, mkScript (extraction w) rest)
  end.

Definition page : ScoutOutput :=
  {| so_url := "https://example.com";
     so_timestamp := "2024-01-01T00:00:00.000Z";
     dom := DomNode "<body></body>" "." "body" [] "" [];
     computedStyles := [];
     layout := [];
     assets := [];
     animations := [];
     breakpoints := {| mobile := 375; tablet := 768; desktop := 1440 |};
     meta := {| meta_title := "Example"; meta_description := "";
                meta_viewport := ""; meta_theme := light |} |}.

Definition plan : ArchitectPlan :=
  {| components := [];
     conflicts := [];
     deviationNotes := [];
     colorPalette := {| primary := "#3b82f6"; secondary := "#8b5cf6";
                        background := "#ffffff"; text := "#1f2937";
                        accent := "#10b981" |};
     typography := {| headingFont := "Inter"; bodyFont := "Inter"; sizes := [] |};
     spacing := {| unit_ := 4%float; scale := [] |} |}.

Definition code (fs : list (string * string)) : GeneratedCode :=
  {| files := fs; dependencies := [];
     packages := {| pk_dependencies := []; pk_devDependencies := [] |} |}.

Definition syntaxError : JsError := mkError "SyntaxError" "Unexpected token".

(** The scripted [JSON.parse]: a few fixed documents. *)
Definition parse_plan (s : string) : Result ArchitectPlan :=
  if String.eqb s "{plan}" then Ok plan else Throw syntaxError.

Definition parse_code (s : string) : Result GeneratedCode :=
  if String.eqb s "{app}" then Ok (code [("App.tsx", "export default function App() {}")])
  else if String.eqb s "{src}" then Ok (code [("src/App.tsx", "export default function App() {}")])
  else if String.eqb s "{home}" then Ok (code [("Home.tsx", "export default function Home() {}")])
  else if String.eqb s "{css}" then Ok (code [("styles.css", "body {}")])
  else Throw syntaxError.

Definition metricsObject (a b c d : JsValue) : JsValue :=
  JObject [("structuralSimilarity", a); ("visualSimilarity", b);
           ("layoutAccuracy", c); ("colorAccuracy", d)].

Definition footerIssue : Issue :=
  {| severity := Some "major"; category := "layout";
     description := "Footer positioned incorrectly";
     suggestion := Some "Use sticky bottom positioning" |}.

Definition headerIssue : Issue :=
  {| severity := None; category := "spacing";
     description := "Header too tall";
     suggestion := Some "Reduce vertical padding" |}.

Definition answer (m : JsValue) (l : list Issue) : VisionAnswer :=
  {| va_keys := ["metrics"; "issues"]; va_metrics := m; va_issues := Some l |}.

Definition parse_vision (s : string) : Result VisionAnswer :=
  if String.eqb s "{72}" then
    Ok (answer (metricsObject (JNumber 72) (JNumber 72) (JNumber 72) (JNumber 72))
               [footerIssue])
  else if String.eqb s "{80}" then
    Ok (answer (metricsObject (JNumber 80) (JNumber 80) (JNumber 80) (JNumber 80))
               [headerIssue])
  else if String.eqb s "{95}" then
    Ok (answer (metricsObject (JNumber 95) (JNumber 95) (JNumber 95) (JNumber 95)) [])
  else if String.eqb s "{89,90,90,90}" then
    Ok (answer (metricsObject (JNumber 89) (JNumber 90) (JNumber 90) (JNumber 90)) [])
  else if String.eqb s "{85%}" then
    Ok (answer (metricsObject (JString "85%") (JString "85/100") (JNull) (JBool true)) [])
  else Throw syntaxError.

(** The scripted runtime, with every model set to Gemini (the default of
    [MODEL_CONFIG]). *)
#[local] Instance runtime : Runtime :=
  {| World := Script;
     architectModel := gemini;
     coderModel := gemini;
     qaModel := qa_gemini;
     anthropic_invoke := fun _ w => next_reply w;
     openai_create := fun _ w =>
       match next_reply w with
       | (Ok s, w') => (Ok (Some s), w')
       | (Throw e, w') => (Throw e, w')
       end;
     gemini_generateContent := fun _ _ w => next_reply w;
     playwright_extract := fun _ _ w => (extraction w, w);
     screenshot_generated := fun _ _ w => (Ok "generated.png", w);
     screenshot_original := fun _ w => (Ok "original.png", w);
     toISOString := fun _ => "2024-01-01T00:00:00.000Z";
     fresh_job_id := fun _ => "job-1";
     JSON_parse_plan := parse_plan;
     JSON_parse_code := parse_code;
     JSON_parse_vision := parse_vision;
     JSON_stringify := fun _ => "{}" |}.

Definition begin (w : Script) : MState := mkMState w [].

(** The nodes' state with the script that is left and the calls made. *)
Definition after (w : Script) (calls : list Call) : MState := mkMState w calls.

(** Replies for a page with no styles, layout or animations: the architect
    makes two calls (overview, final plan). *)
Definition architect_ok : list (Result string) := [Ok "ready"; Ok "{plan}"].

(** A job on [https://example.com] over the given script. *)
Definition job (w : Script) : Graph.OrchState :=
  Graph.runAgent "https://example.com" None (Some "job-1") (begin w).

(** A state ready for validation: the page was extracted and code with an
    [App.tsx] was generated. *)
Definition generated : AgentState :=
  {| jobId := "job-1"; url := "https://example.com"; userInstructions := None;
     status := Status.qa; currentNode := Some Node.qa;
     scoutData := Some page;
     architectPlan := Some plan;
     generatedCode :=
       Some (code [("App.tsx", "export default function App() {}")]);
     qaResult := None;
     retryCount := 0; maxRetries := 3;
     attemptHistory := []; decisionLog := []; errors := [];
     startedAt := "2024-01-01T00:00:00.000Z"; completedAt := None |}.

(** A state about to be coded: the page was extracted and planned. *)
Definition planned : AgentState :=
  {| jobId := "job-1"; url := "https://example.com"; userInstructions := None;
     status := Status.coding; currentNode := Some Node.coder;
     scoutData := Some page;
     architectPlan := Some plan;
     generatedCode := None; qaResult := None;
     retryCount := 0; maxRetries := 3;
     attemptHistory := []; decisionLog := []; errors := [];
     startedAt := "2024-01-01T00:00:00.000Z"; completedAt := None |}.

(** A provider error that reports an over-long input. *)
Definition tokenLimit : JsError :=
  Error "[400 Bad Request] The input token count exceeds the maximum number of tokens allowed".

(** A provider error that reports an exhausted quota. *)
Definition quota : JsError :=
  Error "429 Too Many Requests: rate limit reached".

(** A page with three computed styles, two layout boxes and no animation. *)
Definition style (selector : string) : ComputedStyleData :=
  {| cs_selector := selector;
     cs_styles := mkStyles "block" "static" "10px" "10px" "0px" "0px" "rgb(0, 0, 0)"
                    "rgb(255, 255, 255)" "Inter" "16px" "400" "24px"
                    None None None None None None None None |}.

Definition box (selector : string) : LayoutData :=
  {| lay_selector := selector; lay_bbox := mkBBox 0 0 10 10; lay_zIndex := 0%float |}.

Definition styled_page : ScoutOutput :=
  {| so_url := "https://example.com";
     so_timestamp := "2024-01-01T00:00:00.000Z";
     dom := DomNode "<body></body>" "." "body" [] "" [];
     computedStyles := [style "#a"; style "#b"; style "#c"];
     layout := [box "#a"; box "#b"];
     assets := [];
     animations := [];
     breakpoints := {| mobile := 375; tablet := 768; desktop := 1440 |};
     meta := {| meta_title := "Example"; meta_description := "";
                meta_viewport := ""; meta_theme := light |} |}.

(** A script whose extraction and plan succeed and whose coder reply holds
    no JSON. *)
Definition coder_garbage : Script :=
  mkScript (Ok page) (architect_ok ++ [Ok "no json here"]).

(** A script whose extraction fails. *)
Definition unreachable : Script :=
  mkScript (Throw (Error "net::ERR_NAME_NOT_RESOLVED")) [].

(** A script with three validations: 72, then 80, then 95. *)
Definition two_retries : Script :=
  mkScript (Ok page)
    (architect_ok
     ++ [Ok "{app}"; Ok "{72}"; Ok "{app}"; Ok "{80}"; Ok "{app}"; Ok "{95}"]).

(** The stream of a job whose every written state is polled once. *)
Definition ticks (w : Script) : list Stream.Tick :=
  map (fun st => Stream.mkTick false (Some st))
      (Graph.persisted (Graph.trace (job w))).


(** A job state with the given status, node and logs. *)
Definition logged (st : Status.t) (n : option Node.t) (ds : list Decision)
  (es : list ErrorEntry) : AgentState :=
  {| jobId := "job-1"; url := "https://example.com"; userInstructions := None;
     status := st; currentNode := n;
     scoutData := None; architectPlan := None; generatedCode := None; qaResult := None;
     retryCount := 0; maxRetries := 3;
     attemptHistory := []; decisionLog := ds; errors := es;
     startedAt := "2024-01-01T00:00:00.000Z"; completedAt := None |}.

Definition analysed : Decision :=
  {| d_timestamp := "2024-01-01T00:00:01.000Z"; d_node := "scout";
     decision := "Completed website analysis"; reasoning := Extracted 3 0 0 |}.

Definition noPlan : ErrorEntry :=
  {| e_node := "architect"; e_error := "Architect failed to return valid JSON";
     e_timestamp := "2024-01-01T00:00:02.000Z" |}.

(** Polls of a job whose extraction succeeds and whose planning fails; the
    last poll comes after the stream is closed. *)
Definition polls : list Stream.Tick :=
  [ Stream.mkTick false None;
    Stream.mkTick false (Some (logged Status.scouting (Some Node.scout) [] []));
    Stream.mkTick false (Some (logged Status.planning (Some Node.architect) [analysed] []));
    Stream.mkTick false (Some (logged Status.planning (Some Node.architect) [analysed] []));
    Stream.mkTick false (Some (logged Status.failed (Some Node.architect) [analysed] [noPlan]));
    Stream.mkTick false (Some (logged Status.coding (Some Node.coder) [analysed] [noPlan])) ].

End Scripted.

(* ===================================================================== *)
(** * Specifications and invariants                                      *)
(* ===================================================================== *)

Section Assertions.
Context {S : Type}.

(** [hoare P c Q E]: from a state in [P], [c] ends in [Q] when it returns
    and in [E] when it throws. *)
Definition hoare {A : Type} (P : S -> Prop) (c : Eff S A)
  (Q : A -> S -> Prop) (E : S -> Prop) : Prop :=
  forall s, P s ->
    match c s with
    | (Ok a, s') => Q a s'
    | (Throw _, s') => E s'
    end.

(** What a computation returns, whatever the state. *)
Definition returns {A : Type} (c : Eff S A) (Q : A -> Prop) : Prop :=
  hoare (fun _ => True) c (fun a _ => Q a) (fun _ => True).

(** [keeps I c]: [c] maintains [I], whether it returns or throws. *)
Definition keeps {A : Type} (I : S -> Prop) (c : Eff S A) : Prop :=
  hoare I c (fun _ => I) I.

End Assertions.

Section Specification.
Context `{RT : Runtime}.

(** Every character of [s] satisfies [p]. *)
Fixpoint all_chars (p : ascii -> bool) (s : string) : bool :=
  match s with
  | EmptyString => true
  | String c rest => p c && all_chars p rest
  end.

Definition no_digit (s : string) : bool := all_chars (fun c => negb (QA.is_digit c)) s.

Definition only_digits (s : string) : bool := all_chars QA.is_digit s.

Definition starts_with_digit (s : string) : bool :=
  match s with
  | EmptyString => false
  | String c _ => QA.is_digit c
  end.

(** The integer that a run of decimal digits denotes, most significant
    digit first. *)
Fixpoint decimal (digits : string) : Z :=
  match digits with
  | EmptyString => 0%Z
  | String c rest =>
      (Z.of_nat (nat_of_ascii c - 48) * 10 ^ Z.of_nat (String.length rest)
       + decimal rest)%Z
  end.

(** A value that is neither a number nor a string. *)
Definition other_value (v : JsValue) : bool :=
  match v with
  | JNumber _ | JString _ => false
  | _ => true
  end.

(** The four sub-metrics of a parsed vision answer, coerced. *)
Definition coercedMetrics (answer : VisionAnswer) : Metrics :=
  {| structuralSimilarity :=
       QA.getMetricValue (getProp (va_metrics answer) "structuralSimilarity");
     visualSimilarity := QA.getMetricValue (getProp (va_metrics answer) "visualSimilarity");
     layoutAccuracy := QA.getMetricValue (getProp (va_metrics answer) "layoutAccuracy");
     colorAccuracy := QA.getMetricValue (getProp (va_metrics answer) "colorAccuracy") |}.

(** The weighted sum as the claim writes it,
    [0.4*structural + 0.3*visual + 0.2*layout + 0.1*color], over the metrics
    attached to a result: each weight times its metric, the four products
    added from left to right, in binary64 arithmetic. *)
Definition weightedSum (m : Metrics) : float :=
  (0.4 * structuralSimilarity m + 0.3 * visualSimilarity m
   + 0.2 * layoutAccuracy m + 0.1 * colorAccuracy m)%float.

(** [z] is the integer nearest to [num / 2^k], a half going up:
    [z <= num / 2^k + 1/2 < z + 1], both sides multiplied by [2 * 2^k]. *)
Definition nearest_integer (num k z : Z) : Prop :=
  (2 * z * 2 ^ k <= 2 * num + 2 ^ k < (2 * z + 2) * 2 ^ k)%Z.

(** [y] is [x] rounded to the nearest integer.  A finite [x] is
    [+/- m * 2^e]: with [e >= 0] it is an integer and is its own rounding;
    with [e < 0] the rounding is the Number of the integer nearest to
    [+/- m / 2^(-e)], a zero keeping the sign of [x].  A zero and an
    infinity are their own rounding. *)
Definition rounded (x y : float) : Prop :=
  match Prim2SF x with
  | S754_finite s m e =>
      if (0 <=? e)%Z then y = x
      else exists z,
             nearest_integer (if s then Z.neg m else Z.pos m) (- e) z
             /\ (y = QA.number_of_Z z \/ (z = 0%Z /\ y = (-0)%float))
  | _ => y = x
  end.

(** What [qaNode] guarantees of a validation result it produces: the score
    is the weighted sum rounded, the result passes exactly when the weighted
    sum, not rounded, is at least 90, and the metrics are the coerced ones. *)
Definition scored (parse : string -> Result VisionAnswer) (r : QAResult) : Prop :=
  rounded (weightedSum (metrics r)) (score r)
  /\ passed r = PrimFloat.leb 90%float (weightedSum (metrics r))
  /\ exists json answer, parse json = Ok answer /\ metrics r = coercedMetrics answer.

(** The node function of each stage. *)
Definition stage (n : Node.t) : AgentState -> M Partial :=
  match n with
  | Node.scout => Scout.scoutNode
  | Node.architect => Architect.architectNode
  | Node.coder => Coder.coderNode
  | Node.qa => QA.qaNode
  end.

(** The fields of the job state other than [status] and [errors]. *)
Definition same_frame (before after : AgentState) : Prop :=
  jobId after = jobId before
  /\ url after = url before
  /\ userInstructions after = userInstructions before
  /\ currentNode after = currentNode before
  /\ scoutData after = scoutData before
  /\ architectPlan after = architectPlan before
  /\ generatedCode after = generatedCode before
  /\ qaResult after = qaResult before
  /\ retryCount after = retryCount before
  /\ maxRetries after = maxRetries before
  /\ attemptHistory after = attemptHistory before
  /\ decisionLog after = decisionLog before
  /\ startedAt after = startedAt before
  /\ completedAt after = completedAt before.

(** The update is one that a [catch] block of node [n] builds. *)
Definition failure_of (n : Node.t) (state : AgentState) (update : Partial) : Prop :=
  exists entry, e_node entry = Node.name n /\ update = failure state entry.

Definition not_failed (u : Partial) : Prop := p_status u <> Some Status.failed.

(** The three error classes of the gateway, decided on the error text. *)
Inductive ErrorClass : Type := quota_exceeded | token_limit_exceeded | other_error.

Definition classify (message : string) : ErrorClass :=
  if includes message "429" || includes message "quota" then quota_exceeded
  else if includes message "400"
          && (includes message "token" || includes message "exceeds"
              || includes message "1048576")
  then token_limit_exceeded
  else other_error.

(** What the gateway is to do with an error of a candidate: move on to the
    next candidate, end the call with that error, or either (the statement
    does not say). *)
Inductive Verdict : Type := move_on | end_call | unstated.

(** The gateway algorithm in the words of the specification: try the
    candidates in the order given; an answer is returned; an error whose
    verdict is [move_on] moves on to the next candidate; an error whose
    verdict is [end_call] ends the call and is the call's error; with no
    candidate left the call throws the one [exhausted] error.  [attempt c] is
    the call made to candidate [c]. *)
Inductive Fallback (attempt : string -> M string) (verdict : JsError -> Verdict)
  (exhausted : JsError) : list string -> MState -> Result string -> MState -> Prop :=
| fallback_exhausted m :
    Fallback attempt verdict exhausted [] m (Throw exhausted) m
| fallback_served c rest m answer m' :
    attempt c m = (Ok answer, m') ->
    Fallback attempt verdict exhausted (c :: rest) m (Ok answer) m'
| fallback_fatal c rest m e m' :
    attempt c m = (Throw e, m') -> verdict e = end_call ->
    Fallback attempt verdict exhausted (c :: rest) m (Throw e) m'
| fallback_skip c rest m e m' r m'' :
    attempt c m = (Throw e, m') -> verdict e = move_on ->
    Fallback attempt verdict exhausted rest m' r m'' ->
    Fallback attempt verdict exhausted (c :: rest) m r m''
| fallback_unstated c rest m e m' r m'' :
    attempt c m = (Throw e, m') -> verdict e = unstated ->
    Fallback attempt verdict exhausted (c :: rest) m r m''.

(** The candidates of a text call, by configured provider. *)
Definition text_candidates (modelType : ModelType) : list string :=
  match modelType with
  | claude => ["claude-3-5-sonnet-20241022"]
  | openai => ["gpt-4o"]
  | gemini => ["gemini-2.5-pro"; "gemini-2.5-flash"; "gemini-pro-latest";
               "gemini-2.0-flash-001"]
  end.

(** The call made to a candidate. *)
Definition attempt_on (modelType : ModelType) (fallback : string) (prompt : Prompt)
  (candidate : string) : M string :=
  match modelType with
  | claude => call_provider Anthropic prompt (anthropic_invoke prompt)
  | openai =>
      bind (call_provider OpenAI prompt (openai_create prompt))
           (fun content => ret (or_default content fallback))
  | gemini =>
      call_provider (Gemini candidate) prompt (gemini_generateContent candidate prompt)
  end.

(** The verdicts of a text call.  On Gemini a quota or token-limit error
    moves on and any other error ends the call; the text examined is
    [error.message || error.toString()].  Claude and OpenAI have a single
    candidate, whose error ends the call. *)
Definition text_verdict (modelType : ModelType) (e : JsError) : Verdict :=
  match modelType with
  | gemini =>
      match classify (or_string (err_message e) (err_toString e)) with
      | quota_exceeded | token_limit_exceeded => move_on
      | other_error => end_call
      end
  | claude | openai => end_call
  end.

(** The verdicts of a vision call.  On Gemini a quota error moves on and an
    error of the third class ends the call; the text examined is
    [error.message]; nothing is stated of a token-limit error.  OpenAI has a
    single candidate, whose error ends the call. *)
Definition vision_verdict (isGemini : bool) (e : JsError) : Verdict :=
  if isGemini then
    match classify (err_message e) with
    | quota_exceeded => move_on
    | token_limit_exceeded => unstated
    | other_error => end_call
    end
  else end_call.

Definition vision_candidates (isGemini : bool) : list string :=
  if isGemini
  then ["gemini-2.5-pro"; "gemini-2.5-flash"; "gemini-pro-latest"; "gemini-2.0-flash-001"]
  else ["gpt-4o"].

Definition vision_attempt (isGemini : bool) : Prompt -> string -> M string :=
  attempt_on (if isGemini then gemini else openai) "{}".

Definition text_exhausted : JsError :=
  Error "All Gemini models exceeded quota/token limits or unavailable".

Definition vision_exhausted : JsError :=
  Error "All Gemini models exceeded quota or unavailable".

(** The elements of a chunk that come from each of the three lists. *)
Definition styleItems (c : Chunk) : list ComputedStyleData :=
  match chunk_data c with StyleItems l => l | _ => [] end.

Definition layoutItems (c : Chunk) : list LayoutData :=
  match chunk_data c with LayoutItems l => l | _ => [] end.

Definition animationItems (c : Chunk) : list AnimationData :=
  match chunk_data c with AnimationItems l => l | _ => [] end.

(** [k = ceil(n / size)], for a positive [size]. *)
Definition is_ceiling (k n size : nat) : Prop := n <= k * size /\ k * size < n + size.

(** The chunks are the partition the specification describes: each of the
    three lists is cut independently, in order, into [ceil(n/chunkSize)]
    chunks of at most [chunkSize] elements, styles first, then layout, then
    animations; every chunk knows its index and the number of chunks of its
    list. *)
Definition partitioned (scoutData : ScoutOutput) (chunkSize : nat) (chunks : list Chunk)
  : Prop :=
  exists ks kl ka,
    is_ceiling ks (List.length (computedStyles scoutData)) chunkSize
    /\ is_ceiling kl (List.length (layout scoutData)) chunkSize
    /\ is_ceiling ka (List.length (animations scoutData)) chunkSize
    /\ map chunk_type chunks
       = repeat "styles" ks ++ repeat "layout" kl ++ repeat "animations" ka
    /\ map chunk_index chunks = seq 0 ks ++ seq 0 kl ++ seq 0 ka
    /\ map chunk_total chunks = repeat ks ks ++ repeat kl kl ++ repeat ka ka
    /\ Forall (fun c => 1 <= cd_length (chunk_data c) <= chunkSize) chunks
    /\ List.concat (map styleItems chunks) = computedStyles scoutData
    /\ List.concat (map layoutItems chunks) = layout scoutData
    /\ List.concat (map animationItems chunks) = animations scoutData.

(** The two halves a chunk is split into after a token-limit error. *)
Definition first_half (c : Chunk) : ChunkData :=
  cd_slice 0 (cd_length (chunk_data c) / 2) (chunk_data c).

Definition second_half (c : Chunk) : ChunkData :=
  cd_slice_from (cd_length (chunk_data c) / 2) (chunk_data c).

(** What the architect may send for a snapshot: the overview, chunks among
    the first twenty (whole or in halves), summaries, and a final prompt
    that carries the sizes of the whole lists. *)
Definition within_ceiling (scoutData : ScoutOutput) (p : Prompt) : Prop :=
  let ceiling := firstn 20 (Architect.chunkScoutData scoutData 300) in
  match p with
  | ArchitectText (InitialPrompt overview _) =>
      overview = Architect.getScoutOverview scoutData
  | ArchitectText (ChunkPrompt _ _ chunk _) => In chunk ceiling
  | ArchitectText (PartialPrompt1 type data) =>
      exists chunk, In chunk ceiling /\ type = chunk_type chunk /\ data = first_half chunk
  | ArchitectText (PartialPrompt2 type data _) =>
      exists chunk, In chunk ceiling /\ type = chunk_type chunk /\ data = second_half chunk
  | ArchitectText (SummaryPrompt _) => True
  | ArchitectText (FinalPrompt _ n_styles n_layout n_animations n_assets _) =>
      n_styles = List.length (computedStyles scoutData)
      /\ n_layout = List.length (layout scoutData)
      /\ n_animations = List.length (animations scoutData)
      /\ n_assets = List.length (assets scoutData)
  | _ => False
  end.

(** The calls the architect makes for a state, given the calls it made. *)
Definition architect_calls_ok (state : AgentState) (added : list Call) : Prop :=
  match scoutData state with
  | Some scoutData => Forall (fun call => within_ceiling scoutData (request call)) added
  | None => added = []
  end.

(** Since [m0], only allowed prompts were sent. *)
Definition sent_since (m0 : MState) (allowed : Prompt -> Prop) (s : MState) : Prop :=
  exists added,
    journal s = journal m0 ++ added
    /\ Forall (fun call => allowed (request call)) added.

(** What the [try] block of each node returns. *)
Definition body (n : Node.t) : AgentState -> M Partial :=
  match n with
  | Node.scout => Scout.scoutBody
  | Node.architect => Architect.architectBody
  | Node.coder => Coder.coderBody
  | Node.qa => QA.qaBody
  end.

(** The update that the [try] block of a node returns. *)
Definition body_shape (n : Node.t) (st : AgentState) (u : Partial) : Prop :=
  match n with
  | Node.scout =>
      p_status u = Some Status.planning /\ p_retryCount u = None /\ p_generatedCode u = None
  | Node.architect =>
      p_status u = Some Status.coding /\ p_retryCount u = None /\ p_generatedCode u = None
  | Node.coder =>
      p_status u = Some Status.qa /\ p_retryCount u = None /\ p_generatedCode u <> None
  | Node.qa =>
      generatedCode st <> None /\ exists r now, u = QA.decideNextStep st r now
  end.

(** What a node returns: the update of its [try] block or the failure
    update of its [catch] block. *)
Definition node_spec (n : Node.t) (st : AgentState) (u : Partial) : Prop :=
  body_shape n st u \/ failure_of n st u.

Definition step_assign (f : AgentState -> AgentState) (s : Graph.OrchState) : Graph.OrchState :=
  Graph.mkOrchState (Graph.mstate s) (Graph.trace s) (f (Graph.currentState s)).

Definition step_persist (s : Graph.OrchState) : Graph.OrchState :=
  Graph.mkOrchState (Graph.mstate s)
    (Graph.trace s ++ [Graph.RedisSetex (Graph.currentState s)]) (Graph.currentState s).

Definition step_called (n : Node.t) (r : Result Partial) (m : MState) (s : Graph.OrchState)
  : Graph.OrchState :=
  Graph.mkOrchState m (Graph.trace s ++ [Graph.Called n (Graph.currentState s) r])
    (Graph.currentState s).

(** A state that respects the retry bound. *)
Definition retry_ok (st : AgentState) : Prop := retryCount st <= maxRetries st.

(** The invariant of the orchestrator for the retry bound: the current
    state and every state written so far respect it, and the coder was
    invoked at most [k] times. *)
Definition Bounded (maxR k : nat) (s : Graph.OrchState) : Prop :=
  maxRetries (Graph.currentState s) = maxR
  /\ retryCount (Graph.currentState s) <= maxR
  /\ Forall retry_ok (Graph.persisted (Graph.trace s))
  /\ Graph.invocations Node.coder (Graph.trace s) <= k.

(** The loop test of the retry [while]. *)
Definition retryTest (l : nat) (c : AgentState) : bool :=
  Status.eqb (status c) Status.coding && (retryCount c <? maxRetries c)
  && (l <? maxRetries c).








(** The state has status [qa] and carries no generated code. *)
Definition qa_without_code (st : AgentState) : bool :=
  Status.eqb (status st) Status.qa
  && match generatedCode st with None => true | Some _ => false end.

End Specification.

(* ===================================================================== *)
(** * Further specifications                                          *)
(* ===================================================================== *)

Section Properties.
Context `{RT : Runtime}.

(** The character [c] does not occur in [s]. *)
Definition lacks (c : ascii) (s : string) : bool :=
  all_chars (fun a => negb (Ascii.eqb a c)) s.

(** A key that [coderNode] accepts as the main component file. *)
Definition plausible_entry (key : string) : bool :=
  includes (toLowerCase key) "app" || includes (toLowerCase key) "main"
  || endsWith (toLowerCase key) ".tsx".

(** [c] adds at most [n] provider calls to the journal, whether it returns
    or throws. *)
Definition costs {A : Type} (c : M A) (n : nat) : Prop :=
  forall m, List.length (journal (snd (c m))) <= List.length (journal m) + n.

(** The calls a gateway can make for a prompt: its provider's candidates,
    each asked once, in order. *)
Definition candidate_calls (modelType : ModelType) (prompt : Prompt) : list Call :=
  match modelType with
  | claude => [mkCall Anthropic prompt]
  | openai => [mkCall OpenAI prompt]
  | gemini => map (fun c => mkCall (Gemini c) prompt)
                  ["gemini-2.5-pro"; "gemini-2.5-flash"; "gemini-pro-latest";
                   "gemini-2.0-flash-001"]
  end.

(** The journal after a gateway call: the first [k] candidates were asked,
    [k] at least one. *)
Definition asked (calls : list Call) (before after : MState) : Prop :=
  exists k, 1 <= k /\ journal after = journal before ++ firstn k calls.

(** The summaries [architectNode] asks for while it processes [k] chunks
    from index [i] on, out of [n]. *)
Fixpoint summaries (n i k : nat) : nat :=
  match k with
  | 0 => 0
  | S k' => (if ((i + 1) mod 3 =? 0) || (i =? n - 1) then 1 else 0) + summaries n (i + 1) k'
  end.

(** The provider calls one invocation of a node can make: the architect's
    overview and final plan, up to three gateway calls for each of at most
    twenty chunks and up to seven summaries, four candidates each; one
    gateway call for the coder and one for the validator. *)
Definition budget (n : Node.t) : nat :=
  match n with
  | Node.scout => 0
  | Node.architect => 4 * (1 + 3 * 20 + 7 + 1)
  | Node.coder => 4
  | Node.qa => 4
  end.



(** The status a stage hands over with when it succeeds. *)
Definition next_status (n : Node.t) : Status.t :=
  match n with
  | Node.scout => Status.planning
  | Node.architect => Status.coding
  | Node.coder => Status.qa
  | Node.qa => Status.complete
  end.

(** What a node's update does to the job state: the failure update of its
    [catch] block, or the update of its [try] block -- for the validator the
    decision of step 3, for the other stages the next status and one more
    decision, tagged with the stage. *)
Definition node_effect (n : Node.t) (st : AgentState) (u : Partial) : Prop :=
  failure_of n st u
  \/ match n with
     | Node.qa => generatedCode st <> None /\ exists r now, u = QA.decideNextStep st r now
     | _ =>
         p_status u = Some (next_status n)
         /\ p_retryCount u = None /\ p_attemptHistory u = None
         /\ p_errors u = None /\ p_completedAt u = None /\ p_qaResult u = None
         /\ exists d, d_node d = Node.name n
                      /\ p_decisionLog u = Some (decisionLog st ++ [d])
     end.

(** The fields that identify a job. *)
Definition same_job (a b : AgentState) : Prop :=
  jobId b = jobId a /\ url b = url a /\ userInstructions b = userInstructions a
  /\ maxRetries b = maxRetries a /\ startedAt b = startedAt a.

(** [new] is [old] with entries appended. *)
Definition extends {A : Type} (old new : list A) : Prop := exists added, new = old ++ added.

(** Both logs of [later] extend those of [earlier]. *)
Definition log_grows (earlier later : AgentState) : Prop :=
  extends (decisionLog earlier) (decisionLog later)
  /\ extends (errors earlier) (errors later).

(** The names of the nodes whose invocation returned a [failed] update, and
    of those whose invocation returned another update, in order. *)
Definition returned_failed (r : Result Partial) : bool :=
  match r with
  | Ok u => match p_status u with Some Status.failed => true | _ => false end
  | Throw _ => false
  end.

Fixpoint failed_nodes (t : list Graph.TraceEvent) : list string :=
  match t with
  | [] => []
  | Graph.Called n _ r :: rest =>
      if returned_failed r then Node.name n :: failed_nodes rest else failed_nodes rest
  | Graph.RedisSetex _ :: rest => failed_nodes rest
  end.

Fixpoint succeeded_nodes (t : list Graph.TraceEvent) : list string :=
  match t with
  | [] => []
  | Graph.Called n _ r :: rest =>
      if returned_failed r then succeeded_nodes rest else Node.name n :: succeeded_nodes rest
  | Graph.RedisSetex _ :: rest => succeeded_nodes rest
  end.

(** The attempts recorded so far are numbered 1, 2, ..., [retryCount]. *)
Definition numbered (st : AgentState) : Prop :=
  map attempt (attemptHistory st) = seq 1 (retryCount st).

(** A decision of the validator is one of the two it takes while a retry
    is still allowed. *)
Definition qa_decision_ok (d : Decision) : Prop :=
  d_node d = "qa" -> decision d = "Validation passed" \/ decision d = "Retrying with fixes".

(** The coder is invoked on a fresh state, or on one that carries the
    result of a validation that did not pass. *)
Definition briefed (st : AgentState) : Prop :=
  (retryCount st = 0 /\ qaResult st = None)
  \/ (0 < retryCount st /\ exists r, qaResult st = Some r /\ passed r = false).

Definition coder_briefed (e : Graph.TraceEvent) : Prop :=
  match e with
  | Graph.Called Node.coder st _ => briefed st
  | _ => True
  end.

(** The validator is invoked on a state that still allows a retry. *)
Definition qa_has_room (e : Graph.TraceEvent) : Prop :=
  match e with
  | Graph.Called Node.qa st _ => retryCount st < maxRetries st
  | _ => True
  end.

Definition first_pass : list Node.t := [Node.scout; Node.architect; Node.coder; Node.qa].

(** [k] full turns of the retry loop. *)
Definition retry_turns (k : nat) : list Node.t := List.concat (repeat [Node.coder; Node.qa] k).

(** The nodes a job invokes, in order, after [l] turns of the retry loop:
    the four stages, then full turns; a turn whose coder attempt fails has
    no validation, and is the last one. *)
Definition job_shape (l : nat) (final : Status.t) (nodes : list Node.t) : Prop :=
  nodes = first_pass ++ retry_turns l
  \/ exists k, l = k + 1 /\ nodes = first_pass ++ retry_turns k ++ [Node.coder]
               /\ final = Status.failed.

(** The results of the node invocations, in order, and whether the last
    one is a [failed] update. *)
Fixpoint results (t : list Graph.TraceEvent) : list (Result Partial) :=
  match t with
  | [] => []
  | Graph.Called _ _ r :: rest => r :: results rest
  | Graph.RedisSetex _ :: rest => results rest
  end.

Definition last_call_failed (t : list Graph.TraceEvent) : bool :=
  match rev (results t) with
  | r :: _ => returned_failed r
  | [] => false
  end.

(** The state carries generated code and a validation result [r]. *)
Definition carries (st : AgentState) (r : QAResult) : Prop :=
  generatedCode st <> None /\ qaResult st = Some r.

(** After a validation: the job failed in it, or it carries its result --
    complete when the result passes, sent back to the coder otherwise. *)
Definition Outcome (s : Graph.OrchState) : Prop :=
  (status (Graph.currentState s) = Status.failed
   /\ last_call_failed (Graph.trace s) = true)
  \/ (last_call_failed (Graph.trace s) = false
      /\ exists r, carries (Graph.currentState s) r
                   /\ ((status (Graph.currentState s) = Status.complete /\ passed r = true)
                       \/ (status (Graph.currentState s) = Status.coding
                           /\ passed r = false))).

Definition Good (maxR : nat) (st : AgentState) : Prop :=
  maxRetries st = maxR /\ numbered st /\ Forall qa_decision_ok (decisionLog st).

Definition Base (maxR : nat) (s : Graph.OrchState) : Prop :=
  Good maxR (Graph.currentState s)
  /\ Forall (Good maxR) (Graph.persisted (Graph.trace s))
  /\ Forall qa_has_room (Graph.trace s)
  /\ Forall coder_briefed (Graph.trace s).

(** Before the validator's first invocation: no retry yet, [k] stages run. *)
Definition Early (maxR k : nat) (s : Graph.OrchState) : Prop :=
  Base maxR s /\ retryCount (Graph.currentState s) = 0
  /\ completedAt (Graph.currentState s) = None
  /\ qaResult (Graph.currentState s) = None
  /\ Graph.calledNodes (Graph.trace s) = firstn k first_pass.

(** At the test of the retry loop, [l] turns done. *)
Definition AtLoop (maxR l : nat) (s : Graph.OrchState) : Prop :=
  Base maxR s /\ l < maxR
  /\ (status (Graph.currentState s) = Status.coding
      -> retryCount (Graph.currentState s) = l + 1)
  /\ (completedAt (Graph.currentState s) <> None
      -> status (Graph.currentState s) = Status.complete)
  /\ Outcome s
  /\ job_shape l (status (Graph.currentState s)) (Graph.calledNodes (Graph.trace s)).

(** Inside turn [l + 1], [nodes] invoked so far. *)
Definition InTurn (maxR l : nat) (nodes : list Node.t) (s : Graph.OrchState) : Prop :=
  Base maxR s /\ retryCount (Graph.currentState s) = l + 1 /\ l + 1 < maxR
  /\ completedAt (Graph.currentState s) = None
  /\ (exists r, qaResult (Graph.currentState s) = Some r /\ passed r = false)
  /\ Graph.calledNodes (Graph.trace s) = nodes.

(** After the coder's invocation in a turn: validation is next, or the
    job failed in this invocation. *)
Definition Coded (s : Graph.OrchState) : Prop :=
  status (Graph.currentState s) = Status.qa
  \/ (status (Graph.currentState s) = Status.failed
      /\ last_call_failed (Graph.trace s) = true).

(** After the [try] block of [runAgent]. *)
Definition Done (maxR : nat) (s : Graph.OrchState) : Prop :=
  Base maxR s
  /\ (exists l, l < maxR
                /\ job_shape l (status (Graph.currentState s))
                              (Graph.calledNodes (Graph.trace s)))
  /\ ((status (Graph.currentState s) = Status.failed
       /\ completedAt (Graph.currentState s) = None
       /\ last_call_failed (Graph.trace s) = true)
      \/ (status (Graph.currentState s) = Status.complete
          /\ completedAt (Graph.currentState s) <> None
          /\ last_call_failed (Graph.trace s) = false
          /\ exists r, carries (Graph.currentState s) r
                       /\ (passed r = true
                           \/ (passed r = false
                               /\ retryCount (Graph.currentState s) = maxR)))).

(** The job is over: the stream closes on such a state. *)
Definition terminal (s : Status.t) : bool :=
  match s with
  | Status.complete | Status.failed => true
  | _ => false
  end.

(** The states a stream reads while it is open: it stops at a timeout and
    after a terminal state. *)
Fixpoint polled (ticks : list Stream.Tick) : list AgentState :=
  match ticks with
  | [] => []
  | tick :: rest =>
      if Stream.timedOut tick then []
      else match Stream.jobData tick with
           | None => polled rest
           | Some st => st :: (if terminal (status st) then [] else polled rest)
           end
  end.

Definition decision_sent (d : Decision) : Stream.SSEEvent :=
  Stream.decision_event (d_node d) (decision d) (reasoning d).

Definition error_sent (e : ErrorEntry) : Stream.SSEEvent :=
  Stream.error_event (e_error e) (e_node e) (Some (e_timestamp e)).

(** The [decision] events of a stream, and its [error] events that carry an
    entry of the job (the stream's own timeout error has no timestamp). *)
Definition decisionEvents (evs : list Stream.SSEEvent) : list Stream.SSEEvent :=
  filter (fun e => match e with Stream.decision_event _ _ _ => true | _ => false end) evs.

Definition jobErrorEvents (evs : list Stream.SSEEvent) : list Stream.SSEEvent :=
  filter (fun e => match e with Stream.error_event _ _ (Some _) => true | _ => false end) evs.

(** The last state of a list, if any. *)
Fixpoint last_state (l : list AgentState) : option AgentState :=
  match l with
  | [] => None
  | st :: rest => match last_state rest with Some x => Some x | None => Some st end
  end.

(** A poll that reads [st], within the ten minutes. *)
Definition reads (st : AgentState) : Stream.Tick := Stream.mkTick false (Some st).

(** The tick closes the stream: the ten minutes are over, or the job is. *)
Definition closes (tick : Stream.Tick) : bool :=
  Stream.timedOut tick
  || match Stream.jobData tick with
     | Some st => terminal (status st)
     | None => false
     end.

(** The poller's variables after a sequence of ticks. *)
Fixpoint after_ticks (p : Stream.Poller) (ticks : list Stream.Tick) : Stream.Poller :=
  match ticks with
  | [] => p
  | tick :: rest => after_ticks (fst (Stream.poll p tick)) rest
  end.

(** The statuses of the [status] events of a stream, and the percentages of
    its [progress] events, in order. *)
Definition status_of (e : Stream.SSEEvent) : list Status.t :=
  match e with Stream.status_event s _ => [s] | _ => [] end.

Definition percent_of (e : Stream.SSEEvent) : list nat :=
  match e with Stream.progress _ percent => [percent] | _ => [] end.

Definition statusesSent (evs : list Stream.SSEEvent) : list Status.t :=
  flat_map status_of evs.

Definition percentsSent (evs : list Stream.SSEEvent) : list nat :=
  flat_map percent_of evs.

(** Every element differs from the one before it, the first one from
    [prev]. *)
Fixpoint changes {A : Type} (prev : option A) (l : list A) : Prop :=
  match l with
  | [] => True
  | x :: rest => prev <> Some x /\ changes (Some x) rest
  end.

(** The [complete] events of a stream. *)
Definition completeEvents (evs : list Stream.SSEEvent) : list Stream.SSEEvent :=
  filter (fun e => match e with Stream.complete_event _ _ => true | _ => false end) evs.





End Properties.

(* ===================================================================== *)
(** * Reasoning about computations                                       *)
(* ===================================================================== *)

Lemma status_eqb_spec (a b : Status.t) : reflect (a = b) (Status.eqb a b).
Proof. destruct a, b; simpl; constructor; congruence. Qed.

Lemma node_eqb_spec (a b : Node.t) : reflect (a = b) (Node.eqb a b).
Proof. destruct a, b; simpl; constructor; congruence. Qed.

Section Hoare.
Context {S : Type}.

Lemma hoare_ret {A : Type} (P : S -> Prop) (a : A) (Q : A -> S -> Prop) E :
  (forall s, P s -> Q a s) -> hoare P (ret a) Q E.
Proof. intros H s Hs. simpl. auto. Qed.

Lemma hoare_throw {A : Type} (P : S -> Prop) e (Q : A -> S -> Prop) (E : S -> Prop) :
  (forall s, P s -> E s) -> hoare P (throw e) Q E.
Proof. intros H s Hs. simpl. auto. Qed.

Lemma hoare_bind {A B : Type} (P : S -> Prop) (c : Eff S A) (k : A -> Eff S B)
  (R : A -> S -> Prop) (Q : B -> S -> Prop) E :
  hoare P c R E -> (forall a, hoare (R a) (k a) Q E) -> hoare P (bind c k) Q E.
Proof.
  intros Hc Hk s Hs. unfold bind. specialize (Hc s Hs).
  destruct (c s) as [[a | e] s']; auto. apply Hk. exact Hc.
Qed.

Lemma hoare_tryCatch {A : Type} (P : S -> Prop) (body : Eff S A) handler
  (Q : A -> S -> Prop) (E' E : S -> Prop) :
  hoare P body Q E' -> (forall e, hoare E' (handler e) Q E) ->
  hoare P (tryCatch body handler) Q E.
Proof.
  intros Hb Hh s Hs. unfold tryCatch. specialize (Hb s Hs).
  destruct (body s) as [[a | e] s']; auto. apply Hh. exact Hb.
Qed.

Lemma hoare_liftR {A : Type} (P : S -> Prop) (r : Result A) (Q : A -> S -> Prop) E :
  (forall a s, r = Ok a -> P s -> Q a s) ->
  (forall e s, r = Throw e -> P s -> E s) ->
  hoare P (liftR r) Q E.
Proof. intros H1 H2 s Hs. unfold liftR. destruct r; eauto. Qed.

Lemma hoare_conseq {A : Type} (P P' : S -> Prop) (c : Eff S A)
  (Q Q' : A -> S -> Prop) (E E' : S -> Prop) :
  hoare P' c Q' E' ->
  (forall s, P s -> P' s) -> (forall a s, Q' a s -> Q a s) -> (forall s, E' s -> E s) ->
  hoare P c Q E.
Proof.
  intros H HP HQ HE s Hs. specialize (H s (HP s Hs)).
  destruct (c s) as [[a | e] s']; auto.
Qed.

Lemma hoare_pre {A : Type} (P P' : S -> Prop) (c : Eff S A) Q E :
  hoare P' c Q E -> (forall s, P s -> P' s) -> hoare P c Q E.
Proof. intros H HP. eapply hoare_conseq; eauto. Qed.

(** A fact that does not depend on the state can be assumed. *)
Lemma hoare_assume {A : Type} (F : Prop) (P : S -> Prop) (c : Eff S A) Q E :
  (F -> hoare P c Q E) -> hoare (fun s => F /\ P s) c Q E.
Proof. intros H s [HF Hs]. apply H; assumption. Qed.

Lemma returns_elim {A : Type} (c : Eff S A) (Q : A -> Prop) s a s' :
  returns c Q -> c s = (Ok a, s') -> Q a.
Proof. intros H Hc. specialize (H s I). rewrite Hc in H. exact H. Qed.

Lemma returns_ret {A : Type} (a : A) (Q : A -> Prop) : Q a -> returns (S := S) (ret a) Q.
Proof. intros H. apply hoare_ret. auto. Qed.

Lemma returns_throw {A : Type} e (Q : A -> Prop) : returns (S := S) (throw e) Q.
Proof. apply hoare_throw. auto. Qed.

Lemma returns_bind {A B : Type} (c : Eff S A) (k : A -> Eff S B) (Q : B -> Prop) :
  (forall a, returns (k a) Q) -> returns (bind c k) Q.
Proof.
  intros Hk. eapply hoare_bind with (R := fun _ _ => True).
  - intros s _. destruct (c s) as [[a | e] s']; exact I.
  - exact Hk.
Qed.

Lemma returns_bind_liftR {A B : Type} (r : Result A) (k : A -> Eff S B) (Q : B -> Prop) :
  (forall a, r = Ok a -> returns (k a) Q) -> returns (bind (liftR r) k) Q.
Proof.
  intros Hk s _. unfold bind, liftR. destruct r as [a | e]; [ | exact I ].
  apply (Hk a eq_refl s I).
Qed.

Lemma returns_tryCatch {A : Type} (body : Eff S A) handler (Q : A -> Prop) :
  returns body Q -> (forall e, returns (handler e) Q) ->
  returns (tryCatch body handler) Q.
Proof. intros Hb Hh. eapply hoare_tryCatch; [ exact Hb | exact Hh ]. Qed.

End Hoare.

(** Peel the binds of a computation whose result alone matters. *)
Ltac returns_steps :=
  repeat first
    [ apply returns_throw
    | apply returns_bind_liftR; intros ? ?
    | apply returns_bind; intros ? ].

(* ===================================================================== *)
(** * Metric coercion ([getMetricValue])                                 *)
(* ===================================================================== *)

Lemma digits_value_decimal (digits : string) (acc : Z) :
  QA.digits_value acc digits
  = (acc * 10 ^ Z.of_nat (String.length digits) + decimal digits)%Z.
Proof.
  revert acc. induction digits as [ | c rest IH]; intros acc; cbn [QA.digits_value].
  - cbn [decimal String.length]. change (Z.of_nat 0) with 0%Z. rewrite Z.pow_0_r. ring.
  - rewrite IH. cbn [decimal String.length]. rewrite Nat2Z.inj_succ, Z.pow_succ_r by lia.
    ring.
Qed.

Lemma take_digits_run (digits post : string) :
  only_digits digits = true -> starts_with_digit post = false ->
  QA.take_digits (digits ++ post)%string = digits.
Proof.
  intros Hd Hp. induction digits as [ | c rest IH]; simpl in *.
  - destruct post as [ | c post]; simpl in *; [ reflexivity | now rewrite Hp ].
  - apply andb_prop in Hd. destruct Hd as [Hc Hrest]. rewrite Hc. f_equal. auto.
Qed.

Lemma match_digits_run (pre digits post : string) :
  no_digit pre = true -> only_digits digits = true -> digits <> EmptyString ->
  starts_with_digit post = false ->
  QA.match_digits (pre ++ digits ++ post)%string = Some digits.
Proof.
  intros Hpre Hd Hne Hp. induction pre as [ | c pre IH]; simpl in *.
  - destruct digits as [ | c rest]; [ congruence | ]. simpl in *.
    apply andb_prop in Hd. destruct Hd as [Hc Hrest]. rewrite Hc.
    now rewrite take_digits_run.
  - apply andb_prop in Hpre. destruct Hpre as [Hc Hrest].
    apply negb_true_iff in Hc. rewrite Hc. auto.
Qed.

Lemma match_digits_none (s : string) :
  no_digit s = true -> QA.match_digits s = None.
Proof.
  induction s as [ | c rest IH]; simpl; intros H; [ reflexivity | ].
  apply andb_prop in H. destruct H as [Hc Hrest].
  apply negb_true_iff in Hc. rewrite Hc. auto.
Qed.

(** C8.  The validator's coercion of a sub-metric value: a number is
    returned as it is; a string that contains a digit yields its first
    embedded integer, the first maximal run of decimal digits read in base
    ten (so ["85%"] yields 85); a string without a digit and every value
    that is neither a number nor a string yield 0.  The coercion is a total
    function: no value makes it throw. *)
Theorem getMetricValue_coercion :
  (forall x : float, QA.getMetricValue (JNumber x) = x)
  /\ (forall pre digits post : string,
        no_digit pre = true -> only_digits digits = true -> digits <> EmptyString ->
        starts_with_digit post = false ->
        QA.getMetricValue (JString (pre ++ digits ++ post)%string)
        = QA.number_of_Z (decimal digits))
  /\ (forall s : string, no_digit s = true -> QA.getMetricValue (JString s) = 0%float)
  /\ (forall v : JsValue, other_value v = true -> QA.getMetricValue v = 0%float)
  /\ QA.getMetricValue (JString "85%") = 85%float.
Proof.
  split; [ | split; [ | split; [ | split ] ] ].
  - reflexivity.
  - intros pre digits post Hpre Hd Hne Hp. unfold QA.getMetricValue.
    rewrite match_digits_run by assumption. unfold QA.parseInt.
    rewrite digits_value_decimal. f_equal; lia.
  - intros s Hs. unfold QA.getMetricValue. now rewrite match_digits_none.
  - intros v Hv. destruct v; simpl in *; congruence.
  - vm_compute. reflexivity.
Qed.

(** The coercion at ["about 85/100"], [""], ["n/a"] and [null]. *)
Lemma getMetricValue_coercion_witness :
  QA.getMetricValue (JString ("about " ++ "85" ++ "/100")%string) = QA.number_of_Z 85
  /\ QA.getMetricValue (JString "n/a") = 0%float
  /\ QA.getMetricValue JNull = 0%float.
Proof.
  destruct getMetricValue_coercion as [_ [Hrun [Hnone [Hother _]]]].
  split; [ | split ].
  - apply (Hrun "about " "85" "/100"); [ reflexivity | reflexivity | discriminate | reflexivity ].
  - apply (Hnone "n/a"). reflexivity.
  - apply (Hother JNull). reflexivity.
Defined.

(* ===================================================================== *)
(** * Composite score and pass threshold ([qaNode])                      *)
(* ===================================================================== *)

Section QaScore.
Context `{RT : Runtime}.

Lemma decideNextStep_result (state : AgentState) (result : QAResult) (now : string) :
  p_qaResult (QA.decideNextStep state result now) = Some result.
Proof.
  unfold QA.decideNextStep.
  destruct (passed result); simpl; [ reflexivity | ].
  destruct (retryCount state <? maxRetries state); reflexivity.
Qed.

(** Multiplication of Numbers is commutative. *)
Lemma SFmul_comm (prec emax : Z) (x y : spec_float) :
  SFmul prec emax x y = SFmul prec emax y x.
Proof.
  destruct x as [sx | sx | | sx mx ex], y as [sy | sy | | sy my ey]; cbn;
    try reflexivity; try (now rewrite xorb_comm).
  now rewrite xorb_comm, Pos.mul_comm, Z.add_comm.
Qed.

Lemma float_mul_comm (x y : float) : (x * y = y * x)%float.
Proof. apply Prim2SF_inj. rewrite !mul_spec. apply SFmul_comm. Qed.

(** The sum the source computes, [(structural * 0.4) + (visual * 0.3) +
    (layout * 0.2) + (color * 0.1)], is the weighted sum of the claim. *)
Lemma weightedSum_compositeScore (m : Metrics) :
  weightedSum m
  = QA.compositeScore (structuralSimilarity m) (visualSimilarity m)
                      (layoutAccuracy m) (colorAccuracy m).
Proof.
  unfold weightedSum, QA.compositeScore.
  now rewrite (float_mul_comm 0.4), (float_mul_comm 0.3), (float_mul_comm 0.2),
    (float_mul_comm 0.1).
Qed.

(** [Math.round] rounds to the nearest integer, a half going up. *)
Lemma Math_round_rounded (x : float) : rounded x (QA.Math_round x).
Proof.
  unfold rounded, QA.Math_round.
  destruct (Prim2SF x) as [sx | sx | | s m e]; try reflexivity.
  destruct (0 <=? e)%Z eqn:He; [ reflexivity | ].
  apply Z.leb_gt in He.
  set (num := if s then Z.neg m else Z.pos m).
  set (n := Z.shiftr (2 * num + 2 ^ (- e)) (1 - e)).
  exists n. split.
  - unfold nearest_integer, n. rewrite Z.shiftr_div_pow2 by lia.
    replace (1 - e)%Z with (Z.succ (- e)) by lia.
    rewrite Z.pow_succ_r by lia.
    assert (Hp : (0 < 2 ^ (- e))%Z) by (apply Z.pow_pos_nonneg; lia).
    set (P := (2 ^ (- e))%Z) in *.
    pose proof (Z.div_mod (2 * num + P) (2 * P) ltac:(lia)) as Hdiv.
    pose proof (Z.mod_pos_bound (2 * num + P) (2 * P) ltac:(lia)) as Hmod.
    nia.
  - destruct (n =? 0)%Z eqn:Hn.
    + apply Z.eqb_eq in Hn. rewrite Hn. destruct s; [ right; auto | now left ].
    + now left.
Qed.

Lemma qaBody_scored (state : AgentState) :
  returns (QA.qaBody state)
    (fun u => forall r, p_qaResult u = Some r -> scored JSON_parse_vision r).
Proof.
  unfold QA.qaBody. apply returns_bind; intros generated.
  destruct (String.eqb _ _); [ apply returns_throw | ].
  do 4 (apply returns_bind; intros ?).
  destruct (jsonMatch _) as [json | ]; [ | apply returns_throw ].
  apply returns_bind_liftR; intros answer Hparse.
  destruct (negb _); [ apply returns_throw | ].
  destruct (QA.isNaN _); [ apply returns_throw | ].
  apply returns_bind; intros now. apply returns_ret.
  intros r Hr. rewrite decideNextStep_result in Hr. injection Hr as <-.
  unfold scored. cbn [score passed metrics]. rewrite weightedSum_compositeScore.
  cbn [structuralSimilarity visualSimilarity layoutAccuracy colorAccuracy].
  split; [ apply Math_round_rounded | ]. split; [ reflexivity | ].
  exists json, answer. split; [ | reflexivity ].
  destruct (JSON_parse_vision json); congruence.
Qed.

(** C2 (amended).  Every validation result that [qaNode] produces carries
    the four coerced sub-metrics; its score is their weighted sum
    [0.4*structural + 0.3*visual + 0.2*layout + 0.1*color], computed in
    binary64 arithmetic from left to right, rounded to the nearest integer
    (a half going up); and it passes exactly when that weighted sum, before
    rounding, is at least 90. *)
Theorem qa_score_and_pass (state : AgentState) (m m' : MState) (update : Partial)
  (r : QAResult) :
  QA.qaNode state m = (Ok update, m') ->
  p_qaResult update = Some r ->
  scored JSON_parse_vision r.
Proof.
  intros Hrun Hr.
  assert (H : returns (QA.qaNode state)
                (fun u => forall r, p_qaResult u = Some r -> scored JSON_parse_vision r)).
  { unfold QA.qaNode. apply returns_tryCatch; [ apply qaBody_scored | ].
    intros e. apply returns_bind; intros now. apply returns_ret.
    simpl. discriminate. }
  exact (returns_elim _ _ _ _ _ H Hrun r Hr).
Qed.

End QaScore.

(** The amended statement at a run whose vision answer gives 95 to every
    sub-metric. *)
Lemma qa_score_and_pass_witness :
  exists update m' r,
    QA.qaNode Scripted.generated (Scripted.begin (Scripted.mkScript (Ok Scripted.page) [Ok "{95}"]))
    = (Ok update, m')
    /\ p_qaResult update = Some r
    /\ scored Scripted.parse_vision r.
Proof.
  eexists _, _, _. split; [ vm_compute; reflexivity | ]. split; [ reflexivity | ].
  eapply (@qa_score_and_pass Scripted.runtime) with
    (state := Scripted.generated)
    (m := Scripted.begin (Scripted.mkScript (Ok Scripted.page) [Ok "{95}"]));
    [ vm_compute; reflexivity | reflexivity ].
Defined.

(** C2, as stated, fails: with sub-metrics 89, 90, 90 and 90 the weighted
    sum is 89.6, so the score -- the rounded value -- is 90, which is at
    least 90, and yet the result does not pass. *)
Lemma qa_rounded_score_90_not_passed :
  exists update m' r,
    QA.qaNode Scripted.generated
      (Scripted.begin (Scripted.mkScript (Ok Scripted.page) [Ok "{89,90,90,90}"]))
    = (Ok update, m')
    /\ p_qaResult update = Some r
    /\ metrics r = mkMetrics 89 90 90 90
    /\ score r = 90%float
    /\ PrimFloat.leb 90%float (score r) = true
    /\ passed r = false.
Proof.
  eexists _, _, _. split; [ vm_compute; reflexivity | ].
  repeat split.
Qed.

(* ===================================================================== *)
(** * The update of a failed stage                                       *)
(* ===================================================================== *)

Section FailedStage.
Context `{RT : Runtime}.

Lemma scoutBody_not_failed state : returns (Scout.scoutBody state) not_failed.
Proof.
  unfold Scout.scoutBody. do 2 (apply returns_bind; intros ?).
  apply returns_ret. unfold not_failed; simpl; discriminate.
Qed.

Lemma architectBody_not_failed state : returns (Architect.architectBody state) not_failed.
Proof.
  unfold Architect.architectBody. apply returns_bind; intros sd.
  apply returns_bind; intros acc. apply returns_bind; intros [acc' summary].
  apply returns_bind; intros content.
  destruct (jsonMatch content); [ | apply returns_throw ].
  do 2 (apply returns_bind; intros ?).
  apply returns_ret. unfold not_failed; simpl; discriminate.
Qed.

Lemma coderBody_not_failed state : returns (Coder.coderBody state) not_failed.
Proof.
  unfold Coder.coderBody. apply returns_bind; intros sd.
  apply returns_bind; intros content.
  destruct (jsonMatch content); [ | apply returns_throw ].
  do 3 (apply returns_bind; intros ?).
  apply returns_ret. unfold not_failed; simpl; discriminate.
Qed.

Lemma decideNextStep_not_failed state result now :
  not_failed (QA.decideNextStep state result now).
Proof.
  unfold not_failed, QA.decideNextStep.
  destruct (passed result); simpl; [ discriminate | ].
  destruct (retryCount state <? maxRetries state); simpl; discriminate.
Qed.

Lemma qaBody_not_failed state : returns (QA.qaBody state) not_failed.
Proof.
  unfold QA.qaBody. apply returns_bind; intros generated.
  destruct (String.eqb _ _); [ apply returns_throw | ].
  do 4 (apply returns_bind; intros ?).
  destruct (jsonMatch _) as [json | ]; [ | apply returns_throw ].
  apply returns_bind; intros answer.
  destruct (negb _); [ apply returns_throw | ].
  destruct (QA.isNaN _); [ apply returns_throw | ].
  apply returns_bind; intros now. apply returns_ret.
  apply decideNextStep_not_failed.
Qed.

(** A node returns either what its [try] block returned, which is never a
    [failed] update, or the failure update of its [catch] block. *)
Lemma stage_returns (n : Node.t) (state : AgentState) :
  returns (stage n state) (fun u => not_failed u \/ failure_of n state u).
Proof.
  assert (Hcatch : forall name body,
             name = Node.name n -> returns body not_failed ->
             returns (tryCatch body
                        (fun error =>
                           bind timestamp
                             (fun now => ret (failure state
                                                {| e_node := name;
                                                   e_error := err_message error;
                                                   e_timestamp := now |}))))
                     (fun u => not_failed u \/ failure_of n state u)).
  { intros name body Hname Hbody. apply returns_tryCatch.
    - eapply hoare_conseq; [ exact Hbody | auto | simpl; auto | auto ].
    - intros e. apply returns_bind; intros now. apply returns_ret.
      right. eexists. split; [ | reflexivity ]. exact Hname. }
  destruct n; simpl stage.
  - apply Hcatch; [ reflexivity | apply scoutBody_not_failed ].
  - apply Hcatch; [ reflexivity | apply architectBody_not_failed ].
  - apply Hcatch; [ reflexivity | apply coderBody_not_failed ].
  - apply Hcatch; [ reflexivity | apply qaBody_not_failed ].
Qed.

Lemma merge_failure_frame (state : AgentState) (entry : ErrorEntry) :
  same_frame state (merge state (failure state entry)).
Proof. unfold same_frame; simpl. repeat split. Qed.

(** C10.  When a stage -- scout, architect, coder or qa -- fails, the
    update it returns has exactly two keys: [status], set to [failed], and
    [errors], the state's error list with one entry appended, tagged with
    the stage.  After the orchestrator merges it, the status is [failed],
    the error list is the old one plus that entry, and every other field of
    the job state (scoutData, architectPlan, generatedCode, qaResult,
    retryCount, attemptHistory, decisionLog among them) is what it was
    before the stage ran. *)
Theorem failed_stage_frame (n : Node.t) (state : AgentState) (m m' : MState)
  (update : Partial) :
  stage n state m = (Ok update, m') ->
  p_status update = Some Status.failed ->
  exists entry,
    e_node entry = Node.name n
    /\ update = failure state entry
    /\ status (merge state update) = Status.failed
    /\ errors (merge state update) = errors state ++ [entry]
    /\ same_frame state (merge state update).
Proof.
  intros Hrun Hfailed.
  destruct (returns_elim _ _ _ _ _ (stage_returns n state) Hrun) as [Hok | [entry [Hn ->]]].
  - contradiction.
  - exists entry. repeat split; try assumption.
Qed.

End FailedStage.

(** The frame property at a coder run whose model reply is not JSON. *)
Lemma failed_stage_frame_witness :
  exists update m',
    Coder.coderNode Scripted.planned
      (Scripted.begin (Scripted.mkScript (Ok Scripted.page) [Ok "no json here"]))
    = (Ok update, m')
    /\ p_status update = Some Status.failed
    /\ exists entry,
         e_node entry = "coder"
         /\ update = failure Scripted.planned entry
         /\ status (merge Scripted.planned update) = Status.failed
         /\ errors (merge Scripted.planned update) = errors Scripted.planned ++ [entry]
         /\ same_frame Scripted.planned (merge Scripted.planned update).
Proof.
  eexists _, _. split; [ vm_compute; reflexivity | ]. split; [ reflexivity | ].
  eapply (@failed_stage_frame Scripted.runtime Node.coder) with
    (state := Scripted.planned)
    (m := Scripted.begin (Scripted.mkScript (Ok Scripted.page) [Ok "no json here"]));
    [ vm_compute; reflexivity | reflexivity ].
Defined.

(* ===================================================================== *)
(** * The model gateway                                                  *)
(* ===================================================================== *)

Section Gateway.
Context `{RT : Runtime}.

Lemma architect_tryModels_fallback (prompt : Prompt) (models : list string) (m : MState) :
  Fallback (attempt_on gemini "" prompt) (text_verdict gemini) text_exhausted models m
    (fst (Architect.tryModels prompt models m)) (snd (Architect.tryModels prompt models m)).
Proof.
  revert m. induction models as [ | c rest IH]; intros m.
  - apply fallback_exhausted.
  - cbn [Architect.tryModels]. unfold tryCatch.
    destruct (call_provider (Gemini c) prompt (gemini_generateContent c prompt) m)
      as [[answer | e] m1] eqn:Hcall.
    + apply fallback_served. exact Hcall.
    + cbv zeta.
      assert (Hclass : text_verdict gemini e
                       = match classify (Architect.errorMsg e) with
                         | other_error => end_call
                         | _ => move_on
                         end) by (unfold text_verdict; now destruct (classify _)).
      unfold classify in Hclass.
      destruct (includes (Architect.errorMsg e) "429" || includes (Architect.errorMsg e) "quota").
      * eapply fallback_skip; [ exact Hcall | exact Hclass | apply IH ].
      * destruct (includes (Architect.errorMsg e) "400" && _).
        -- eapply fallback_skip; [ exact Hcall | exact Hclass | apply IH ].
        -- apply fallback_fatal; [ exact Hcall | exact Hclass ].
Qed.

Lemma coder_tryModels_fallback (prompt : Prompt) (models : list string) (m : MState) :
  Fallback (attempt_on gemini "" prompt) (text_verdict gemini) text_exhausted models m
    (fst (Coder.tryModels prompt models m)) (snd (Coder.tryModels prompt models m)).
Proof.
  revert m. induction models as [ | c rest IH]; intros m.
  - apply fallback_exhausted.
  - cbn [Coder.tryModels]. unfold tryCatch.
    destruct (call_provider (Gemini c) prompt (gemini_generateContent c prompt) m)
      as [[answer | e] m1] eqn:Hcall.
    + apply fallback_served. exact Hcall.
    + cbv zeta.
      assert (Hclass : text_verdict gemini e
                       = match classify (Coder.errorMsg e) with
                         | other_error => end_call
                         | _ => move_on
                         end) by (unfold text_verdict; now destruct (classify _)).
      unfold classify in Hclass.
      destruct (includes (Coder.errorMsg e) "429" || includes (Coder.errorMsg e) "quota").
      * eapply fallback_skip; [ exact Hcall | exact Hclass | apply IH ].
      * destruct (includes (Coder.errorMsg e) "400" && _).
        -- eapply fallback_skip; [ exact Hcall | exact Hclass | apply IH ].
        -- apply fallback_fatal; [ exact Hcall | exact Hclass ].
Qed.

Lemma vision_tryModels_fallback (prompt : Prompt) (models : list string) (m : MState) :
  Fallback (attempt_on gemini "{}" prompt) (vision_verdict true) vision_exhausted models m
    (fst (QA.tryModels prompt models m)) (snd (QA.tryModels prompt models m)).
Proof.
  revert m. induction models as [ | c rest IH]; intros m.
  - apply fallback_exhausted.
  - cbn [QA.tryModels]. unfold tryCatch.
    destruct (call_provider (Gemini c) prompt (gemini_generateContent c prompt) m)
      as [[answer | e] m1] eqn:Hcall.
    + apply fallback_served. exact Hcall.
    + assert (Hclass : vision_verdict true e
                       = match classify (err_message e) with
                         | quota_exceeded => move_on
                         | token_limit_exceeded => unstated
                         | other_error => end_call
                         end) by reflexivity.
      unfold classify in Hclass.
      destruct (includes (err_message e) "429" || includes (err_message e) "quota").
      * eapply fallback_skip; [ exact Hcall | exact Hclass | apply IH ].
      * destruct (includes (err_message e) "400" && _).
        -- eapply fallback_unstated; [ exact Hcall | exact Hclass ].
        -- apply fallback_fatal; [ exact Hcall | exact Hclass ].
Qed.

(** A provider with a single candidate: its answer or its error is the
    call's. *)
Lemma single_candidate_fallback (attempt : string -> M string) verdict exhausted
  (c : string) (m : MState) :
  (forall e, verdict e = end_call) ->
  Fallback attempt verdict exhausted [c] m (fst (attempt c m)) (snd (attempt c m)).
Proof.
  intros Hnone. destruct (attempt c m) as [[answer | e] m1] eqn:Hcall; simpl.
  - apply fallback_served. exact Hcall.
  - apply fallback_fatal; [ exact Hcall | apply Hnone ].
Qed.

(** C6 (amended).  Every call through the gateway tries its provider's
    candidates in their fixed order and returns the first answer.  On
    Gemini, for the text capability of planning and coding and for the
    paired-image vision capability alike, a quota/rate-limit error moves on
    to the next candidate, an error that is neither a quota/rate-limit nor a
    token-limit error ends the call at once and is thrown unchanged, and
    when no candidate is left the call throws a single
    all-candidates-exhausted error; for the text capability a token-limit
    error moves on to the next candidate too.  Claude and OpenAI are
    single-candidate providers: whatever error the candidate raises ends the
    call and is thrown unchanged. *)
Theorem gateway_fallback (m : MState) :
  (forall prompt modelType,
      Fallback (attempt_on modelType "" prompt) (text_verdict modelType)
        text_exhausted (text_candidates modelType) m
        (fst (Architect.callLLMWithFallback prompt modelType m))
        (snd (Architect.callLLMWithFallback prompt modelType m)))
  /\ (forall system user modelType,
         Fallback (attempt_on modelType "" (CoderText system user))
           (text_verdict modelType) text_exhausted (text_candidates modelType) m
           (fst (Coder.callCoderLLMWithFallback system user modelType m))
           (snd (Coder.callCoderLLMWithFallback system user modelType m)))
  /\ (forall original generated isGemini,
         Fallback (vision_attempt isGemini (VisionParts original generated))
           (vision_verdict isGemini) vision_exhausted (vision_candidates isGemini) m
           (fst (QA.callVisionAPIWithFallback original generated isGemini m))
           (snd (QA.callVisionAPIWithFallback original generated isGemini m))).
Proof.
  split; [ | split ].
  - intros prompt [ | | ].
    + apply (single_candidate_fallback (attempt_on claude "" prompt)). reflexivity.
    + apply architect_tryModels_fallback.
    + apply (single_candidate_fallback (attempt_on openai "" prompt)). reflexivity.
  - intros system user [ | | ].
    + apply (single_candidate_fallback (attempt_on claude "" (CoderText system user))).
      reflexivity.
    + apply coder_tryModels_fallback.
    + apply (single_candidate_fallback (attempt_on openai "" (CoderText system user))).
      reflexivity.
  - intros original generated [ | ].
    + apply vision_tryModels_fallback.
    + apply (single_candidate_fallback
               (attempt_on openai "{}" (VisionParts original generated))).
      reflexivity.
Qed.

End Gateway.

(** C6, as stated, fails with Claude configured: the provider's only
    candidate answers with an error that the gateway's test classifies as a
    quota error; no other candidate is tried and the call throws that very
    error, after one attempt, not an all-candidates-exhausted error. *)
Lemma single_provider_quota_error_propagates :
  classify (err_message Scripted.quota) = quota_exceeded
  /\ Architect.callLLMWithFallback (ArchitectText (SummaryPrompt 3)) claude
       (Scripted.begin
          (Scripted.mkScript (Ok Scripted.page) [Throw Scripted.quota; Ok "summary"]))
     = (Throw Scripted.quota,
        Scripted.after (Scripted.mkScript (Ok Scripted.page) [Ok "summary"])
          [mkCall Anthropic (ArchitectText (SummaryPrompt 3))])
  /\ err_message Scripted.quota = "429 Too Many Requests: rate limit reached"
  /\ err_message (@text_exhausted)
     = "All Gemini models exceeded quota/token limits or unavailable".
Proof.
  split; [ vm_compute; reflexivity | ].
  split; [ vm_compute; reflexivity | ].
  split; reflexivity.
Qed.

(** The vision gateway at a token-limit error, the case the amended
    statement leaves open: the call ends with that error after the first
    candidate, where the text gateway moves on to the second one.  The
    vision loop has no token-limit test; the loops of the architect and of
    the coder have one. *)
Lemma vision_token_limit_aborts :
  classify (err_message Scripted.tokenLimit) = token_limit_exceeded
  /\ QA.callVisionAPIWithFallback "original.png" "generated.png" true
       (Scripted.begin
          (Scripted.mkScript (Ok Scripted.page) [Throw Scripted.tokenLimit; Ok "{95}"]))
     = (Throw Scripted.tokenLimit,
        Scripted.after (Scripted.mkScript (Ok Scripted.page) [Ok "{95}"])
          [mkCall (Gemini "gemini-2.5-pro") (VisionParts "original.png" "generated.png")])
  /\ Architect.callLLMWithFallback (VisionParts "original.png" "generated.png") gemini
       (Scripted.begin
          (Scripted.mkScript (Ok Scripted.page) [Throw Scripted.tokenLimit; Ok "{95}"]))
     = (Ok "{95}",
        Scripted.after (Scripted.mkScript (Ok Scripted.page) [])
          [mkCall (Gemini "gemini-2.5-pro") (VisionParts "original.png" "generated.png");
           mkCall (Gemini "gemini-2.5-flash") (VisionParts "original.png" "generated.png")]).
Proof.
  split; [ vm_compute; reflexivity | ].
  split; vm_compute; reflexivity.
Qed.

(* ===================================================================== *)
(** * Chunking and the chunk ceiling ([chunkScoutData], [architectNode]) *)
(* ===================================================================== *)

Section Chunking.

Lemma ceil_div_is_ceiling (n size : nat) :
  0 < size -> is_ceiling (Architect.ceil_div n size) n size.
Proof.
  intros Hpos. unfold is_ceiling, Architect.ceil_div.
  pose proof (Nat.div_mod_eq (n + size - 1) size) as Hdm.
  pose proof (Nat.mod_upper_bound (n + size - 1) size ltac:(lia)) as Hlt.
  set (q := (n + size - 1) / size) in *. set (r := (n + size - 1) mod size) in *.
  split; nia.
Qed.

Lemma firstn_add {A : Type} (a b : nat) (l : list A) :
  firstn (a + b) l = firstn a l ++ firstn b (skipn a l).
Proof.
  revert l. induction a as [ | a IH]; intros l; simpl.
  - reflexivity.
  - destruct l as [ | x l]; simpl.
    + now rewrite firstn_nil.
    + now rewrite IH.
Qed.

Lemma slices_concat {A : Type} (l : list A) (size k : nat) :
  List.concat (map (fun i => firstn ((i + 1) * size - i * size) (skipn (i * size) l)) (seq 0 k))
  = firstn (k * size) l.
Proof.
  induction k as [ | k IH].
  - reflexivity.
  - rewrite seq_S, map_app, concat_app, IH. simpl.
    rewrite app_nil_r. replace ((k + 1) * size - k * size) with size by nia.
    rewrite (Nat.add_comm size), <- firstn_add. reflexivity.
Qed.

Lemma concat_nils {A B : Type} (l : list B) :
  List.concat (map (fun _ => @nil A) l) = [].
Proof. induction l; simpl; auto. Qed.

Lemma cd_length_slice (a b : nat) (d : ChunkData) :
  cd_length (cd_slice a b d) = Nat.min (b - a) (cd_length d - a).
Proof. destruct d; simpl; now rewrite length_firstn, length_skipn. Qed.

Lemma map_const_seq {A : Type} (v : A) (s n : nat) :
  map (fun _ => v) (seq s n) = repeat v n.
Proof. revert s. induction n as [ | n IH]; intros s; simpl; [ reflexivity | now rewrite IH ]. Qed.

Lemma pushChunks_shape (type : string) (data : ChunkData) (size : nat) :
  0 < size ->
  let k := Architect.ceil_div (cd_length data) size in
  let chunks := Architect.pushChunks type data size in
  map chunk_type chunks = repeat type k
  /\ map chunk_index chunks = seq 0 k
  /\ map chunk_total chunks = repeat k k
  /\ Forall (fun c => 1 <= cd_length (chunk_data c) <= size) chunks.
Proof.
  intros Hpos k chunks. subst chunks. unfold Architect.pushChunks. fold k.
  destruct (ceil_div_is_ceiling (cd_length data) size Hpos) as [Hlo Hhi]. fold k in Hlo, Hhi.
  rewrite !map_map. cbn [chunk_type chunk_index chunk_total chunk_data].
  repeat split.
  - apply map_const_seq.
  - apply map_id.
  - apply map_const_seq.
  - apply Forall_forall. intros c Hc. apply in_map_iff in Hc. destruct Hc as [i [<- Hi]].
    apply in_seq in Hi. cbn [chunk_data]. rewrite cd_length_slice. nia.
Qed.

Lemma pushChunks_styles (type : string) (l : list ComputedStyleData) (size : nat) :
  0 < size ->
  let chunks := Architect.pushChunks type (StyleItems l) size in
  List.concat (map styleItems chunks) = l
  /\ List.concat (map layoutItems chunks) = []
  /\ List.concat (map animationItems chunks) = [].
Proof.
  intros Hpos chunks. subst chunks. unfold Architect.pushChunks.
  rewrite !map_map. unfold styleItems, layoutItems, animationItems.
  cbn [chunk_data cd_slice cd_length].
  repeat split; try apply concat_nils.
  rewrite slices_concat. apply firstn_all2.
  apply (ceil_div_is_ceiling (List.length l) size Hpos).
Qed.

Lemma pushChunks_layout (type : string) (l : list LayoutData) (size : nat) :
  0 < size ->
  let chunks := Architect.pushChunks type (LayoutItems l) size in
  List.concat (map styleItems chunks) = []
  /\ List.concat (map layoutItems chunks) = l
  /\ List.concat (map animationItems chunks) = [].
Proof.
  intros Hpos chunks. subst chunks. unfold Architect.pushChunks.
  rewrite !map_map. unfold styleItems, layoutItems, animationItems.
  cbn [chunk_data cd_slice cd_length].
  repeat split; try apply concat_nils.
  rewrite slices_concat. apply firstn_all2.
  apply (ceil_div_is_ceiling (List.length l) size Hpos).
Qed.

Lemma pushChunks_animations (type : string) (l : list AnimationData) (size : nat) :
  0 < size ->
  let chunks := Architect.pushChunks type (AnimationItems l) size in
  List.concat (map styleItems chunks) = []
  /\ List.concat (map layoutItems chunks) = []
  /\ List.concat (map animationItems chunks) = l.
Proof.
  intros Hpos chunks. subst chunks. unfold Architect.pushChunks.
  rewrite !map_map. unfold styleItems, layoutItems, animationItems.
  cbn [chunk_data cd_slice cd_length].
  repeat split; try apply concat_nils.
  rewrite slices_concat. apply firstn_all2.
  apply (ceil_div_is_ceiling (List.length l) size Hpos).
Qed.

Lemma chunkScoutData_partitioned (scoutData : ScoutOutput) (chunkSize : nat) :
  0 < chunkSize -> partitioned scoutData chunkSize (Architect.chunkScoutData scoutData chunkSize).
Proof.
  intros Hpos. unfold partitioned, Architect.chunkScoutData.
  exists (Architect.ceil_div (List.length (computedStyles scoutData)) chunkSize),
         (Architect.ceil_div (List.length (layout scoutData)) chunkSize),
         (Architect.ceil_div (List.length (animations scoutData)) chunkSize).
  destruct (pushChunks_shape "styles" (StyleItems (computedStyles scoutData)) chunkSize Hpos)
    as [Ht1 [Hi1 [Hn1 Hb1]]].
  destruct (pushChunks_shape "layout" (LayoutItems (layout scoutData)) chunkSize Hpos)
    as [Ht2 [Hi2 [Hn2 Hb2]]].
  destruct (pushChunks_shape "animations" (AnimationItems (animations scoutData)) chunkSize Hpos)
    as [Ht3 [Hi3 [Hn3 Hb3]]].
  destruct (pushChunks_styles "styles" (computedStyles scoutData) chunkSize Hpos)
    as [Hs1 [Hs2 Hs3]].
  destruct (pushChunks_layout "layout" (layout scoutData) chunkSize Hpos)
    as [Hl1 [Hl2 Hl3]].
  destruct (pushChunks_animations "animations" (animations scoutData) chunkSize Hpos)
    as [Ha1 [Ha2 Ha3]].
  cbn [cd_length] in *.
  split; [ apply ceil_div_is_ceiling; assumption | ].
  split; [ apply ceil_div_is_ceiling; assumption | ].
  split; [ apply ceil_div_is_ceiling; assumption | ].
  rewrite !map_app, !concat_app.
  rewrite Ht1, Ht2, Ht3, Hi1, Hi2, Hi3, Hn1, Hn2, Hn3.
  rewrite Hs1, Hs2, Hs3, Hl1, Hl2, Hl3, Ha1, Ha2, Ha3.
  repeat split; try reflexivity.
  - repeat (apply Forall_app; split); assumption.
  - now rewrite !app_nil_r.
  - now rewrite app_nil_r.
Qed.
End Chunking.

Section Keeps.
Context {S : Type}.

Lemma keeps_ret {A : Type} (I : S -> Prop) (a : A) : keeps I (ret a).
Proof. apply hoare_ret. auto. Qed.

Lemma keeps_throw {A : Type} (I : S -> Prop) e : keeps I (@throw S A e).
Proof. apply hoare_throw. auto. Qed.

Lemma keeps_liftR {A : Type} (I : S -> Prop) (r : Result A) : keeps I (liftR r).
Proof. apply hoare_liftR; auto. Qed.

Lemma keeps_bind {A B : Type} (I : S -> Prop) (c : Eff S A) (k : A -> Eff S B) :
  keeps I c -> (forall a, keeps I (k a)) -> keeps I (bind c k).
Proof. intros Hc Hk. eapply hoare_bind; [ exact Hc | exact Hk ]. Qed.

Lemma keeps_tryCatch {A : Type} (I : S -> Prop) (body : Eff S A) handler :
  keeps I body -> (forall e, keeps I (handler e)) -> keeps I (tryCatch body handler).
Proof. intros Hb Hh. eapply hoare_tryCatch; [ exact Hb | exact Hh ]. Qed.

Lemma keeps_elim {A : Type} (I : S -> Prop) (c : Eff S A) (s : S) :
  keeps I c -> I s -> I (snd (c s)).
Proof. intros H Hs. specialize (H s Hs). destruct (c s) as [[a | e] s']; exact H. Qed.

End Keeps.

Section Ceiling.
Context `{RT : Runtime}.

Lemma sent_since_refl m0 allowed : sent_since m0 allowed m0.
Proof. exists []. split; [ now rewrite app_nil_r | constructor ]. Qed.

Lemma keeps_perform {A : Type} m0 allowed (f : World -> Result A * World) :
  keeps (sent_since m0 allowed) (perform f).
Proof.
  intros s [added [Hj Hall]]. unfold perform.
  destruct (f (world s)) as [[a | e] w]; exists added; auto.
Qed.

Lemma keeps_timestamp m0 allowed : keeps (sent_since m0 allowed) timestamp.
Proof. intros s Hs. exact Hs. Qed.

Lemma keeps_call_provider {A : Type} m0 (allowed : Prompt -> Prop) p req
  (f : World -> Result A * World) :
  allowed req -> keeps (sent_since m0 allowed) (call_provider p req f).
Proof.
  intros Hreq s [added [Hj Hall]]. unfold call_provider.
  assert (H : sent_since m0 allowed
                (mkMState (snd (f (world s))) (journal s ++ [mkCall p req]))).
  { exists (added ++ [mkCall p req]). split.
    - simpl. rewrite Hj. now rewrite app_assoc.
    - apply Forall_app. split; [ exact Hall | ]. constructor; [ exact Hreq | constructor ]. }
  destruct (f (world s)) as [[a | e] w]; exact H.
Qed.

Lemma keeps_architect_tryModels m0 (allowed : Prompt -> Prop) prompt models :
  allowed prompt -> keeps (sent_since m0 allowed) (Architect.tryModels prompt models).
Proof.
  intros Hreq. induction models as [ | c rest IH]; cbn [Architect.tryModels].
  - apply keeps_throw.
  - apply keeps_tryCatch; [ now apply keeps_call_provider | ].
    intros e. cbv zeta.
    destruct (includes _ "429" || includes _ "quota"); [ exact IH | ].
    destruct (includes _ "400" && _); [ exact IH | apply keeps_throw ].
Qed.

Lemma keeps_callLLMWithFallback m0 (allowed : Prompt -> Prop) prompt modelType :
  allowed prompt ->
  keeps (sent_since m0 allowed) (Architect.callLLMWithFallback prompt modelType).
Proof.
  intros Hreq. destruct modelType; cbn [Architect.callLLMWithFallback].
  - now apply keeps_call_provider.
  - now apply keeps_architect_tryModels.
  - apply keeps_bind; [ now apply keeps_call_provider | intros; apply keeps_ret ].
Qed.

Lemma keeps_splitAndRetry m0 sd modelType chunk acc error :
  In chunk (Architect.chunksToProcess sd) ->
  keeps (sent_since m0 (within_ceiling sd))
        (Architect.splitAndRetry modelType chunk acc error).
Proof.
  intros Hin. unfold Architect.splitAndRetry.
  destruct (includes _ "token" || includes _ "exceeds"); [ | apply keeps_throw ].
  apply keeps_tryCatch; [ | intros; apply keeps_ret ].
  apply keeps_bind.
  - apply keeps_callLLMWithFallback. exists chunk. repeat split. exact Hin.
  - intros r1. apply keeps_bind; [ | intros; apply keeps_ret ].
    apply keeps_callLLMWithFallback. exists chunk. repeat split. exact Hin.
Qed.

Lemma keeps_processChunks m0 sd modelType n todo :
  (forall c, In c todo -> In c (Architect.chunksToProcess sd)) ->
  forall i acc summary,
    keeps (sent_since m0 (within_ceiling sd))
          (Architect.processChunks modelType n i todo acc summary).
Proof.
  induction todo as [ | chunk rest IH]; intros Hsub i acc summary;
    cbn [Architect.processChunks].
  - apply keeps_ret.
  - assert (Hin : In chunk (Architect.chunksToProcess sd)) by (apply Hsub; now left).
    assert (Hrest : forall c, In c rest -> In c (Architect.chunksToProcess sd))
      by (intros c Hc; apply Hsub; now right).
    apply keeps_bind.
    + apply keeps_tryCatch.
      * apply keeps_bind; [ | intros; apply keeps_ret ].
        apply keeps_callLLMWithFallback. exact Hin.
      * intros e. now apply keeps_splitAndRetry.
    + intros acc'. destruct (((i + 1) mod 3 =? 0) || (i =? n - 1)).
      * apply keeps_bind; [ now apply keeps_callLLMWithFallback | ].
        intros s. now apply IH.
      * now apply IH.
Qed.

Lemma bind_liftR_Ok {S A B : Type} (a : A) (k : A -> Eff S B) :
  bind (liftR (Ok a)) k = k a.
Proof. reflexivity. Qed.

Lemma bind_liftR_Throw {S A B : Type} (e : JsError) (k : A -> Eff S B) :
  bind (liftR (Throw e)) k = throw e.
Proof. reflexivity. Qed.

Lemma keeps_architectBody m0 state sd :
  scoutData state = Some sd ->
  keeps (sent_since m0 (within_ceiling sd)) (Architect.architectBody state).
Proof.
  intros Hsd. unfold Architect.architectBody, Architect.require_scoutData. rewrite Hsd.
  rewrite bind_liftR_Ok.
  apply keeps_bind; [ apply keeps_callLLMWithFallback; reflexivity | intros acc ].
  apply keeps_bind.
  { apply keeps_processChunks. auto. }
  intros [acc' summary].
  apply keeps_bind.
  { apply keeps_callLLMWithFallback. repeat split. }
  intros content. destruct (jsonMatch content); [ | apply keeps_throw ].
  apply keeps_bind; [ apply keeps_liftR | intros plan ].
  apply keeps_bind; [ apply keeps_timestamp | intros now ].
  apply keeps_ret.
Qed.

Lemma architectNode_calls (state : AgentState) (m : MState) :
  exists added,
    journal (snd (Architect.architectNode state m)) = journal m ++ added
    /\ architect_calls_ok state added.
Proof.
  unfold architect_calls_ok. destruct (scoutData state) as [sd | ] eqn:Hsd.
  - apply (keeps_elim (sent_since m (within_ceiling sd))); [ | apply sent_since_refl ].
    unfold Architect.architectNode. apply keeps_tryCatch.
    + now apply keeps_architectBody.
    + intros e. apply keeps_bind; [ apply keeps_timestamp | intros; apply keeps_ret ].
  - exists []. split; [ | reflexivity ].
    unfold Architect.architectNode, Architect.architectBody, Architect.require_scoutData.
    rewrite Hsd. rewrite bind_liftR_Throw. rewrite app_nil_r. reflexivity.
Qed.

Lemma chunksToProcess_ceiling (sd : ScoutOutput) :
  List.length (Architect.chunksToProcess sd) <= 20.
Proof. unfold Architect.chunksToProcess. rewrite length_firstn. apply Nat.le_min_l. Qed.

(** C7.  [chunkScoutData] cuts the snapshot's computed styles, layout
    boxes and animations independently into chunks of at most [chunkSize]
    elements: [ceil(n/chunkSize)] chunks per list, in the original order,
    every element in exactly one chunk (the chunks of a list, concatenated,
    are the list).  The architect processes at most 20 chunks of a job: every
    chunk it sends, whole or in halves, is one of the first twenty, and what
    lies beyond them reaches the model only through the sizes of the whole
    lists that the final synthesis prompt carries. *)
Theorem chunking_and_ceiling :
  (forall scoutData chunkSize,
      0 < chunkSize ->
      partitioned scoutData chunkSize (Architect.chunkScoutData scoutData chunkSize))
  /\ (forall scoutData,
         Architect.chunksToProcess scoutData
         = firstn 20 (Architect.chunkScoutData scoutData 300)
         /\ List.length (Architect.chunksToProcess scoutData) <= 20)
  /\ (forall state m,
         exists added,
           journal (snd (Architect.architectNode state m)) = journal m ++ added
           /\ architect_calls_ok state added).
Proof.
  split; [ | split ].
  - intros scoutData chunkSize Hpos. now apply chunkScoutData_partitioned.
  - intros scoutData. split; [ reflexivity | apply chunksToProcess_ceiling ].
  - intros state m. apply architectNode_calls.
Qed.

End Ceiling.

(** The partition of a page with three styles and two layout boxes into
    chunks of two. *)
Lemma chunking_and_ceiling_witness :
  partitioned Scripted.styled_page 2 (Architect.chunkScoutData Scripted.styled_page 2).
Proof.
  apply (proj1 (@chunking_and_ceiling Scripted.runtime)). apply Nat.lt_0_succ.
Defined.

(* ===================================================================== *)
(** * The orchestrator: node specifications and the retry bound         *)
(* ===================================================================== *)

Section Nodes.
Context `{RT : Runtime}.

Lemma stage_unfold (n : Node.t) (st : AgentState) :
  stage n st
  = tryCatch (body n st)
      (fun error =>
         bind timestamp
           (fun now => ret (failure st {| e_node := Node.name n;
                                          e_error := err_message error;
                                          e_timestamp := now |}))).
Proof. destruct n; reflexivity. Qed.

Lemma body_returns (n : Node.t) (st : AgentState) :
  returns (body n st) (body_shape n st).
Proof.
  destruct n; cbn [body body_shape].
  - unfold Scout.scoutBody. do 2 (apply returns_bind; intros ?).
    apply returns_ret. simpl. auto.
  - unfold Architect.architectBody. apply returns_bind; intros sd.
    apply returns_bind; intros acc. apply returns_bind; intros [acc' summary].
    apply returns_bind; intros content.
    destruct (jsonMatch content); [ | apply returns_throw ].
    do 2 (apply returns_bind; intros ?).
    apply returns_ret. simpl. auto.
  - unfold Coder.coderBody. apply returns_bind; intros sd.
    apply returns_bind; intros content.
    destruct (jsonMatch content); [ | apply returns_throw ].
    do 3 (apply returns_bind; intros ?).
    apply returns_ret. simpl. repeat split; discriminate.
  - unfold QA.qaBody, QA.require_generatedCode.
    destruct (generatedCode st) as [g | ] eqn:Hg;
      [ | apply returns_bind_liftR; intros ? ?; discriminate ].
    apply returns_bind; intros generated.
    destruct (String.eqb _ _); [ apply returns_throw | ].
    do 4 (apply returns_bind; intros ?).
    destruct (jsonMatch _) as [json | ]; [ | apply returns_throw ].
    apply returns_bind; intros answer.
    destruct (negb _); [ apply returns_throw | ].
    destruct (QA.isNaN _); [ apply returns_throw | ].
    apply returns_bind; intros now. apply returns_ret.
    split; [ congruence | ]. eexists _, _. reflexivity.
Qed.

Lemma stage_spec (n : Node.t) (st : AgentState) :
  returns (stage n st) (node_spec n st).
Proof.
  rewrite stage_unfold. apply returns_tryCatch.
  - eapply hoare_conseq; [ apply body_returns | auto | | auto ].
    intros u s H. left. exact H.
  - intros e. apply returns_bind; intros now. apply returns_ret.
    right. eexists. split; [ | reflexivity ]. reflexivity.
Qed.

(** A node never throws: its [catch] block returns. *)
Lemma stage_total (n : Node.t) (st : AgentState) (m : MState) :
  exists u m', stage n st m = (Ok u, m').
Proof.
  rewrite stage_unfold. unfold tryCatch.
  destruct (body n st m) as [[u | e] m1]; [ eauto | ].
  unfold bind, timestamp, ret. eauto.
Qed.

End Nodes.

Section OrchRules.
Context `{RT : Runtime}.

Lemma hoare_assign (P Q : Graph.OrchState -> Prop) E f :
  (forall s, P s -> Q (step_assign f s)) ->
  hoare P (Graph.assign f) (fun _ => Q) E.
Proof. intros H s Hs. simpl. apply H. exact Hs. Qed.

Lemma hoare_persist (P Q : Graph.OrchState -> Prop) E :
  (forall s, P s -> Q (step_persist s)) ->
  hoare P Graph.persist (fun _ => Q) E.
Proof. intros H s Hs. simpl. apply H. exact Hs. Qed.

Lemma hoare_current {A : Type} (P : Graph.OrchState -> Prop) (k : AgentState -> Graph.Orch A)
  Q E :
  (forall c, hoare (fun s => P s /\ Graph.currentState s = c) (k c) Q E) ->
  hoare P (bind Graph.current k) Q E.
Proof.
  intros H s Hs. unfold bind, Graph.current.
  apply (H (Graph.currentState s) s). auto.
Qed.

Lemma hoare_now {A : Type} (P : Graph.OrchState -> Prop) (k : string -> Graph.Orch A) Q E :
  (forall t, hoare P (k t) Q E) -> hoare P (bind Graph.now k) Q E.
Proof. intros H s Hs. unfold bind, Graph.now. apply (H _ s Hs). Qed.

(** [await]: the node returns an update that meets its specification. *)
Lemma hoare_await (n : Node.t) (P : Graph.OrchState -> Prop)
  (Q : Partial -> Graph.OrchState -> Prop) E :
  (forall s u m, P s -> node_spec n (Graph.currentState s) u ->
                 Q u (step_called n (Ok u) m s)) ->
  hoare P (Graph.await n (stage n)) Q E.
Proof.
  intros H s Hs. unfold Graph.await.
  destruct (stage_total n (Graph.currentState s) (Graph.mstate s)) as [u [m Hrun]].
  rewrite Hrun. apply (H s u m Hs).
  exact (returns_elim _ _ _ _ _ (stage_spec n (Graph.currentState s)) Hrun).
Qed.

End OrchRules.

Section RetryBound.
Context `{RT : Runtime}.

Lemma persisted_app (a b : list Graph.TraceEvent) :
  Graph.persisted (a ++ b) = Graph.persisted a ++ Graph.persisted b.
Proof.
  induction a as [ | [st | n st r] a IH]; simpl; [ reflexivity | | ]; now rewrite IH.
Qed.

Lemma invocations_app (n : Node.t) (a b : list Graph.TraceEvent) :
  Graph.invocations n (a ++ b) = Graph.invocations n a + Graph.invocations n b.
Proof.
  induction a as [ | [st | n' st r] a IH]; simpl; [ reflexivity | | ]; rewrite IH; lia.
Qed.

Lemma hoare_block {A : Type} (I I' : Graph.OrchState -> Prop) f (n : Node.t)
  (tail : Graph.Orch A) Q E :
  (forall s, I s -> I (step_assign f s)) ->
  (forall s, I s -> I (step_persist s)) ->
  (forall s u m, I s -> node_spec n (Graph.currentState s) u ->
                 I' (step_assign (fun c => merge c u) (step_called n (Ok u) m s))) ->
  hoare I' tail Q E ->
  hoare I
    (bind (Graph.assign f)
       (fun _ => bind Graph.persist
          (fun _ => bind (Graph.await n (stage n))
             (fun r => bind (Graph.assign (fun c => merge c r)) (fun _ => tail)))))
    Q E.
Proof.
  intros Hassign Hpersist Hcall Htail.
  apply hoare_bind with (R := fun _ => I); [ now apply hoare_assign | intros _ ].
  apply hoare_bind with (R := fun _ => I); [ now apply hoare_persist | intros _ ].
  apply hoare_bind with
    (R := fun u s => exists s0 m, I s0 /\ node_spec n (Graph.currentState s0) u
                                  /\ s = step_called n (Ok u) m s0).
  { apply hoare_await. intros s u m Hs Hu. eauto. }
  intros u.
  apply hoare_bind with (R := fun _ => I'); [ | intros _; exact Htail ].
  apply hoare_assign. intros s [s0 [m [Hs0 [Hu ->]]]]. now apply Hcall.
Qed.

Lemma hoare_pure {A : Type} (F : Prop) (P : Graph.OrchState -> Prop) (c : Graph.Orch A) Q E :
  (forall s, P s -> F) -> (F -> hoare P c Q E) -> hoare P c Q E.
Proof. intros HF H s Hs. apply (H (HF s Hs) s Hs). Qed.

Lemma node_spec_retry (n : Node.t) (st : AgentState) (u : Partial) :
  node_spec n st u ->
  match p_retryCount u with
  | Some r => r <= maxRetries st
  | None => True
  end.
Proof.
  intros [Hbody | [entry [_ ->]]]; [ | exact I ].
  destruct n; cbn [body_shape] in Hbody.
  - destruct Hbody as [_ [-> _]]. exact I.
  - destruct Hbody as [_ [-> _]]. exact I.
  - destruct Hbody as [_ [-> _]]. exact I.
  - destruct Hbody as [_ [r [now ->]]]. unfold QA.decideNextStep.
    destruct (passed r); simpl; [ exact I | ].
    destruct (retryCount st <? maxRetries st) eqn:Hlt; simpl; [ | exact I ].
    apply Nat.ltb_lt in Hlt. lia.
Qed.

Lemma Bounded_weaken maxR k k' s : k <= k' -> Bounded maxR k s -> Bounded maxR k' s.
Proof. intros Hk [H1 [H2 [H3 H4]]]. repeat split; auto. lia. Qed.

Lemma Bounded_stage maxR k st n s :
  Bounded maxR k s -> Bounded maxR k (step_assign (fun c => Graph.with_stage c st n) s).
Proof. intros H. exact H. Qed.

Lemma Bounded_persist maxR k s : Bounded maxR k s -> Bounded maxR k (step_persist s).
Proof.
  intros [H1 [H2 [H3 H4]]]. unfold Bounded, step_persist; simpl.
  rewrite persisted_app, invocations_app; simpl.
  repeat split; auto; [ | lia ].
  apply Forall_app. split; [ exact H3 | ]. constructor; [ | constructor ].
  unfold retry_ok. lia.
Qed.

Lemma Bounded_called maxR k n u m s :
  Bounded maxR k s -> node_spec n (Graph.currentState s) u ->
  Bounded maxR (k + (if Node.eqb Node.coder n then 1 else 0))
    (step_assign (fun c => merge c u) (step_called n (Ok u) m s)).
Proof.
  intros [H1 [H2 [H3 H4]]] Hu. apply node_spec_retry in Hu.
  unfold Bounded, step_assign, step_called; simpl.
  rewrite persisted_app, invocations_app; simpl. rewrite app_nil_r.
  repeat split; auto; [ | lia ].
  destruct (p_retryCount u); simpl; lia.
Qed.

Lemma Bounded_retry maxR k l s :
  l <= maxR ->
  Bounded maxR k s -> Bounded maxR k (step_assign (fun c => Graph.with_retry c l) s).
Proof. intros Hl [H1 [H2 [H3 H4]]]. repeat split; auto. Qed.

Lemma retryBody_bounded maxR k l E :
  l <= maxR ->
  hoare (Bounded maxR k) (Graph.retryBody l) (fun _ => Bounded maxR (k + 1)) E.
Proof.
  intros Hl. unfold Graph.retryBody.
  apply (hoare_block (Bounded maxR k) (Bounded maxR (k + 1)) _ Node.coder).
  - intros s. now apply Bounded_retry.
  - apply Bounded_persist.
  - intros s u m Hs Hu. exact (Bounded_called maxR k Node.coder u m s Hs Hu).
  - apply hoare_bind with (R := fun _ => Bounded maxR (k + 1));
      [ apply hoare_persist, Bounded_persist | intros _ ].
    apply hoare_current. intros c.
    eapply hoare_pre; [ | intros s [Hs _]; exact Hs ].
    destruct (Status.eqb (status c) Status.qa); [ | apply hoare_ret; auto ].
    apply (hoare_block (Bounded maxR (k + 1)) (Bounded maxR (k + 1)) _ Node.qa).
    + intros s. apply Bounded_stage.
    + apply Bounded_persist.
    + intros s u m Hs Hu.
      eapply Bounded_weaken; [ | exact (Bounded_called maxR (k + 1) Node.qa u m s Hs Hu) ].
      simpl. lia.
    + apply hoare_persist, Bounded_persist.
Qed.

Lemma retryLoop_bounded maxR E (fuel : nat) :
  forall l, l <= maxR ->
    hoare (Bounded maxR (1 + l)) (Graph.retryLoop fuel l) (fun _ => Bounded maxR (1 + maxR)) E.
Proof.
  induction fuel as [ | fuel IH]; intros l Hl; cbn [Graph.retryLoop];
    apply hoare_current; intros c;
    apply (hoare_pure (maxRetries c = maxR));
    try (intros s [[H _] <-]; exact H); intros HmaxR;
    (eapply hoare_pre; [ | intros s [Hs _]; exact Hs ]);
    destruct (Status.eqb (status c) Status.coding && (retryCount c <? maxRetries c)
              && (l <? maxRetries c)) eqn:Hcond;
    try (apply hoare_ret; intros s; apply Bounded_weaken; lia).
  apply andb_prop in Hcond. destruct Hcond as [_ Hlt]. apply Nat.ltb_lt in Hlt.
  apply hoare_bind with (R := fun _ => Bounded maxR (1 + (l + 1))).
  - replace (1 + (l + 1)) with (1 + l + 1) by lia. apply retryBody_bounded. lia.
  - intros _. apply IH. lia.
Qed.

Lemma tryBlock_bounded maxR E :
  hoare (Bounded maxR 0) Graph.tryBlock (fun _ => Bounded maxR (1 + maxR)) E.
Proof.
  unfold Graph.tryBlock.
  apply (hoare_block (Bounded maxR 0) (Bounded maxR 0) _ Node.scout);
    [ intros s; apply Bounded_stage | apply Bounded_persist
    | intros s u m Hs Hu;
      eapply Bounded_weaken; [ | exact (Bounded_called maxR 0 Node.scout u m s Hs Hu) ];
      simpl; lia
    | ].
  apply hoare_bind with (R := fun _ => Bounded maxR 0);
    [ apply hoare_persist, Bounded_persist | intros _ ].
  apply (hoare_block (Bounded maxR 0) (Bounded maxR 0) _ Node.architect);
    [ intros s; apply Bounded_stage | apply Bounded_persist
    | intros s u m Hs Hu;
      eapply Bounded_weaken; [ | exact (Bounded_called maxR 0 Node.architect u m s Hs Hu) ];
      simpl; lia
    | ].
  apply hoare_bind with (R := fun _ => Bounded maxR 0);
    [ apply hoare_persist, Bounded_persist | intros _ ].
  apply (hoare_block (Bounded maxR 0) (Bounded maxR 1) _ Node.coder);
    [ intros s; apply Bounded_stage | apply Bounded_persist
    | intros s u m Hs Hu; exact (Bounded_called maxR 0 Node.coder u m s Hs Hu)
    | ].
  apply hoare_bind with (R := fun _ => Bounded maxR 1);
    [ apply hoare_persist, Bounded_persist | intros _ ].
  apply (hoare_block (Bounded maxR 1) (Bounded maxR 1) _ Node.qa);
    [ intros s; apply Bounded_stage | apply Bounded_persist
    | intros s u m Hs Hu;
      eapply Bounded_weaken; [ | exact (Bounded_called maxR 1 Node.qa u m s Hs Hu) ];
      simpl; lia
    | ].
  apply hoare_bind with (R := fun _ => Bounded maxR 1);
    [ apply hoare_persist, Bounded_persist | intros _ ].
  apply hoare_current. intros c.
  eapply hoare_pre; [ | intros s [Hs _]; exact Hs ].
  apply hoare_bind with (R := fun _ => Bounded maxR (1 + maxR)).
  { apply (retryLoop_bounded maxR E (maxRetries c) 0). lia. }
  intros _. apply hoare_current. intros c'.
  eapply hoare_pre; [ | intros s [Hs _]; exact Hs ].
  destruct (negb (Status.eqb (status c') Status.failed)); [ | apply hoare_ret; auto ].
  apply hoare_now. intros t. apply hoare_assign. intros s Hs. exact Hs.
Qed.

Lemma catchBlock_bounded maxR k error E :
  hoare (Bounded maxR k) (Graph.catchBlock error) (fun _ => Bounded maxR k) E.
Proof.
  unfold Graph.catchBlock. apply hoare_now. intros t.
  apply hoare_bind with (R := fun _ => Bounded maxR k).
  - apply hoare_assign. intros s Hs. exact Hs.
  - intros _. apply hoare_persist, Bounded_persist.
Qed.

Lemma runFrom_bounded (initial : AgentState) (m : MState) :
  retry_ok initial ->
  Bounded (maxRetries initial) (1 + maxRetries initial) (Graph.runFrom initial m).
Proof.
  intros Hinit. unfold Graph.runFrom.
  set (maxR := maxRetries initial).
  assert (H : hoare (fun s => s = Graph.mkOrchState m [] initial)
                (bind (Graph.updateRedisState initial)
                   (fun _ => bind (tryCatch Graph.tryBlock Graph.catchBlock)
                                  (fun _ => Graph.persist)))
                (fun _ => Bounded maxR (1 + maxR)) (Bounded maxR (1 + maxR))).
  { apply hoare_bind with (R := fun _ => Bounded maxR 0).
    - intros s ->. simpl. repeat split; auto.
      constructor; [ exact Hinit | constructor ].
    - intros _. apply hoare_bind with (R := fun _ => Bounded maxR (1 + maxR)).
      + apply hoare_tryCatch with (E' := Bounded maxR (1 + maxR)).
        * apply tryBlock_bounded.
        * intros e. apply catchBlock_bounded.
      + intros _. apply hoare_persist, Bounded_persist. }
  specialize (H _ eq_refl).
  destruct (bind _ _ _) as [[a | e] s']; exact H.
Qed.

(** C1.  For every job run by the orchestrator, [retryCount] never exceeds
    [maxRetries]: not in any state written to the store during the run, and
    not in the state returned; and the coder is invoked at most
    [maxRetries + 1] times in all, the initial attempt included. *)
Theorem retry_bound (url : string) (userInstructions jobId : option string) (m : MState) :
  Forall (fun st => retryCount st <= maxRetries st)
    (Graph.persisted (Graph.trace (Graph.runAgent url userInstructions jobId m)))
  /\ retryCount (Graph.currentState (Graph.runAgent url userInstructions jobId m))
     <= maxRetries (Graph.currentState (Graph.runAgent url userInstructions jobId m))
  /\ Graph.invocations Node.coder (Graph.trace (Graph.runAgent url userInstructions jobId m))
     <= maxRetries (Graph.currentState (Graph.runAgent url userInstructions jobId m)) + 1.
Proof.
  unfold Graph.runAgent.
  destruct (runFrom_bounded (Graph.initialState url userInstructions jobId (world m)) m)
    as [H1 [H2 [H3 H4]]].
  { unfold retry_ok; simpl. lia. }
  rewrite H1. repeat split; auto; lia.
Qed.
End RetryBound.

(* ===================================================================== *)
(** * The orchestrator: fuel of the retry loop, failed coder attempts   *)
(* ===================================================================== *)

Section Fuel.
Context `{RT : Runtime}.

Lemma retryLoop_unfold (fuel l : nat) (s : Graph.OrchState) :
  Graph.retryLoop fuel l s
  = if retryTest l (Graph.currentState s) then
      match fuel with
      | 0 => (Ok tt, s)
      | S fuel' =>
          bind (Graph.retryBody (l + 1)) (fun _ => Graph.retryLoop fuel' (l + 1)) s
      end
    else (Ok tt, s).
Proof.
  unfold retryTest. destruct fuel; cbn [Graph.retryLoop]; unfold bind at 1, Graph.current;
    destruct (_ && _ && _); reflexivity.
Qed.

Lemma retryBody_maxRetries (l : nat) (s : Graph.OrchState) :
  maxRetries (Graph.currentState (snd (Graph.retryBody l s)))
  = maxRetries (Graph.currentState s).
Proof.
  set (I := fun s' : Graph.OrchState => maxRetries (Graph.currentState s')
                                       = maxRetries (Graph.currentState s)).
  assert (H : hoare I (Graph.retryBody l) (fun _ => I) I).
  { unfold Graph.retryBody.
    apply (hoare_block I I _ Node.coder);
      [ intros; assumption | intros; assumption | intros; assumption | ].
    apply hoare_bind with (R := fun _ => I); [ now apply hoare_persist | intros _ ].
    apply hoare_current. intros c.
    eapply hoare_pre; [ | intros s' [Hs' _]; exact Hs' ].
    destruct (Status.eqb (status c) Status.qa); [ | apply hoare_ret; auto ].
    apply (hoare_block I I _ Node.qa);
      [ intros; assumption | intros; assumption | intros; assumption | ].
    now apply hoare_persist. }
  specialize (H s eq_refl). destruct (Graph.retryBody l s) as [[a | e] s']; exact H.
Qed.

(** The retry loop never stops for want of fuel: once the fuel covers
    [maxRetries - retryCount] turns, more fuel changes nothing. *)
Lemma retryLoop_fuel_step (fuel : nat) :
  forall l s,
    maxRetries (Graph.currentState s) - l <= fuel ->
    Graph.retryLoop (S fuel) l s = Graph.retryLoop fuel l s.
Proof.
  induction fuel as [ | fuel IH]; intros l s Hfuel;
    rewrite (retryLoop_unfold (S _)), (retryLoop_unfold _ l s);
    destruct (retryTest l (Graph.currentState s)) eqn:Htest; try reflexivity.
  - unfold retryTest in Htest. apply andb_prop in Htest. destruct Htest as [_ Hlt].
    apply Nat.ltb_lt in Hlt. lia.
  - unfold retryTest in Htest. apply andb_prop in Htest. destruct Htest as [_ Hlt].
    apply Nat.ltb_lt in Hlt.
    unfold bind. pose proof (retryBody_maxRetries (l + 1) s) as Hmax.
    destruct (Graph.retryBody (l + 1) s) as [[[] | e] s1]; [ | reflexivity ].
    simpl in Hmax. apply IH. lia.
Qed.

Lemma retryLoop_fuel (extra l : nat) (s : Graph.OrchState) :
  Graph.retryLoop (maxRetries (Graph.currentState s) - l + extra) l s
  = Graph.retryLoop (maxRetries (Graph.currentState s) - l) l s.
Proof.
  induction extra as [ | extra IH]; [ now rewrite Nat.add_0_r | ].
  rewrite Nat.add_succ_r, retryLoop_fuel_step by lia. exact IH.
Qed.

Lemma retryLoop_exit (fuel l : nat) (s : Graph.OrchState) :
  retryTest l (Graph.currentState s) = false -> Graph.retryLoop fuel l s = (Ok tt, s).
Proof. intros H. rewrite retryLoop_unfold, H. reflexivity. Qed.

End Fuel.

Section CoderFailure.
Context `{RT : Runtime}.
















End CoderFailure.

(* ===================================================================== *)
(** * The orchestrator after a failed stage                              *)
(* ===================================================================== *)

Section ParseFailure.
Context `{RT : Runtime}.



End ParseFailure.

Section ScoutFailure.
Context `{RT : Runtime}.

Lemma scoutNode_throws (st : AgentState) (m : MState) (e : JsError) (w : World) :
  playwright_extract (url st) (jobId st) (world m) = (Throw e, w) ->
  Scout.scoutNode st m
  = (Ok (failure st {| e_node := "scout"; e_error := err_message e;
                       e_timestamp := toISOString w |}),
     mkMState w (journal m)).
Proof.
  intros H. unfold Scout.scoutNode, Scout.scoutBody, tryCatch, bind, perform.
  rewrite H. reflexivity.
Qed.

Lemma architectNode_without_snapshot (st : AgentState) (m : MState) :
  scoutData st = None ->
  Architect.architectNode st m
  = (Ok (failure st {| e_node := "architect";
                       e_error := "Cannot read properties of undefined (reading 'url')";
                       e_timestamp := toISOString (world m) |}),
     m).
Proof.
  intros H. unfold Architect.architectNode, Architect.architectBody,
    Architect.require_scoutData.
  rewrite H, bind_liftR_Throw. reflexivity.
Qed.

Lemma coderNode_without_snapshot (st : AgentState) (m : MState) :
  scoutData st = None ->
  Coder.coderNode st m
  = (Ok (failure st {| e_node := "coder";
                       e_error := "Cannot read properties of undefined (reading 'assets')";
                       e_timestamp := toISOString (world m) |}),
     m).
Proof.
  intros H. unfold Coder.coderNode, Coder.coderBody, Coder.require_scoutData.
  rewrite H. cbv zeta. rewrite bind_liftR_Throw. reflexivity.
Qed.

Lemma qaNode_without_code (st : AgentState) (m : MState) :
  generatedCode st = None ->
  QA.qaNode st m
  = (Ok (failure st {| e_node := "qa";
                       e_error := "Cannot read properties of undefined (reading 'files')";
                       e_timestamp := toISOString (world m) |}),
     m).
Proof.
  intros H. unfold QA.qaNode, QA.qaBody, QA.require_generatedCode.
  rewrite H, bind_liftR_Throw. reflexivity.
Qed.

(** One stage of the orchestrator, run: set the stage, write, invoke the
    node, merge its update. *)
Lemma run_block {A : Type} f (n : Node.t) (tail : Graph.Orch A) (s : Graph.OrchState)
  (u : Partial) (m : MState) :
  stage n (f (Graph.currentState s)) (Graph.mstate s) = (Ok u, m) ->
  bind (Graph.assign f)
    (fun _ => bind Graph.persist
       (fun _ => bind (Graph.await n (stage n))
          (fun r => bind (Graph.assign (fun c => merge c r)) (fun _ => tail)))) s
  = tail (step_assign (fun c => merge c u)
            (step_called n (Ok u) m (step_persist (step_assign f s)))).
Proof.
  intros H. unfold bind, Graph.assign, Graph.persist, Graph.current, Graph.await,
    Graph.updateRedisState. simpl. rewrite H. reflexivity.
Qed.

Lemma run_persist {A : Type} (tail : Graph.Orch A) (s : Graph.OrchState) :
  bind Graph.persist (fun _ => tail) s = tail (step_persist s).
Proof. reflexivity. Qed.

(** The run when the browser session of the scout throws. *)
Lemma runFrom_scout_failure (initial : AgentState) (m : MState) (e : JsError) (w : World) :
  scoutData initial = None -> generatedCode initial = None ->
  playwright_extract (url initial) (jobId initial) (world m) = (Throw e, w) ->
  status (Graph.currentState (Graph.runFrom initial m)) = Status.failed
  /\ map e_node (errors (Graph.currentState (Graph.runFrom initial m)))
     = map e_node (errors initial) ++ ["scout"; "architect"; "coder"; "qa"]
  /\ decisionLog (Graph.currentState (Graph.runFrom initial m)) = decisionLog initial
  /\ Graph.calledNodes (Graph.trace (Graph.runFrom initial m))
     = [Node.scout; Node.architect; Node.coder; Node.qa].
Proof.
  intros Hsd Hcode Hthrow.
  assert (Hrun : exists final, Graph.runFrom initial m = final
                               /\ status (Graph.currentState final) = Status.failed
                               /\ map e_node (errors (Graph.currentState final))
                                  = map e_node (errors initial)
                                    ++ ["scout"; "architect"; "coder"; "qa"]
                               /\ decisionLog (Graph.currentState final) = decisionLog initial
                               /\ Graph.calledNodes (Graph.trace final)
                                  = [Node.scout; Node.architect; Node.coder; Node.qa]).
  { eexists. split.
    - unfold Graph.runFrom. unfold bind at 1. cbn [Graph.updateRedisState].
      unfold bind at 1. unfold tryCatch, Graph.tryBlock.
      change Scout.scoutNode with (stage Node.scout).
      change Architect.architectNode with (stage Node.architect).
      change Coder.coderNode with (stage Node.coder).
      change QA.qaNode with (stage Node.qa).
      erewrite run_block by (apply scoutNode_throws; exact Hthrow).
      rewrite run_persist.
      erewrite run_block by (apply architectNode_without_snapshot; exact Hsd).
      rewrite run_persist.
      erewrite run_block by (apply coderNode_without_snapshot; exact Hsd).
      rewrite run_persist.
      erewrite run_block by (apply qaNode_without_code; exact Hcode).
      rewrite run_persist.
      unfold bind at 1. cbn [Graph.current].
      unfold bind at 1. rewrite retryLoop_exit by reflexivity.
      cbn. reflexivity.
    - cbn. rewrite !map_app. cbn. rewrite <- !app_assoc. auto. }
  destruct Hrun as [final [-> H]]. exact H.
Qed.

(** C3 (the code at a failing extraction).  When the browser session of
    the scout throws, the orchestrator does not stop: the architect, the coder
    and the validator are each invoked on the failed state and fail in turn.
    The job ends [failed] with an empty decision log, but with four error
    entries -- scout, architect, coder, qa -- not one. *)
Theorem scout_failure_runs_every_stage (url : string) (userInstructions jobId : option string)
  (m : MState) (e : JsError) (w : World) :
  playwright_extract url (or_default jobId (fresh_job_id (world m))) (world m) = (Throw e, w) ->
  status (Graph.currentState (Graph.runAgent url userInstructions jobId m)) = Status.failed
  /\ map e_node (errors (Graph.currentState (Graph.runAgent url userInstructions jobId m)))
     = ["scout"; "architect"; "coder"; "qa"]
  /\ decisionLog (Graph.currentState (Graph.runAgent url userInstructions jobId m)) = []
  /\ Graph.calledNodes (Graph.trace (Graph.runAgent url userInstructions jobId m))
     = [Node.scout; Node.architect; Node.coder; Node.qa].
Proof.
  intros Hthrow. unfold Graph.runAgent.
  apply (runFrom_scout_failure
           (Graph.initialState url userInstructions jobId (world m)) m e w eq_refl eq_refl).
  exact Hthrow.
Qed.

End ScoutFailure.




(** The failing extraction at a concrete run. *)
Lemma scout_failure_runs_every_stage_witness :
  status (Graph.currentState (Scripted.job Scripted.unreachable)) = Status.failed
  /\ map e_node (errors (Graph.currentState (Scripted.job Scripted.unreachable)))
     = ["scout"; "architect"; "coder"; "qa"]
  /\ decisionLog (Graph.currentState (Scripted.job Scripted.unreachable)) = []
  /\ Graph.calledNodes (Graph.trace (Scripted.job Scripted.unreachable))
     = [Node.scout; Node.architect; Node.coder; Node.qa].
Proof.
  apply (@scout_failure_runs_every_stage Scripted.runtime "https://example.com" None
           (Some "job-1") (Scripted.begin Scripted.unreachable)
           (Error "net::ERR_NAME_NOT_RESOLVED") Scripted.unreachable).
  reflexivity.
Defined.

(** C4 (the code at a failing coder attempt).  When the first coder attempt
    fails, the orchestrator still sets the status to [qa]: a state with
    status [qa] and no generated code is written to the store.  And when the
    model names its entry file [src/App.tsx], the [App.tsx] that the coder
    installs holds the file's name, not its source. *)
Theorem qa_status_without_generated_code :
  existsb qa_without_code
    (Graph.persisted (Graph.trace (Scripted.job Scripted.coder_garbage))) = true
  /\ (exists update,
         fst (Coder.coderNode Scripted.planned
                (Scripted.begin (Scripted.mkScript (Ok Scripted.page) [Ok "{src}"])))
         = Ok update
         /\ p_status update = Some Status.qa
         /\ option_map files (p_generatedCode update)
            = Some [("src/App.tsx", "export default function App() {}");
                    ("App.tsx", "src/App.tsx")]).
Proof.
  split; [ vm_compute; reflexivity | ].
  eexists. split; [ vm_compute; reflexivity | ]. split; reflexivity.
Qed.

(** C9 (the code over a job with two retries).  The job produces three
    validation results, scoring 72, 80 and 95, and a stream that polls every
    state written to the store sees each of them; it emits the metrics and
    the issues of the first one only. *)
Theorem retry_results_not_streamed :
  map qaScore (attemptHistory (Graph.currentState (Scripted.job Scripted.two_retries)))
  = [72%float; 80%float]
  /\ option_map score (qaResult (Graph.currentState (Scripted.job Scripted.two_retries)))
     = Some 95%float
  /\ Stream.metricsEvents (Stream.stream (Scripted.ticks Scripted.two_retries))
     = [Stream.qa_metrics 72 (mkMetrics 72 72 72 72) false]
  /\ Stream.issueEvents (Stream.stream (Scripted.ticks Scripted.two_retries))
     = [Stream.qa_issue "Footer positioned incorrectly"
          (Some "Use sticky bottom positioning") "major"].
Proof. vm_compute. repeat split. Qed.

(* ===================================================================== *)
(** * Extraction of the JSON object ([jsonMatch])                     *)
(* ===================================================================== *)

Section JsonMatch.

Lemma prefix_char (c a : ascii) (s : string) :
  String.prefix (String c "") (String a s) = Ascii.eqb c a.
Proof.
  simpl. destruct (ascii_dec c a) as [-> | Hne].
  - rewrite Ascii.eqb_refl. now destruct s.
  - symmetry. now apply Ascii.eqb_neq.
Qed.

Lemma index_char_app (c : ascii) (pre rest : string) :
  lacks c pre = true ->
  String.index 0 (String c "") (pre ++ String c rest)%string = Some (String.length pre).
Proof.
  induction pre as [ | a pre IH]; intros H.
  - cbn [append String.length String.index]. now rewrite prefix_char, Ascii.eqb_refl.
  - cbn [lacks all_chars] in H. apply andb_prop in H. destruct H as [Ha Hpre].
    apply negb_true_iff in Ha.
    cbn [append String.length String.index]. rewrite prefix_char.
    rewrite Ascii.eqb_sym, Ha. now rewrite (IH Hpre).
Qed.

Lemma last_index_lacks (c : ascii) (s : string) :
  lacks c s = true -> last_index c s = None.
Proof.
  induction s as [ | a s IH]; intros H; [ reflexivity | ].
  cbn [lacks all_chars] in H. apply andb_prop in H. destruct H as [Ha Hs].
  apply negb_true_iff in Ha. cbn [last_index]. rewrite (IH Hs), Ha. reflexivity.
Qed.

Lemma last_index_app (c : ascii) (s post : string) :
  lacks c post = true ->
  last_index c (s ++ String c post)%string = Some (String.length s).
Proof.
  intros H. induction s as [ | a s IH].
  - cbn [append String.length last_index]. rewrite (last_index_lacks _ _ H).
    now rewrite Ascii.eqb_refl.
  - cbn [append String.length last_index]. now rewrite IH.
Qed.

Lemma substring_app (a b c : string) :
  String.substring (String.length a) (String.length b) (a ++ b ++ c)%string = b.
Proof.
  induction a as [ | x a IH]; cbn [append String.length].
  - induction b as [ | y b IHb]; cbn [append String.length].
    + now destruct c.
    + cbn [String.substring]. now rewrite IHb.
  - cbn [String.substring]. exact IH.
Qed.

Lemma string_length_app (a b : string) :
  String.length (a ++ b)%string = String.length a + String.length b.
Proof. induction a as [ | x a IH]; simpl; [ reflexivity | now rewrite IH ]. Qed.

Lemma string_app_assoc (a b c : string) : ((a ++ b) ++ c = a ++ (b ++ c))%string.
Proof. induction a as [ | x a IH]; simpl; [ reflexivity | now rewrite IH ]. Qed.

Lemma jsonMatch_app (pre body post : string) :
  lacks "{" pre = true -> lacks "}" post = true ->
  jsonMatch (pre ++ "{" ++ body ++ "}" ++ post)%string = Some ("{" ++ body ++ "}")%string.
Proof.
  intros Hpre Hpost. unfold jsonMatch.
  change ("{" ++ body ++ "}" ++ post)%string with (String "{" (body ++ String "}" post))%string.
  rewrite (index_char_app "{" pre _ Hpre).
  replace (pre ++ String "{" (body ++ String "}" post))%string
    with ((pre ++ String "{" body) ++ String "}" post)%string
    by (rewrite string_app_assoc; reflexivity).
  rewrite (last_index_app "}" _ post Hpost).
  rewrite string_length_app. cbn [String.length].
  replace (String.length pre <? String.length pre + S (String.length body)) with true
    by (symmetry; apply Nat.ltb_lt; lia).
  f_equal.
  replace (String.length pre + S (String.length body) - String.length pre + 1)
    with (String.length (String "{" (body ++ "}"))%string)
    by (cbn [String.length]; rewrite string_length_app; simpl; lia).
  rewrite string_app_assoc. cbn [append].
  replace (String "{" (body ++ String "}" post))%string
    with (String "{" (body ++ "}") ++ post)%string
    by (cbn [append]; rewrite string_app_assoc; reflexivity).
  apply substring_app.
Qed.

Lemma lacks_app_char (c : ascii) (a r : string) : lacks c (a ++ String c r)%string = false.
Proof.
  induction a as [ | x a IH]; cbn [append lacks all_chars].
  - now rewrite Ascii.eqb_refl.
  - fold (lacks c (a ++ String c r)%string). rewrite IH. apply andb_false_r.
Qed.

Lemma index_char_inv (c : ascii) (s : string) :
  match String.index 0 (String c "") s with
  | Some i => exists pre rest,
                s = (pre ++ String c rest)%string /\ lacks c pre = true /\ String.length pre = i
  | None => lacks c s = true
  end.
Proof.
  induction s as [ | a s IH]; [ reflexivity | ].
  cbn [String.index]. rewrite prefix_char.
  destruct (Ascii.eqb c a) eqn:Hca.
  - apply Ascii.eqb_eq in Hca. subst a. exists "", s. auto.
  - destruct (String.index 0 (String c "") s) as [i | ].
    + destruct IH as [pre [rest [-> [Hpre <-]]]].
      exists (String a pre), rest. repeat split.
      cbn [lacks all_chars]. rewrite Ascii.eqb_sym, Hca. exact Hpre.
    + cbn [lacks all_chars]. rewrite Ascii.eqb_sym, Hca. exact IH.
Qed.

Lemma last_index_inv (c : ascii) (s : string) :
  match last_index c s with
  | Some j => exists s1 post,
                s = (s1 ++ String c post)%string /\ lacks c post = true /\ String.length s1 = j
  | None => lacks c s = true
  end.
Proof.
  induction s as [ | a s IH]; [ reflexivity | ].
  cbn [last_index]. destruct (last_index c s) as [j | ].
  - destruct IH as [s1 [post [-> [Hpost <-]]]].
    exists (String a s1), post. auto.
  - destruct (Ascii.eqb a c) eqn:Hac.
    + apply Ascii.eqb_eq in Hac. subst a. exists "", s. auto.
    + cbn [lacks all_chars]. rewrite Hac. exact IH.
Qed.

(** Two ways to cut a string at a character: the cut that comes first. *)
Lemma cut_earlier (x y : ascii) (pre rest s1 post : string) :
  (pre ++ String x rest = s1 ++ String y post)%string ->
  String.length pre < String.length s1 ->
  exists body, s1 = (pre ++ String x body)%string /\ rest = (body ++ String y post)%string.
Proof.
  revert s1. induction pre as [ | a pre IH]; intros s1 Heq Hlt.
  - destruct s1 as [ | b s1]; [ simpl in Hlt; lia | ].
    cbn [append] in Heq. injection Heq as -> ->. exists s1. auto.
  - destruct s1 as [ | b s1]; [ simpl in Hlt; lia | ].
    cbn [append] in Heq. injection Heq as -> Heq.
    destruct (IH s1 Heq) as [body [-> ->]]; [ simpl in Hlt; lia | ].
    exists body. auto.
Qed.

Lemma first_cut_le (c : ascii) (pre rest a r : string) :
  (pre ++ String c rest = a ++ String c r)%string -> lacks c pre = true ->
  String.length pre <= String.length a.
Proof.
  revert a. induction pre as [ | x pre IH]; intros a Heq Hpre; [ simpl; lia | ].
  cbn [lacks all_chars] in Hpre. apply andb_prop in Hpre. destruct Hpre as [Hx Hpre].
  destruct a as [ | y a].
  - cbn [append] in Heq. injection Heq as -> _. rewrite Ascii.eqb_refl in Hx. discriminate.
  - cbn [append] in Heq. injection Heq as _ Heq. simpl. apply le_n_S. now apply (IH a).
Qed.

Lemma last_cut_ge (c : ascii) (s1 post a r : string) :
  (s1 ++ String c post = a ++ String c r)%string -> lacks c post = true ->
  String.length a <= String.length s1.
Proof.
  revert a. induction s1 as [ | x s1 IH]; intros a Heq Hpost.
  - destruct a as [ | y a]; [ simpl; lia | ].
    cbn [append] in Heq. injection Heq as _ Heq. rewrite Heq, lacks_app_char in Hpost.
    discriminate.
  - destruct a as [ | y a]; [ simpl; lia | ].
    cbn [append] in Heq. injection Heq as _ Heq. simpl. apply le_n_S. now apply (IH a).
Qed.

Lemma jsonMatch_cut (content json : string) :
  jsonMatch content = Some json ->
  exists pre body post,
    content = (pre ++ json ++ post)%string
    /\ json = ("{" ++ body ++ "}")%string
    /\ lacks "{" pre = true /\ lacks "}" post = true.
Proof.
  intros H. pose proof H as H0. unfold jsonMatch in H0.
  pose proof (index_char_inv "{" content) as Hi.
  pose proof (last_index_inv "}" content) as Hj.
  destruct (String.index 0 "{" content) as [i | ]; [ | discriminate ].
  destruct (last_index "}" content) as [j | ]; [ | discriminate ].
  destruct (i <? j) eqn:Hlt; [ | discriminate ]. apply Nat.ltb_lt in Hlt.
  destruct Hi as [pre [rest [Hc1 [Hpre Hi]]]].
  destruct Hj as [s1 [post [Hc2 [Hpost Hj]]]].
  destruct (cut_earlier "{" "}" pre rest s1 post) as [body [-> ->]];
    [ congruence | lia | ].
  exists pre, body, post.
  assert (Hjson : jsonMatch content = Some ("{" ++ body ++ "}")%string).
  { rewrite Hc1. now apply jsonMatch_app. }
  assert (json = ("{" ++ body ++ "}")%string) by congruence.
  subst json. repeat split; auto.
  rewrite Hc1. cbn [append]. now rewrite string_app_assoc.
Qed.

(** X1.  [content.match(/\{[\s\S]*\}/)] matches exactly the span from the
    first opening brace of the content to its last closing brace: [json]
    is the match iff the content is [pre ++ json ++ post], where [json]
    opens with a brace and closes with one, [pre] holds no opening brace
    and [post] no closing brace.  Whatever the model writes around its JSON
    object is cut off. *)
Theorem jsonMatch_widest_braces (content json : string) :
  jsonMatch content = Some json
  <-> exists pre body post,
        content = (pre ++ json ++ post)%string
        /\ json = ("{" ++ body ++ "}")%string
        /\ lacks "{" pre = true /\ lacks "}" post = true.
Proof.
  split; [ apply jsonMatch_cut | ].
  intros [pre [body [post [-> [-> [Hpre Hpost]]]]]].
  rewrite <- (jsonMatch_app pre body post Hpre Hpost).
  f_equal. cbn [append]. now rewrite !string_app_assoc.
Qed.

(** X2.  The match fails exactly when the content holds no opening brace
    that is followed, somewhere, by a closing brace. *)
Theorem jsonMatch_none_iff (content : string) :
  jsonMatch content = None
  <-> forall a b c, content <> (a ++ "{" ++ b ++ "}" ++ c)%string.
Proof.
  split.
  - intros Hnone a b c Heq. unfold jsonMatch in Hnone.
    pose proof (index_char_inv "{" content) as Hi.
    pose proof (last_index_inv "}" content) as Hj.
    destruct (String.index 0 "{" content) as [i | ].
    + destruct Hi as [pre [rest [Hc1 [Hpre Hi]]]].
      destruct (last_index "}" content) as [j | ].
      * destruct Hj as [s1 [post [Hc2 [Hpost Hj]]]].
        assert (H1 : String.length pre <= String.length a).
        { apply (first_cut_le "{" pre rest a (b ++ "}" ++ c)%string); [ | exact Hpre ].
          rewrite <- Hc1, Heq. reflexivity. }
        assert (H2 : String.length (a ++ "{" ++ b)%string <= String.length s1).
        { apply (last_cut_ge "}" s1 post _ c); [ | exact Hpost ].
          rewrite <- Hc2, Heq. rewrite !string_app_assoc. reflexivity. }
        rewrite string_length_app in H2. simpl in H2.
        replace (i <? j) with true in Hnone; [ discriminate | ].
        symmetry. apply Nat.ltb_lt. lia.
      * rewrite Heq in Hj.
        replace (a ++ "{" ++ b ++ "}" ++ c)%string
          with ((a ++ "{" ++ b) ++ String "}" c)%string in Hj
          by (rewrite !string_app_assoc; reflexivity).
        rewrite lacks_app_char in Hj. discriminate.
    + rewrite Heq in Hi. change ("{" ++ b ++ "}" ++ c)%string
        with (String "{" (b ++ "}" ++ c))%string in Hi.
      rewrite lacks_app_char in Hi. discriminate.
  - intros Hno. destruct (jsonMatch content) as [json | ] eqn:Hm; [ | reflexivity ].
    apply jsonMatch_cut in Hm.
    destruct Hm as [pre [body [post [Hc [-> _]]]]].
    exfalso. apply (Hno pre body post). rewrite Hc.
    cbn [append]. now rewrite !string_app_assoc.
Qed.

End JsonMatch.

(* ===================================================================== *)
(** * The entry file ([coderNode])                                    *)
(* ===================================================================== *)

Section EntryFile.

Lemma assoc_assign_same {A : Type} (k : string) (v : A) (o : list (string * A)) :
  assoc k (assign_key k v o) = Some v.
Proof.
  induction o as [ | [k' v'] o IH]; cbn [assign_key assoc].
  - now rewrite String.eqb_refl.
  - destruct (String.eqb k k') eqn:Hk; cbn [assoc]; rewrite ?String.eqb_refl, ?Hk; auto.
Qed.

Lemma assoc_assign_other {A : Type} (k k' : string) (v : A) (o : list (string * A)) :
  k' <> k -> assoc k' (assign_key k v o) = assoc k' o.
Proof.
  intros Hne. induction o as [ | [k0 v0] o IH]; cbn [assign_key assoc].
  - apply String.eqb_neq in Hne. now rewrite Hne.
  - destruct (String.eqb k k0) eqn:Hk; cbn [assoc].
    + apply String.eqb_eq in Hk. subst k0. apply String.eqb_neq in Hne. now rewrite Hne.
    + now rewrite IH.
Qed.

Lemma keys_assign {A : Type} (k : string) (v : A) (o : list (string * A)) :
  keys (assign_key k v o)
  = match assoc k o with Some _ => keys o | None => keys o ++ [k] end.
Proof.
  unfold keys. induction o as [ | [k0 v0] o IH]; cbn [assign_key assoc map]; [ reflexivity | ].
  destruct (String.eqb k k0) eqn:Hk; cbn [map fst].
  - apply String.eqb_eq in Hk. now subst.
  - rewrite IH. now destruct (assoc k o).
Qed.

Lemma assoc_in_keys {A : Type} (k : string) (o : list (string * A)) :
  In k (keys o) <-> assoc k o <> None.
Proof.
  unfold keys. induction o as [ | [k0 v0] o IH]; cbn [assoc map fst In].
  - split; [ intros [] | congruence ].
  - destruct (String.eqb k k0) eqn:Hk.
    + apply String.eqb_eq in Hk. split; [ discriminate | auto ].
    + apply String.eqb_neq in Hk. rewrite <- IH. split; [ | auto ].
      intros [Heq | Hin]; [ congruence | exact Hin ].
Qed.

Lemma find_first_in {A : Type} (p : A -> bool) (l : list A) (x : A) :
  find_first p l = Some x -> In x l /\ p x = true.
Proof. unfold find_first. apply find_some. Qed.

Lemma truthy_file_in (fs : list (string * string)) (k v : string) :
  Coder.truthy_file fs k = Some v -> assoc k fs = Some v /\ v <> "".
Proof.
  unfold Coder.truthy_file. destruct (assoc k fs) as [x | ]; [ | discriminate ].
  destruct (String.eqb x "") eqn:Hx; [ discriminate | ].
  intros H. injection H as <-. split; [ reflexivity | now apply String.eqb_neq ].
Qed.

(** X3.  When the check for [App.tsx] of [coderNode] does not throw, the
    files it leaves have an [App.tsx] entry; every other entry is what the
    model wrote (the keys keep their order, [App.tsx] is appended when it
    was missing); and files that already hold a non-empty [App.tsx] are
    left as they are. *)
Theorem ensureAppFile_installs_entry (fs fs' : list (string * string)) :
  Coder.ensureAppFile fs = Ok fs' ->
  (exists source, assoc "App.tsx" fs' = Some source)
  /\ (forall key, key <> "App.tsx" -> assoc key fs' = assoc key fs)
  /\ (keys fs' = keys fs \/ keys fs' = keys fs ++ ["App.tsx"])
  /\ (forall source, assoc "App.tsx" fs = Some source -> source <> "" -> fs' = fs).
Proof.
  unfold Coder.ensureAppFile. intros H.
  assert (Hset : forall v, fs' = assign_key "App.tsx" v fs ->
            (exists source, assoc "App.tsx" fs' = Some source)
            /\ (forall key, key <> "App.tsx" -> assoc key fs' = assoc key fs)
            /\ (keys fs' = keys fs \/ keys fs' = keys fs ++ ["App.tsx"])).
  { intros v ->. split; [ | split ].
    - eexists. apply assoc_assign_same.
    - intros key Hk. now apply assoc_assign_other.
    - rewrite keys_assign. destruct (assoc "App.tsx" fs); auto. }
  assert (Hsame : fs' = fs -> assoc "App.tsx" fs <> None ->
            (exists source, assoc "App.tsx" fs' = Some source)
            /\ (forall key, key <> "App.tsx" -> assoc key fs' = assoc key fs)
            /\ (keys fs' = keys fs \/ keys fs' = keys fs ++ ["App.tsx"])).
  { intros -> Hk. destruct (assoc "App.tsx" fs) as [v | ] eqn:Hv; [ | contradiction ].
    split; [ eauto | ]. split; auto. }
  destruct (Coder.appFile fs) as [found | ] eqn:Happ.
  - destruct (assoc "App.tsx" fs) as [current | ] eqn:Hcur.
    + destruct (String.eqb found current) eqn:Hfc; injection H as <-.
      * destruct Hsame as [H1 [H2 H3]]; [ reflexivity | congruence | ].
        rewrite Hcur in *. repeat split; auto.
      * destruct (Hset found eq_refl) as [H1 [H2 H3]]. repeat split; auto.
        intros source Hs Hne. injection Hs as <-.
        unfold Coder.appFile, Coder.truthy_file in Happ. rewrite Hcur in Happ.
        apply String.eqb_neq in Hne. rewrite Hne in Happ. cbn [Coder.or_else] in Happ.
        injection Happ as <-. rewrite String.eqb_refl in Hfc. discriminate.
    + injection H as <-. destruct (Hset found eq_refl) as [H1 [H2 H3]].
      repeat split; auto. discriminate.
  - assert (Hnone : forall source, assoc "App.tsx" fs = Some source -> source <> "" -> False).
    { intros source Hs Hne. unfold Coder.appFile, Coder.truthy_file in Happ.
      rewrite Hs in Happ. apply String.eqb_neq in Hne. rewrite Hne in Happ. discriminate. }
    destruct (Coder.mainFile fs) as [main | ] eqn:Hmain; [ | discriminate ].
    destruct (assoc main fs) as [source | ] eqn:Hsrc.
    + injection H as <-. destruct (Hset source eq_refl) as [H1 [H2 H3]].
      repeat split; auto. intros s Hs Hne. destruct (Hnone s Hs Hne).
    + apply find_first_in in Hmain. destruct Hmain as [Hin _].
      apply assoc_in_keys in Hin. contradiction.
Qed.

Lemma substring_prefix (a b : string) :
  forall (s : string) (m : nat),
    String.substring m (String.length (a ++ b)%string) s = (a ++ b)%string ->
    String.substring m (String.length a) s = a.
Proof.
  assert (H0 : forall a s, String.substring 0 (String.length (a ++ b)%string) s = (a ++ b)%string ->
                           String.substring 0 (String.length a) s = a).
  { clear a. induction a as [ | x a IH]; intros s H; [ now destruct s | ].
    destruct s as [ | c s]; cbn [append String.length String.substring] in *;
      [ discriminate | ].
    injection H as -> H. now rewrite (IH s H). }
  induction s as [ | c s IH]; intros m H.
  - destruct m; [ now apply H0 | ]. cbn [String.substring] in *.
    destruct a; [ reflexivity | discriminate ].
  - destruct m as [ | m]; [ now apply H0 | ].
    cbn [String.substring] in *. now apply IH.
Qed.

Lemma includes_prefix (s a b : string) :
  a <> "" -> includes s (a ++ b)%string = true -> includes s a = true.
Proof.
  unfold includes. intros Ha H.
  destruct (String.index 0 (a ++ b)%string s) as [m | ] eqn:Hm; [ | discriminate ].
  apply index_correct1 in Hm. apply substring_prefix in Hm.
  destruct (String.index 0 a s) eqn:Hi; [ reflexivity | ].
  exfalso. apply (index_correct3 0 m a s Hi Ha); [ lia | exact Hm ].
Qed.

Lemma plausible_app_tsx (key : string) :
  includes (toLowerCase key) "app.tsx" = true -> plausible_entry key = true.
Proof.
  intros H. unfold plausible_entry.
  rewrite (includes_prefix (toLowerCase key) "app" ".tsx"); [ reflexivity | discriminate | exact H ].
Qed.

Lemma find_first_none {A : Type} (p : A -> bool) (l : list A) :
  find_first p l = None <-> forallb (fun x => negb (p x)) l = true.
Proof.
  unfold find_first. induction l as [ | x l IH]; cbn [find forallb]; [ tauto | ].
  destruct (p x); cbn [negb andb]; [ split; discriminate | exact IH ].
Qed.

Lemma appFile_plausible (fs : list (string * string)) (found : string) :
  Coder.appFile fs = Some found -> existsb plausible_entry (keys fs) = true.
Proof.
  unfold Coder.appFile. intros H. apply existsb_exists.
  assert (Hk : forall k v, Coder.truthy_file fs k = Some v -> plausible_entry k = true ->
                           exists x, In x (keys fs) /\ plausible_entry x = true).
  { intros k v Hv Hp. exists k. split; [ | exact Hp ].
    apply assoc_in_keys. apply truthy_file_in in Hv. destruct Hv as [Hv _]. congruence. }
  destruct (Coder.truthy_file fs "App.tsx") eqn:H1; [ now apply (Hk _ _ H1) | ].
  destruct (Coder.truthy_file fs "/App.tsx") eqn:H2; [ now apply (Hk _ _ H2) | ].
  destruct (Coder.truthy_file fs "app.tsx") eqn:H3; [ now apply (Hk _ _ H3) | ].
  destruct (Coder.truthy_file fs "/app.tsx") eqn:H4; [ now apply (Hk _ _ H4) | ].
  cbn [Coder.or_else] in H. apply find_first_in in H. destruct H as [Hin Hp].
  exists found. split; [ exact Hin | now apply plausible_app_tsx ].
Qed.

(** X4.  The check for [App.tsx] throws exactly when no file name contains
    [app] or [main] or ends in [.tsx], letter case apart; the error then
    lists the file names that are there. *)
Theorem ensureAppFile_fails_iff (fs : list (string * string)) :
  ((exists e, Coder.ensureAppFile fs = Throw e)
   <-> forallb (fun key => negb (plausible_entry key)) (keys fs) = true)
  /\ (forall e, Coder.ensureAppFile fs = Throw e ->
        e = Error ("Generated code missing App.tsx. Available files: "
                   ++ join ", " (keys fs))%string).
Proof.
  assert (Hex : forall l, existsb plausible_entry l = true ->
                          forallb (fun key => negb (plausible_entry key)) l = true -> False).
  { intros l He Hf. apply existsb_exists in He. destruct He as [x [Hin Hp]].
    rewrite forallb_forall in Hf. specialize (Hf x Hin). rewrite Hp in Hf. discriminate. }
  split; [ split | ].
  - intros [e H]. unfold Coder.ensureAppFile in H.
    destruct (Coder.appFile fs) as [found | ].
    + destruct (assoc "App.tsx" fs); [ destruct (String.eqb _ _) | ]; discriminate.
    + destruct (Coder.mainFile fs) as [main | ] eqn:Hmain.
      * destruct (assoc main fs); discriminate.
      * apply find_first_none in Hmain. exact Hmain.
  - intros Hall. unfold Coder.ensureAppFile.
    destruct (Coder.appFile fs) as [found | ] eqn:Happ.
    + exfalso. apply (Hex (keys fs)); [ | exact Hall ]. now apply (appFile_plausible fs found).
    + apply find_first_none in Hall. unfold plausible_entry in Hall.
      unfold Coder.mainFile. rewrite Hall. eauto.
  - intros e H. unfold Coder.ensureAppFile in H.
    destruct (Coder.appFile fs) as [found | ].
    + destruct (assoc "App.tsx" fs); [ destruct (String.eqb _ _) | ]; discriminate.
    + destruct (Coder.mainFile fs) as [main | ].
      * destruct (assoc main fs); discriminate.
      * now injection H as <-.
Qed.

End EntryFile.

(** The check at files whose only component is [Home.tsx]. *)
Lemma ensureAppFile_installs_entry_witness :
  Coder.ensureAppFile [("Home.tsx", "export default function Home() {}")]
  = Ok [("Home.tsx", "export default function Home() {}");
        ("App.tsx", "export default function Home() {}")]
  /\ ((exists source,
          assoc "App.tsx" [("Home.tsx", "export default function Home() {}");
                           ("App.tsx", "export default function Home() {}")] = Some source)
      /\ (forall key, key <> "App.tsx" ->
            assoc key [("Home.tsx", "export default function Home() {}");
                       ("App.tsx", "export default function Home() {}")]
            = assoc key [("Home.tsx", "export default function Home() {}")])
      /\ (keys [("Home.tsx", "export default function Home() {}");
                ("App.tsx", "export default function Home() {}")]
          = keys [("Home.tsx", "export default function Home() {}")]
          \/ keys [("Home.tsx", "export default function Home() {}");
                   ("App.tsx", "export default function Home() {}")]
             = keys [("Home.tsx", "export default function Home() {}")] ++ ["App.tsx"])
      /\ (forall source,
            assoc "App.tsx" [("Home.tsx", "export default function Home() {}")] = Some source ->
            source <> "" ->
            [("Home.tsx", "export default function Home() {}");
             ("App.tsx", "export default function Home() {}")]
            = [("Home.tsx", "export default function Home() {}")])).
Proof.
  split; [ vm_compute; reflexivity | ].
  apply (ensureAppFile_installs_entry [("Home.tsx", "export default function Home() {}")]).
  vm_compute. reflexivity.
Defined.

(* ===================================================================== *)
(** * The calls of a gateway                                          *)
(* ===================================================================== *)

Section GatewayCalls.
Context `{RT : Runtime}.

Lemma call_provider_journal {A : Type} (p : Provider) (req : Prompt)
  (f : World -> Result A * World) (m : MState) :
  journal (snd (call_provider p req f m)) = journal m ++ [mkCall p req].
Proof. unfold call_provider. now destruct (f (world m)). Qed.

Ltac tryModels_steps IH c prompt m :=
  unfold tryCatch;
  pose proof (call_provider_journal (Gemini c) prompt (gemini_generateContent c prompt) m)
    as Hj;
  destruct (call_provider (Gemini c) prompt (gemini_generateContent c prompt) m)
    as [[answer | e] m1]; cbn [snd] in Hj;
  [ exists 1; cbn [snd firstn map]; repeat split; auto; simpl; lia | ];
  cbv zeta;
  repeat match goal with
    | |- context [if ?b then _ else _] => destruct b
    end;
  try (exists 1; cbn [snd firstn map throw]; repeat split; auto; simpl; lia);
  destruct (IH m1) as [k [_ [Hk Hjk]]];
  exists (S k); cbn [firstn map List.length];
  (split; [ intros _; lia | split; [ lia | ] ]);
  rewrite Hjk, Hj, <- app_assoc; reflexivity.

Lemma architect_tryModels_journal (prompt : Prompt) (models : list string) :
  forall m, exists k,
    (models <> [] -> 1 <= k) /\ k <= List.length models
    /\ journal (snd (Architect.tryModels prompt models m))
       = journal m ++ map (fun c => mkCall (Gemini c) prompt) (firstn k models).
Proof.
  induction models as [ | c rest IH]; intros m; cbn [Architect.tryModels].
  - exists 0. cbn. rewrite app_nil_r. repeat split; auto. congruence.
  - tryModels_steps IH c prompt m.
Qed.

Lemma coder_tryModels_journal (prompt : Prompt) (models : list string) :
  forall m, exists k,
    (models <> [] -> 1 <= k) /\ k <= List.length models
    /\ journal (snd (Coder.tryModels prompt models m))
       = journal m ++ map (fun c => mkCall (Gemini c) prompt) (firstn k models).
Proof.
  induction models as [ | c rest IH]; intros m; cbn [Coder.tryModels].
  - exists 0. cbn. rewrite app_nil_r. repeat split; auto. congruence.
  - tryModels_steps IH c prompt m.
Qed.

Lemma vision_tryModels_journal (prompt : Prompt) (models : list string) :
  forall m, exists k,
    (models <> [] -> 1 <= k) /\ k <= List.length models
    /\ journal (snd (QA.tryModels prompt models m))
       = journal m ++ map (fun c => mkCall (Gemini c) prompt) (firstn k models).
Proof.
  induction models as [ | c rest IH]; intros m; cbn [QA.tryModels].
  - exists 0. cbn. rewrite app_nil_r. repeat split; auto. congruence.
  - tryModels_steps IH c prompt m.
Qed.

Lemma architect_gateway_asked (prompt : Prompt) (modelType : ModelType) (m : MState) :
  asked (candidate_calls modelType prompt) m
        (snd (Architect.callLLMWithFallback prompt modelType m)).
Proof.
  destruct modelType; cbn [Architect.callLLMWithFallback candidate_calls].
  - exists 1. split; [ lia | apply call_provider_journal ].
  - destruct (architect_tryModels_journal prompt Architect.GEMINI_FALLBACK_MODELS m)
      as [k [Hk [_ Hj]]].
    exists k. split; [ apply Hk; discriminate | ]. rewrite Hj. now rewrite firstn_map.
  - exists 1. split; [ lia | ]. unfold bind.
    pose proof (call_provider_journal OpenAI prompt (openai_create prompt) m) as Hj.
    destruct (call_provider OpenAI prompt (openai_create prompt) m) as [[a | e] m1];
      exact Hj.
Qed.

Lemma coder_gateway_asked (system : CoderSystemPrompt) (user : CoderUserPrompt)
  (modelType : ModelType) (m : MState) :
  asked (candidate_calls modelType (CoderText system user)) m
        (snd (Coder.callCoderLLMWithFallback system user modelType m)).
Proof.
  destruct modelType; cbn [Coder.callCoderLLMWithFallback candidate_calls].
  - exists 1. split; [ lia | apply call_provider_journal ].
  - destruct (coder_tryModels_journal (CoderText system user) Coder.GEMINI_FALLBACK_MODELS m)
      as [k [Hk [_ Hj]]].
    exists k. split; [ apply Hk; discriminate | ]. rewrite Hj. now rewrite firstn_map.
  - exists 1. split; [ lia | ]. unfold bind.
    pose proof (call_provider_journal OpenAI (CoderText system user)
                  (openai_create (CoderText system user)) m) as Hj.
    destruct (call_provider OpenAI _ _ m) as [[a | e] m1]; exact Hj.
Qed.

Lemma vision_gateway_asked (original generated : string) (isGemini : bool) (m : MState) :
  asked (candidate_calls (if isGemini then gemini else openai)
           (VisionParts original generated)) m
        (snd (QA.callVisionAPIWithFallback original generated isGemini m)).
Proof.
  destruct isGemini; cbn [QA.callVisionAPIWithFallback negb candidate_calls].
  - destruct (vision_tryModels_journal (VisionParts original generated)
                QA.GEMINI_VISION_FALLBACK_MODELS m) as [k [Hk [_ Hj]]].
    exists k. split; [ apply Hk; discriminate | ]. rewrite Hj. now rewrite firstn_map.
  - exists 1. split; [ lia | ]. unfold bind.
    pose proof (call_provider_journal OpenAI (VisionParts original generated)
                  (openai_create (VisionParts original generated)) m) as Hj.
    destruct (call_provider OpenAI _ _ m) as [[a | e] m1]; exact Hj.
Qed.

Lemma candidate_calls_length (modelType : ModelType) (prompt : Prompt) :
  List.length (candidate_calls modelType prompt) <= 4.
Proof. destruct modelType; simpl; lia. Qed.


(** X5.  A call through a gateway -- of the architect, of the coder or of
    the validator -- asks the candidates of its provider in their order,
    each at most once and all with the same prompt, and at least the first
    one: the journal grows by a non-empty prefix of the candidate calls, one
    call for Claude and for OpenAI, at most four for Gemini. *)
Theorem gateway_asks_candidates_once :
  (forall prompt modelType m,
      asked (candidate_calls modelType prompt) m
            (snd (Architect.callLLMWithFallback prompt modelType m)))
  /\ (forall system user modelType m,
         asked (candidate_calls modelType (CoderText system user)) m
               (snd (Coder.callCoderLLMWithFallback system user modelType m)))
  /\ (forall original generated (isGemini : bool) m,
         asked (candidate_calls (if isGemini then gemini else openai)
                  (VisionParts original generated)) m
               (snd (QA.callVisionAPIWithFallback original generated isGemini m)))
  /\ (forall (modelType : ModelType) (prompt : Prompt),
         1 <= List.length (candidate_calls modelType prompt) <= 4).
Proof.
  split; [ exact architect_gateway_asked | ].
  split; [ exact coder_gateway_asked | ].
  split; [ exact vision_gateway_asked | ].
  intros [ | | ] prompt; simpl; lia.
Qed.

End GatewayCalls.

(* ===================================================================== *)
(** * Provider calls of a node                                        *)
(* ===================================================================== *)

Section CallBudget.
Context `{RT : Runtime}.

Lemma costs_le {A : Type} (c : M A) (a b : nat) : costs c a -> a <= b -> costs c b.
Proof. intros H Hab m. specialize (H m). lia. Qed.

Lemma costs_ret {A : Type} (a : A) (n : nat) : costs (ret a) n.
Proof. intros m. simpl. lia. Qed.

Lemma costs_throw {A : Type} (e : JsError) (n : nat) : costs (@throw MState A e) n.
Proof. intros m. simpl. lia. Qed.

Lemma costs_liftR {A : Type} (r : Result A) : costs (liftR r) 0.
Proof. intros m. simpl. lia. Qed.

Lemma costs_timestamp : costs timestamp 0.
Proof. intros m. simpl. lia. Qed.

Lemma costs_perform {A : Type} (f : World -> Result A * World) : costs (perform f) 0.
Proof. intros m. unfold perform. destruct (f (world m)). simpl. lia. Qed.

Lemma costs_bind {A B : Type} (a : nat) (c : M A) (k : A -> M B) (n : nat) :
  costs c a -> (forall x, costs (k x) (n - a)) -> a <= n -> costs (bind c k) n.
Proof.
  intros Hc Hk Han m. unfold bind. specialize (Hc m).
  destruct (c m) as [[x | e] m1]; cbn [snd] in *; [ | lia ].
  specialize (Hk x m1). lia.
Qed.

Lemma costs_free {A B : Type} (c : M A) (k : A -> M B) (n : nat) :
  costs c 0 -> (forall x, costs (k x) n) -> costs (bind c k) n.
Proof.
  intros Hc Hk. apply (costs_bind 0); [ exact Hc | | lia ].
  intros x. now rewrite Nat.sub_0_r.
Qed.

Lemma costs_tryCatch {A : Type} (a : nat) (body : M A) (handler : JsError -> M A) (n : nat) :
  costs body a -> (forall e, costs (handler e) (n - a)) -> a <= n ->
  costs (tryCatch body handler) n.
Proof.
  intros Hc Hk Han m. unfold tryCatch. specialize (Hc m).
  destruct (body m) as [[x | e] m1]; cbn [snd] in *; [ lia | ].
  specialize (Hk e m1). lia.
Qed.

Lemma asked_costs (calls : list Call) {A : Type} (c : M A) :
  List.length calls <= 4 -> (forall m, asked calls m (snd (c m))) -> costs c 4.
Proof.
  intros Hlen H m. destruct (H m) as [k [_ Hj]]. rewrite Hj, length_app, length_firstn. lia.
Qed.

Lemma costs_callLLMWithFallback (prompt : Prompt) (modelType : ModelType) :
  costs (Architect.callLLMWithFallback prompt modelType) 4.
Proof.
  apply (asked_costs (candidate_calls modelType prompt));
    [ apply candidate_calls_length | intros m; apply architect_gateway_asked ].
Qed.

Lemma costs_splitAndRetry modelType chunk acc error :
  costs (Architect.splitAndRetry modelType chunk acc error) 8.
Proof.
  unfold Architect.splitAndRetry.
  destruct (includes _ "token" || includes _ "exceeds"); [ | apply costs_throw ].
  apply (costs_tryCatch 8); [ | intros; apply costs_ret | lia ].
  apply (costs_bind 4); [ apply costs_callLLMWithFallback | intros r1 | lia ].
  apply (costs_bind 4); [ apply costs_callLLMWithFallback | intros; apply costs_ret | lia ].
Qed.

Lemma costs_processChunks modelType n todo :
  forall i acc summary,
    costs (Architect.processChunks modelType n i todo acc summary)
          (12 * List.length todo + 4 * summaries n i (List.length todo)).
Proof.
  induction todo as [ | chunk rest IH]; intros i acc summary;
    cbn [Architect.processChunks List.length summaries].
  - apply costs_ret.
  - apply (costs_bind 12).
    + apply (costs_tryCatch 4); [ | intros e; apply costs_splitAndRetry | lia ].
      apply (costs_bind 4); [ apply costs_callLLMWithFallback | intros; apply costs_ret | lia ].
    + intros acc'. destruct (((i + 1) mod 3 =? 0) || (i =? n - 1)).
      * apply (costs_bind 4); [ apply costs_callLLMWithFallback | | lia ].
        intros s. eapply costs_le; [ apply IH | lia ].
      * eapply costs_le; [ apply IH | lia ].
    + lia.
Qed.

Lemma summaries_ceiling (n : nat) : n <= 20 -> summaries n 0 n <= 7.
Proof.
  intros Hn.
  assert (H : forallb (fun k => summaries k 0 k <=? 7) (seq 0 21) = true)
    by (vm_compute; reflexivity).
  rewrite forallb_forall in H. apply Nat.leb_le. apply H. apply in_seq. lia.
Qed.

Lemma costs_architectBody (state : AgentState) :
  costs (Architect.architectBody state) (budget Node.architect).
Proof.
  unfold Architect.architectBody.
  destruct (Architect.require_scoutData state "url") as [sd | e];
    [ rewrite bind_liftR_Ok | rewrite bind_liftR_Throw; apply costs_throw ].
  pose proof (chunksToProcess_ceiling sd) as Hlen.
  pose proof (summaries_ceiling _ Hlen) as Hsum.
  cbv zeta. cbn [budget].
  apply (costs_bind 4); [ apply costs_callLLMWithFallback | intros acc | lia ].
  apply (costs_bind (12 * List.length (Architect.chunksToProcess sd)
                     + 4 * summaries (List.length (Architect.chunksToProcess sd)) 0
                             (List.length (Architect.chunksToProcess sd))));
    [ apply costs_processChunks | intros [acc' summary] | lia ].
  apply (costs_bind 4); [ apply costs_callLLMWithFallback | intros content | lia ].
  destruct (jsonMatch content); [ | apply costs_throw ].
  apply costs_free; [ apply costs_liftR | intros plan ].
  apply costs_free; [ apply costs_timestamp | intros now; apply costs_ret ].
Qed.

Lemma costs_coderBody (state : AgentState) : costs (Coder.coderBody state) 4.
Proof.
  unfold Coder.coderBody. cbv zeta.
  destruct (Coder.require_scoutData state "assets") as [sd | e];
    [ rewrite bind_liftR_Ok | rewrite bind_liftR_Throw; apply costs_throw ].
  apply (costs_bind 4); [ | intros content | lia ].
  - apply (asked_costs (candidate_calls coderModel
                          (CoderText (Coder.systemPrompt state sd)
                                     (Coder.userPrompt state sd))));
      [ apply candidate_calls_length | intros m; apply coder_gateway_asked ].
  - destruct (jsonMatch content); [ | apply costs_throw ].
    apply costs_free; [ apply costs_liftR | intros parsed ].
    apply costs_free; [ apply costs_liftR | intros fs ].
    apply costs_free; [ apply costs_timestamp | intros now; apply costs_ret ].
Qed.

Lemma costs_qaBody (state : AgentState) : costs (QA.qaBody state) 4.
Proof.
  unfold QA.qaBody.
  destruct (QA.require_generatedCode state) as [generated | e];
    [ rewrite bind_liftR_Ok | rewrite bind_liftR_Throw; apply costs_throw ].
  cbv zeta.
  destruct (String.eqb _ ""); [ apply costs_throw | ].
  apply costs_free; [ apply costs_perform | intros shot1 ].
  apply costs_free; [ apply costs_liftR | intros sd ].
  apply costs_free; [ apply costs_perform | intros shot2 ].
  apply (costs_bind 4); [ | intros response | lia ].
  - apply (asked_costs
             (candidate_calls
                (if match qaModel with qa_gemini => true | qa_gpt4o => false end
                 then gemini else openai)
                (VisionParts shot2 shot1)));
      [ apply candidate_calls_length | intros m; apply vision_gateway_asked ].
  - destruct (jsonMatch response); [ | apply costs_throw ].
    apply costs_free; [ apply costs_liftR | intros answer ].
    destruct (negb _); [ apply costs_throw | ].
    destruct (QA.isNaN _); [ apply costs_throw | ].
    apply costs_free; [ apply costs_timestamp | intros now; apply costs_ret ].
Qed.

Lemma costs_stage (n : Node.t) (state : AgentState) : costs (stage n state) (budget n).
Proof.
  rewrite stage_unfold.
  apply (costs_tryCatch (budget n)); [ | | lia ].
  - destruct n; cbn [body].
    + unfold Scout.scoutBody.
      apply costs_free; [ apply costs_perform | intros out ].
      apply costs_free; [ apply costs_timestamp | intros now; apply costs_ret ].
    + apply costs_architectBody.
    + apply costs_coderBody.
    + apply costs_qaBody.
  - intros e. apply costs_free; [ apply costs_timestamp | intros now; apply costs_ret ].
Qed.

(** X6.  One invocation of a node makes a bounded number of provider calls,
    whatever the size of the page: none for the scout, at most four for the
    coder and for the validator, and at most 276 for the architect (the
    overview, three gateway calls for each of at most twenty chunks, seven
    summaries and the final plan, four candidates each). *)
Theorem node_call_budget (n : Node.t) (state : AgentState) (m : MState) :
  List.length (journal (snd (stage n state m))) <= List.length (journal m) + budget n.
Proof. apply costs_stage. Qed.

End CallBudget.

(* ===================================================================== *)
(** * Oversized chunks and the overview ([architectNode])             *)
(* ===================================================================== *)

Section SplitChunk.
Context `{RT : Runtime}.




End SplitChunk.


Section Overview.

Lemma fold_left_count (f : DOMSnapshot -> nat) (l : list DOMSnapshot) (a : nat) :
  fold_left (fun sum child => sum + f child) l a = a + list_sum (map f l).
Proof.
  revert a. induction l as [ | x l IH]; intros a; cbn [fold_left map]; [ simpl; lia | ].
  rewrite IH. change (list_sum (f x :: map f l)) with (f x + list_sum (map f l)). lia.
Qed.

Lemma countDOMNodes_unfold (node : DOMSnapshot) :
  Architect.countDOMNodes node
  = 1 + list_sum (map Architect.countDOMNodes (dom_children node)).
Proof.
  destruct node as [h s t c x children]. cbn [Architect.countDOMNodes dom_children].
  now rewrite fold_left_count.
Qed.

Lemma list_sum_firstn (f : DOMSnapshot -> nat) (k : nat) (l : list DOMSnapshot) :
  list_sum (map f (firstn k l)) <= list_sum (map f l).
Proof.
  revert k. induction l as [ | x l IH]; intros [ | k]; cbn [firstn map]; try (simpl; lia).
  specialize (IH k).
  change (list_sum (f x :: map f (firstn k l))) with (f x + list_sum (map f (firstn k l))).
  change (list_sum (f x :: map f l)) with (f x + list_sum (map f l)). lia.
Qed.

Lemma list_sum_le (f g : DOMSnapshot -> nat) (l : list DOMSnapshot) :
  (forall x, f x <= g x) -> list_sum (map f l) <= list_sum (map g l).
Proof.
  intros H. induction l as [ | x l IH]; cbn [map]; [ simpl; lia | ].
  specialize (H x).
  change (list_sum (f x :: map f l)) with (f x + list_sum (map f l)).
  change (list_sum (g x :: map g l)) with (g x + list_sum (map g l)). lia.
Qed.

Lemma dom_children_with (node : DOMSnapshot) (ch : list DOMSnapshot) :
  dom_children (dom_with_children node ch) = ch.
Proof. now destruct node. Qed.

Lemma countDOMNodes_trimmed (k : nat) (node : DOMSnapshot) :
  Architect.countDOMNodes (dom_with_children node (firstn k (dom_children node)))
  <= Architect.countDOMNodes node.
Proof.
  rewrite (countDOMNodes_unfold node), countDOMNodes_unfold, dom_children_with.
  apply le_n_S. apply list_sum_firstn.
Qed.

(** X8.  The overview that opens the architect's conversation shows at
    most the first ten children of the body, each with at most its first
    three children, while its statistics count the whole snapshot: the node
    count it reports is that of the full tree, never less than the number
    of nodes it shows. *)
Theorem overview_is_trimmed (scoutData : ScoutOutput) :
  let overview := Architect.getScoutOverview scoutData in
  List.length (dom_children (ov_dom overview))
  = Nat.min 10 (List.length (dom_children (dom scoutData)))
  /\ Forall2 (fun shown child =>
                shown = dom_with_children child (firstn 3 (dom_children child)))
             (dom_children (ov_dom overview))
             (firstn 10 (dom_children (dom scoutData)))
  /\ Forall (fun shown => List.length (dom_children shown) <= 3)
            (dom_children (ov_dom overview))
  /\ domNodes (ov_stats overview) = Architect.countDOMNodes (dom scoutData)
  /\ Architect.countDOMNodes (ov_dom overview) <= domNodes (ov_stats overview).
Proof.
  cbv zeta. unfold Architect.getScoutOverview; cbn [ov_dom ov_stats domNodes].
  rewrite dom_children_with.
  split; [ now rewrite length_map, length_firstn | ].
  split.
  { induction (firstn 10 (dom_children (dom scoutData))) as [ | x l IH]; cbn [map];
      constructor; auto. }
  split.
  { apply Forall_forall. intros shown Hin. apply in_map_iff in Hin.
    destruct Hin as [child [<- _]]. rewrite dom_children_with, length_firstn. lia. }
  split; [ reflexivity | ].
  rewrite (countDOMNodes_unfold (dom scoutData)), countDOMNodes_unfold, dom_children_with.
  apply le_n_S. rewrite map_map.
  etransitivity; [ | apply (list_sum_firstn Architect.countDOMNodes 10) ].
  apply list_sum_le. intros x. apply countDOMNodes_trimmed.
Qed.

End Overview.

(* ===================================================================== *)
(** * The orchestrator: invariants of every step                      *)
(* ===================================================================== *)

Section Rules.
Context `{RT : Runtime}.

Lemma stage_effect (n : Node.t) (st : AgentState) :
  returns (stage n st) (node_effect n st).
Proof.
  rewrite stage_unfold. apply returns_tryCatch.
  - destruct n; cbn [body].
    + unfold Scout.scoutBody. do 2 (apply returns_bind; intros ?).
      apply returns_ret. right. cbn. repeat split. eexists. split; [ | reflexivity ]. reflexivity.
    + unfold Architect.architectBody. apply returns_bind; intros sd.
      apply returns_bind; intros acc. apply returns_bind; intros [acc' summary].
      apply returns_bind; intros content.
      destruct (jsonMatch content); [ | apply returns_throw ].
      do 2 (apply returns_bind; intros ?).
      apply returns_ret. right. cbn. repeat split. eexists. split; [ | reflexivity ]. reflexivity.
    + unfold Coder.coderBody. apply returns_bind; intros sd.
      apply returns_bind; intros content.
      destruct (jsonMatch content); [ | apply returns_throw ].
      do 3 (apply returns_bind; intros ?).
      apply returns_ret. right. cbn. repeat split. eexists. split; [ | reflexivity ]. reflexivity.
    + eapply hoare_conseq; [ apply (body_returns Node.qa) | auto | | auto ].
      intros u s H. right. exact H.
  - intros e. apply returns_bind; intros now. apply returns_ret.
    left. eexists. split; [ | reflexivity ]. reflexivity.
Qed.

(** [await]: the run of the node on the current state. *)
Lemma hoare_await_run (n : Node.t) (P : Graph.OrchState -> Prop)
  (Q : Partial -> Graph.OrchState -> Prop) E :
  (forall s u m, P s ->
      stage n (Graph.currentState s) (Graph.mstate s) = (Ok u, m) ->
      Q u (step_called n (Ok u) m s)) ->
  hoare P (Graph.await n (stage n)) Q E.
Proof.
  intros H s Hs. unfold Graph.await.
  destruct (stage_total n (Graph.currentState s) (Graph.mstate s)) as [u [m Hrun]].
  rewrite Hrun. now apply H.
Qed.

Lemma hoare_block_run {A : Type} (I J I' : Graph.OrchState -> Prop) f (n : Node.t)
  (tail : Graph.Orch A) Q E :
  (forall s, I s -> J (step_assign f s)) ->
  (forall s, J s -> J (step_persist s)) ->
  (forall s u m, J s ->
      stage n (Graph.currentState s) (Graph.mstate s) = (Ok u, m) ->
      I' (step_assign (fun c => merge c u) (step_called n (Ok u) m s))) ->
  hoare I' tail Q E ->
  hoare I
    (bind (Graph.assign f)
       (fun _ => bind Graph.persist
          (fun _ => bind (Graph.await n (stage n))
             (fun r => bind (Graph.assign (fun c => merge c r)) (fun _ => tail)))))
    Q E.
Proof.
  intros Hassign Hpersist Hcall Htail.
  apply hoare_bind with (R := fun _ => J); [ now apply hoare_assign | intros _ ].
  apply hoare_bind with (R := fun _ => J); [ now apply hoare_persist | intros _ ].
  apply hoare_bind with
    (R := fun u s => exists s0 m, J s0
                       /\ stage n (Graph.currentState s0) (Graph.mstate s0) = (Ok u, m)
                       /\ s = step_called n (Ok u) m s0).
  { apply hoare_await_run. intros s u m Hs Hu. eauto. }
  intros u.
  apply hoare_bind with (R := fun _ => I'); [ | intros _; exact Htail ].
  apply hoare_assign. intros s [s0 [m [Hs0 [Hu ->]]]]. now apply Hcall.
Qed.

Lemma run_effect (n : Node.t) (st : AgentState) (m m' : MState) (u : Partial) :
  stage n st m = (Ok u, m') -> node_effect n st u.
Proof. intros H. exact (returns_elim _ _ _ _ _ (stage_effect n st) H). Qed.

End Rules.

(** An invariant that every step of the orchestrator keeps. *)
Section Uniform.

Context `{RT : Runtime}.
Variable I : Graph.OrchState -> Prop.
Hypothesis I_stage :
  forall s st n, I s -> I (step_assign (fun c => Graph.with_stage c st n) s).
Hypothesis I_retry :
  forall s l, I s -> I (step_assign (fun c => Graph.with_retry c l) s).
Hypothesis I_complete :
  forall s t, I s -> I (step_assign (fun c => Graph.with_complete c t) s).
Hypothesis I_persist : forall s, I s -> I (step_persist s).
Hypothesis I_called :
  forall s n u m, I s ->
    stage n (Graph.currentState s) (Graph.mstate s) = (Ok u, m) ->
    I (step_assign (fun c => merge c u) (step_called n (Ok u) m s)).

Lemma block_keeps {A : Type} st (n : Node.t) (tail : Graph.Orch A) Q E :
  hoare I tail Q E ->
  hoare I
    (bind (Graph.assign (fun c => Graph.with_stage c st n))
       (fun _ => bind Graph.persist
          (fun _ => bind (Graph.await n (stage n))
             (fun r => bind (Graph.assign (fun c => merge c r)) (fun _ => tail)))))
    Q E.
Proof.
  intros Htail. apply (hoare_block_run I I I); auto.
Qed.

Lemma retryBody_keeps (l : nat) E : hoare I (Graph.retryBody l) (fun _ => I) E.
Proof.
  unfold Graph.retryBody.
  apply (hoare_block_run I I I _ Node.coder); auto.
  apply hoare_bind with (R := fun _ => I); [ now apply hoare_persist | intros _ ].
  apply hoare_current. intros c.
  eapply hoare_pre; [ | intros s [Hs _]; exact Hs ].
  destruct (Status.eqb (status c) Status.qa); [ | apply hoare_ret; auto ].
  apply (block_keeps Status.qa Node.qa). now apply hoare_persist.
Qed.

Lemma retryLoop_keeps E (fuel : nat) :
  forall l, hoare I (Graph.retryLoop fuel l) (fun _ => I) E.
Proof.
  induction fuel as [ | fuel IH]; intros l; cbn [Graph.retryLoop];
    apply hoare_current; intros c;
    (eapply hoare_pre; [ | intros s [Hs _]; exact Hs ]);
    destruct (Status.eqb (status c) Status.coding && (retryCount c <? maxRetries c)
              && (l <? maxRetries c));
    try (apply hoare_ret; auto).
  apply hoare_bind with (R := fun _ => I); [ apply retryBody_keeps | intros _; apply IH ].
Qed.

Lemma tryBlock_keeps : hoare I Graph.tryBlock (fun _ => I) (fun _ => False).
Proof.
  unfold Graph.tryBlock.
  apply (block_keeps Status.scouting Node.scout).
  apply hoare_bind with (R := fun _ => I); [ now apply hoare_persist | intros _ ].
  apply (block_keeps Status.planning Node.architect).
  apply hoare_bind with (R := fun _ => I); [ now apply hoare_persist | intros _ ].
  apply (block_keeps Status.coding Node.coder).
  apply hoare_bind with (R := fun _ => I); [ now apply hoare_persist | intros _ ].
  apply (block_keeps Status.qa Node.qa).
  apply hoare_bind with (R := fun _ => I); [ now apply hoare_persist | intros _ ].
  apply hoare_current. intros c.
  eapply hoare_pre; [ | intros s [Hs _]; exact Hs ].
  apply hoare_bind with (R := fun _ => I); [ apply retryLoop_keeps | intros _ ].
  apply hoare_current. intros c'.
  eapply hoare_pre; [ | intros s [Hs _]; exact Hs ].
  destruct (negb (Status.eqb (status c') Status.failed)); [ | apply hoare_ret; auto ].
  apply hoare_now. intros t. apply hoare_assign. auto.
Qed.

Lemma runFrom_keeps (initial : AgentState) (m : MState) :
  I (Graph.mkOrchState m [Graph.RedisSetex initial] initial) ->
  I (Graph.runFrom initial m).
Proof.
  intros Hinit. unfold Graph.runFrom.
  assert (H : hoare (fun s => s = Graph.mkOrchState m [] initial)
                (bind (Graph.updateRedisState initial)
                   (fun _ => bind (tryCatch Graph.tryBlock Graph.catchBlock)
                                  (fun _ => Graph.persist)))
                (fun _ => I) (fun _ => False)).
  { apply hoare_bind with (R := fun _ => I).
    - intros s ->. exact Hinit.
    - intros _. apply hoare_bind with (R := fun _ => I).
      + apply hoare_tryCatch with (E' := fun _ => False).
        * apply tryBlock_keeps.
        * intros e s [].
      + intros _. now apply hoare_persist. }
  specialize (H _ eq_refl).
  destruct (bind _ _ _) as [[a | e] s']; [ exact H | destruct H ].
Qed.

End Uniform.

(* ===================================================================== *)
(** * The orchestrator: identity and logs of a job                    *)
(* ===================================================================== *)

Section Identity.
Context `{RT : Runtime}.

Lemma same_job_merge (a c : AgentState) (u : Partial) : same_job a c -> same_job a (merge c u).
Proof. intros H. exact H. Qed.

Lemma runFrom_same_job (initial : AgentState) (m : MState) :
  Forall (same_job initial) (Graph.persisted (Graph.trace (Graph.runFrom initial m)))
  /\ same_job initial (Graph.currentState (Graph.runFrom initial m)).
Proof.
  apply (runFrom_keeps
           (fun s => Forall (same_job initial) (Graph.persisted (Graph.trace s))
                     /\ same_job initial (Graph.currentState s))).
  - intros s st n H. exact H.
  - intros s l H. exact H.
  - intros s t H. exact H.
  - intros s [H1 H2]. split; [ | exact H2 ].
    unfold step_persist; cbn [Graph.trace]. rewrite persisted_app.
    apply Forall_app. split; [ exact H1 | ]. cbn. constructor; [ exact H2 | constructor ].
  - intros s n u m' [H1 H2] _. split; [ | exact H2 ].
    unfold step_assign, step_called; cbn [Graph.trace]. rewrite persisted_app.
    cbn. now rewrite app_nil_r.
  - cbn. repeat split. constructor; [ | constructor ]. repeat split.
Qed.

(** X9.  Every state that a job writes to the store, and the state it
    returns, carries the job's id (so every write goes to the one key of
    the job), its URL and instructions, the start time taken when the job
    began, and [maxRetries = 3]. *)
Theorem job_identity_is_stable (target : string) (instructions id : option string)
  (m : MState) :
  let job := Graph.runAgent target instructions id m in
  let stable st :=
    jobId st = or_default id (fresh_job_id (world m))
    /\ url st = target /\ userInstructions st = instructions
    /\ maxRetries st = 3 /\ startedAt st = toISOString (world m) in
  Forall stable (Graph.persisted (Graph.trace job))
  /\ stable (Graph.currentState job).
Proof.
  cbv zeta. unfold Graph.runAgent.
  destruct (runFrom_same_job (Graph.initialState target instructions id (world m)) m)
    as [H1 H2].
  split; [ | exact H2 ].
  eapply Forall_impl; [ | exact H1 ]. intros st H. exact H.
Qed.

End Identity.

Section Logs.
Context `{RT : Runtime}.

Lemma extends_refl {A : Type} (l : list A) : extends l l.
Proof. exists []. now rewrite app_nil_r. Qed.

Lemma extends_trans {A : Type} (a b c : list A) : extends a b -> extends b c -> extends a c.
Proof. intros [x ->] [y ->]. exists (x ++ y). now rewrite app_assoc. Qed.

Lemma extends_app {A : Type} (l added : list A) : extends l (l ++ added).
Proof. now exists added. Qed.

Lemma log_grows_refl (st : AgentState) : log_grows st st.
Proof. split; apply extends_refl. Qed.

Lemma log_grows_trans (a b c : AgentState) : log_grows a b -> log_grows b c -> log_grows a c.
Proof. intros [H1 H2] [H3 H4]. split; eapply extends_trans; eauto. Qed.

Lemma effect_log_grows (n : Node.t) (st : AgentState) (u : Partial) :
  node_effect n st u -> log_grows st (merge st u).
Proof.
  intros [[entry [_ ->]] | Hok].
  - split; cbn; [ apply extends_refl | apply extends_app ].
  - destruct n;
      try (destruct Hok as [_ [_ [_ [He [_ [_ [d [_ Hd]]]]]]]]; split; cbn; rewrite ?He, ?Hd; cbn;
           [ apply extends_app | apply extends_refl ]).
    destruct Hok as [_ [r [now ->]]]. unfold QA.decideNextStep, QA.withDecision.
    destruct (passed r); [ | destruct (negb false && _) ];
      split; cbn; try apply extends_app; apply extends_refl.
Qed.

Lemma ForallOrdPairs_snoc {A : Type} (R : A -> A -> Prop) (l : list A) (x : A) :
  ForallOrdPairs R l -> Forall (fun a => R a x) l -> ForallOrdPairs R (l ++ [x]).
Proof.
  induction 1 as [ | a l Ha Hl IH]; intros Hx; cbn.
  - constructor; constructor.
  - inversion Hx as [ | ? ? Hax Hlx]; subst. constructor; [ | now apply IH ].
    apply Forall_app. split; [ exact Ha | ]. constructor; [ exact Hax | constructor ].
Qed.

Lemma runFrom_log_grows (initial : AgentState) (m : MState) :
  ForallOrdPairs log_grows (Graph.persisted (Graph.trace (Graph.runFrom initial m)))
  /\ Forall (fun st => log_grows st (Graph.currentState (Graph.runFrom initial m)))
            (Graph.persisted (Graph.trace (Graph.runFrom initial m))).
Proof.
  apply (runFrom_keeps
           (fun s => ForallOrdPairs log_grows (Graph.persisted (Graph.trace s))
                     /\ Forall (fun st => log_grows st (Graph.currentState s))
                               (Graph.persisted (Graph.trace s)))).
  - intros s st n H. exact H.
  - intros s l H. exact H.
  - intros s t H. exact H.
  - intros s [H1 H2]. unfold step_persist; cbn [Graph.trace Graph.currentState].
    rewrite persisted_app. cbn [Graph.persisted]. split.
    + now apply ForallOrdPairs_snoc.
    + apply Forall_app. split; [ exact H2 | ].
      constructor; [ apply log_grows_refl | constructor ].
  - intros s n u m' [H1 H2] Hrun. apply run_effect in Hrun. apply effect_log_grows in Hrun.
    unfold step_assign, step_called; cbn [Graph.trace Graph.currentState].
    rewrite persisted_app. cbn [Graph.persisted]. rewrite app_nil_r.
    split; [ exact H1 | ].
    eapply Forall_impl; [ | exact H2 ]. intros st Hst.
    apply (log_grows_trans _ (Graph.currentState s)); [ exact Hst | exact Hrun ].
  - cbn. split.
    + constructor; constructor.
    + constructor; [ apply log_grows_refl | constructor ].
Qed.

(** X10.  The decision log and the error list of a job only grow: of any
    two states written to the store, the later one extends both logs of the
    earlier one, and the state returned extends those of every state
    written. *)
Theorem logs_are_append_only (target : string) (instructions id : option string)
  (m : MState) :
  let job := Graph.runAgent target instructions id m in
  ForallOrdPairs log_grows (Graph.persisted (Graph.trace job))
  /\ Forall (fun st => log_grows st (Graph.currentState job))
            (Graph.persisted (Graph.trace job)).
Proof. cbv zeta. apply runFrom_log_grows. Qed.

Lemma failed_nodes_app (a b : list Graph.TraceEvent) :
  failed_nodes (a ++ b) = failed_nodes a ++ failed_nodes b.
Proof.
  induction a as [ | [st | n st r] a IH]; cbn; [ reflexivity | exact IH | ].
  destruct (returned_failed r); cbn; now rewrite IH.
Qed.

Lemma succeeded_nodes_app (a b : list Graph.TraceEvent) :
  succeeded_nodes (a ++ b) = succeeded_nodes a ++ succeeded_nodes b.
Proof.
  induction a as [ | [st | n st r] a IH]; cbn; [ reflexivity | exact IH | ].
  destruct (returned_failed r); cbn; now rewrite IH.
Qed.

Lemma effect_records (n : Node.t) (st : AgentState) (u : Partial) :
  node_effect n st u ->
  if returned_failed (Ok u)
  then map e_node (errors (merge st u)) = map e_node (errors st) ++ [Node.name n]
       /\ decisionLog (merge st u) = decisionLog st
  else map d_node (decisionLog (merge st u)) = map d_node (decisionLog st) ++ [Node.name n]
       /\ errors (merge st u) = errors st.
Proof.
  intros [[entry [Hn ->]] | Hok].
  - cbn. rewrite map_app. cbn. rewrite Hn. auto.
  - destruct n;
      try (destruct Hok as [Hs [_ [_ [He [_ [_ [d [Hn Hd]]]]]]]]; cbn [returned_failed];
           rewrite Hs; cbn; rewrite He, Hd; cbn; rewrite map_app; cbn; rewrite Hn; auto).
    destruct Hok as [_ [r [now ->]]]. unfold QA.decideNextStep, QA.withDecision.
    destruct (passed r); [ | destruct (negb false && _) ]; cbn; rewrite map_app; auto.
Qed.

Lemma runFrom_records (initial : AgentState) (m : MState) :
  errors initial = [] -> decisionLog initial = [] ->
  map e_node (errors (Graph.currentState (Graph.runFrom initial m)))
  = failed_nodes (Graph.trace (Graph.runFrom initial m))
  /\ map d_node (decisionLog (Graph.currentState (Graph.runFrom initial m)))
     = succeeded_nodes (Graph.trace (Graph.runFrom initial m)).
Proof.
  intros He Hd.
  apply (runFrom_keeps
           (fun s => map e_node (errors (Graph.currentState s)) = failed_nodes (Graph.trace s)
                     /\ map d_node (decisionLog (Graph.currentState s))
                        = succeeded_nodes (Graph.trace s))).
  - intros s st n H. exact H.
  - intros s l H. exact H.
  - intros s t H. exact H.
  - intros s [H1 H2]. unfold step_persist; cbn [Graph.trace Graph.currentState].
    rewrite failed_nodes_app, succeeded_nodes_app. cbn. now rewrite !app_nil_r.
  - intros s n u m' [H1 H2] Hrun. apply run_effect in Hrun. apply effect_records in Hrun.
    unfold step_assign, step_called; cbn [Graph.trace Graph.currentState].
    rewrite failed_nodes_app, succeeded_nodes_app. cbn [failed_nodes succeeded_nodes].
    destruct (returned_failed (Ok u)); destruct Hrun as [Ha Hb];
      rewrite ?Ha, ?Hb, ?H1, ?H2, ?app_nil_r; auto.
  - cbn. now rewrite He, Hd.
Qed.

(** X11.  Every invocation of a node leaves exactly one record, tagged
    with the node: the error list of the returned state names the
    invocations that failed, in order, and its decision log names the ones
    that did not.  No error is ever tagged [unknown]: the [catch] block of
    [runAgent] is never entered. *)
Theorem every_invocation_leaves_one_record (target : string)
  (instructions id : option string) (m : MState) :
  let job := Graph.runAgent target instructions id m in
  map e_node (errors (Graph.currentState job)) = failed_nodes (Graph.trace job)
  /\ map d_node (decisionLog (Graph.currentState job)) = succeeded_nodes (Graph.trace job).
Proof. cbv zeta. apply runFrom_records; reflexivity. Qed.

End Logs.

(* ===================================================================== *)
(** * The orchestrator: phases of a job                               *)
(* ===================================================================== *)

Section Phases.

Context `{RT : Runtime}.
Variable maxR : nat.
Hypothesis maxR_pos : 0 < maxR.

Lemma calledNodes_app (a b : list Graph.TraceEvent) :
  Graph.calledNodes (a ++ b) = Graph.calledNodes a ++ Graph.calledNodes b.
Proof.
  induction a as [ | [st | n st r] a IH]; cbn; [ reflexivity | exact IH | now rewrite IH ].
Qed.

Lemma retry_turns_succ (k : nat) :
  retry_turns k ++ [Node.coder; Node.qa] = retry_turns (k + 1).
Proof.
  unfold retry_turns. induction k as [ | k IH]; [ reflexivity | ].
  cbn [repeat List.concat Nat.add]. rewrite <- IH. reflexivity.
Qed.

Lemma Base_persist (s : Graph.OrchState) : Base maxR s -> Base maxR (step_persist s).
Proof.
  intros [H1 [H2 [H3 H4]]]. unfold Base, step_persist; cbn [Graph.trace Graph.currentState].
  rewrite persisted_app. cbn [Graph.persisted]. split; [ exact H1 | split; [ | split ] ].
  - apply Forall_app. split; [ exact H2 | ]. constructor; [ exact H1 | constructor ].
  - apply Forall_app. split; [ exact H3 | ]. constructor; [ exact I | constructor ].
  - apply Forall_app. split; [ exact H4 | ]. constructor; [ exact I | constructor ].
Qed.

(** A stage other than the validator: the retry count and the attempts are
    untouched, the decision it adds is its own. *)
Lemma Good_other (n : Node.t) (st : AgentState) (u : Partial) :
  n <> Node.qa -> node_effect n st u -> Good maxR st ->
  Good maxR (merge st u) /\ retryCount (merge st u) = retryCount st
  /\ completedAt (merge st u) = completedAt st
  /\ qaResult (merge st u) = qaResult st
  /\ (status (merge st u) = next_status n \/ status (merge st u) = Status.failed).
Proof.
  intros Hn [[entry [_ ->]] | Hok] [H1 [H2 H3]].
  - split; [ | split; [ reflexivity | split; [ reflexivity | split; [ reflexivity | now right ] ] ] ].
    repeat split; assumption.
  - assert (Hshape : p_status u = Some (next_status n)
                     /\ p_retryCount u = None /\ p_attemptHistory u = None
                     /\ p_errors u = None /\ p_completedAt u = None /\ p_qaResult u = None
                     /\ exists d, d_node d = Node.name n
                                  /\ p_decisionLog u = Some (decisionLog st ++ [d]))
      by (destruct n; [ exact Hok | exact Hok | exact Hok | congruence ]).
    destruct Hshape as [Hs [Hr [Ha [_ [Ht [Hq [d [Hd Hlog]]]]]]]].
    unfold Good, numbered. cbn. rewrite Hs, Hr, Ha, Ht, Hq, Hlog. cbn.
    repeat split; auto.
    apply Forall_app. split; [ exact H3 | ]. constructor; [ | constructor ].
    intros Hqa. rewrite Hd in Hqa. destruct n; try discriminate. congruence.
Qed.

Lemma seq_snoc (n : nat) : seq 1 (n + 1) = seq 1 n ++ [n + 1].
Proof. rewrite seq_app. cbn. now rewrite Nat.add_1_r. Qed.

(** The validator, invoked while a retry is allowed. *)
Lemma Good_qa (st : AgentState) (u : Partial) :
  node_effect Node.qa st u -> Good maxR st -> retryCount st < maxR ->
  Good maxR (merge st u)
  /\ (status (merge st u) = Status.coding -> retryCount (merge st u) = retryCount st + 1)
  /\ (completedAt st = None -> completedAt (merge st u) <> None ->
      status (merge st u) = Status.complete).
Proof.
  intros [[entry [_ ->]] | [_ [r [now ->]]]] [H1 [H2 H3]] Hroom.
  - split; [ repeat split; assumption | ]. cbn. split; [ discriminate | congruence ].
  - unfold QA.decideNextStep, QA.withDecision, Good, numbered.
    destruct (passed r); cbn [negb andb].
    + cbn. split; [ | split; [ discriminate | reflexivity ] ]. repeat split; auto.
      apply Forall_app. split; [ exact H3 | ]. constructor; [ | constructor ].
      intros _. now left.
    + replace (retryCount st <? maxRetries st) with true
        by (symmetry; apply Nat.ltb_lt; lia).
      cbn. split; [ | split; [ reflexivity | congruence ] ]. repeat split; auto.
      * rewrite map_app, H2, seq_snoc. reflexivity.
      * apply Forall_app. split; [ exact H3 | ]. constructor; [ | constructor ].
        intros _. now right.
Qed.

Lemma Base_called (n : Node.t) (u : Partial) (m : MState) (s : Graph.OrchState)
  (c' : AgentState) :
  Base maxR s -> Good maxR c' ->
  (n = Node.qa -> retryCount (Graph.currentState s) < maxRetries (Graph.currentState s)) ->
  (n = Node.coder -> briefed (Graph.currentState s)) ->
  Base maxR (Graph.mkOrchState m
               (Graph.trace s ++ [Graph.Called n (Graph.currentState s) (Ok u)]) c').
Proof.
  intros [H1 [H2 [H3 H4]]] Hc Hroom Hbrief. unfold Base; cbn [Graph.trace Graph.currentState].
  rewrite persisted_app. cbn [Graph.persisted]. rewrite app_nil_r.
  split; [ exact Hc | split; [ exact H2 | split ] ].
  - apply Forall_app. split; [ exact H3 | ]. constructor; [ | constructor ].
    destruct n; cbn; auto.
  - apply Forall_app. split; [ exact H4 | ]. constructor; [ | constructor ].
    destruct n; cbn; auto.
Qed.

Lemma early_block {A : Type} (k : nat) (st : Status.t) (n : Node.t)
  (tail : Graph.Orch A) Q E :
  n <> Node.qa -> firstn (k + 1) first_pass = firstn k first_pass ++ [n] ->
  hoare (Early maxR (k + 1)) tail Q E ->
  hoare (Early maxR k)
    (bind (Graph.assign (fun c => Graph.with_stage c st n))
       (fun _ => bind Graph.persist
          (fun _ => bind (Graph.await n (stage n))
             (fun r => bind (Graph.assign (fun c => merge c r)) (fun _ => tail)))))
    Q E.
Proof.
  intros Hn Hk Htail.
  apply (hoare_block_run (Early maxR k) (Early maxR k) (Early maxR (k + 1)));
    [ | | | exact Htail ].
  - intros s H. exact H.
  - intros s [Hb [Hr [Ht [Hq Hc]]]]. split; [ now apply Base_persist | ].
    split; [ exact Hr | ]. split; [ exact Ht | ]. split; [ exact Hq | ].
    unfold step_persist; cbn [Graph.trace]. rewrite calledNodes_app. cbn.
    now rewrite app_nil_r.
  - intros s u m [Hb [Hr [Ht [Hq Hc]]]] Hrun. apply run_effect in Hrun.
    destruct (Good_other n _ u Hn Hrun (proj1 Hb)) as [Hg [Hr' [Ht' [Hq' _]]]].
    unfold Early, step_assign, step_called; cbn [Graph.trace Graph.currentState].
    split; [ apply Base_called; auto; [ intros ->; congruence | intros _; now left ] | ].
    split; [ congruence | ]. split; [ congruence | ]. split; [ congruence | ].
    rewrite calledNodes_app. cbn. now rewrite Hc, Hk.
Qed.

Lemma results_app (a b : list Graph.TraceEvent) : results (a ++ b) = results a ++ results b.
Proof.
  induction a as [ | [st | n st r] a IH]; cbn; [ reflexivity | exact IH | now rewrite IH ].
Qed.

Lemma last_call_persist (s : Graph.OrchState) :
  last_call_failed (Graph.trace (step_persist s)) = last_call_failed (Graph.trace s).
Proof.
  unfold last_call_failed, step_persist; cbn [Graph.trace].
  rewrite results_app. cbn. now rewrite app_nil_r.
Qed.

Lemma last_call_called (t : list Graph.TraceEvent) (n : Node.t) (st : AgentState)
  (r : Result Partial) :
  last_call_failed (t ++ [Graph.Called n st r]) = returned_failed r.
Proof. unfold last_call_failed. rewrite results_app, rev_app_distr. reflexivity. Qed.

Lemma effect_failed (n : Node.t) (st : AgentState) (u : Partial) :
  node_effect n st u ->
  (returned_failed (Ok u) = true /\ status (merge st u) = Status.failed)
  \/ (returned_failed (Ok u) = false /\ status (merge st u) <> Status.failed).
Proof.
  intros [[entry [_ ->]] | Hok]; [ left; split; reflexivity | right ].
  destruct n;
    try (destruct Hok as [Hs _]; cbn; rewrite Hs; cbn; split; [ reflexivity | discriminate ]).
  destruct Hok as [_ [r [now ->]]]. unfold QA.decideNextStep.
  destruct (passed r); [ | destruct (negb false && _) ]; cbn; split;
    try reflexivity; discriminate.
Qed.

Lemma Outcome_qa (st : AgentState) (u : Partial) (t : list Graph.TraceEvent) (m : MState) :
  node_effect Node.qa st u -> retryCount st < maxRetries st ->
  Outcome (Graph.mkOrchState m (t ++ [Graph.Called Node.qa st (Ok u)]) (merge st u)).
Proof.
  intros Heff Hroom. unfold Outcome; cbn [Graph.trace Graph.currentState].
  rewrite last_call_called.
  destruct Heff as [[entry [_ ->]] | [Hcode [r [now ->]]]]; [ left; split; reflexivity | ].
  right. unfold QA.decideNextStep.
  destruct (passed r) eqn:Hpass; cbn [negb andb].
  - split; [ reflexivity | ]. exists r. split; [ | left; split; [ reflexivity | exact Hpass ] ].
    split; cbn; [ | reflexivity ]. now destruct (generatedCode st).
  - replace (retryCount st <? maxRetries st) with true by (symmetry; now apply Nat.ltb_lt).
    split; [ reflexivity | ]. exists r.
    split; [ | right; split; [ reflexivity | exact Hpass ] ].
    split; cbn; [ | reflexivity ]. now destruct (generatedCode st).
Qed.

(** The validator's block, from a state that allows a retry. *)
Lemma qa_block {A : Type} (l : nat) (nodes : list Node.t) (P : Graph.OrchState -> Prop)
  (tail : Graph.Orch A) Q E :
  (forall s, P s -> Base maxR s /\ retryCount (Graph.currentState s) = l
                    /\ l < maxR /\ completedAt (Graph.currentState s) = None
                    /\ Graph.calledNodes (Graph.trace s) = nodes) ->
  nodes ++ [Node.qa] = first_pass ++ retry_turns l ->
  hoare (AtLoop maxR l) tail Q E ->
  hoare P
    (bind (Graph.assign (fun c => Graph.with_stage c Status.qa Node.qa))
       (fun _ => bind Graph.persist
          (fun _ => bind (Graph.await Node.qa (stage Node.qa))
             (fun r => bind (Graph.assign (fun c => merge c r)) (fun _ => tail)))))
    Q E.
Proof.
  intros HP Hnodes Htail.
  set (J := fun s => Base maxR s /\ retryCount (Graph.currentState s) = l
                     /\ l < maxR /\ completedAt (Graph.currentState s) = None
                     /\ Graph.calledNodes (Graph.trace s) = nodes).
  apply (hoare_block_run P J (AtLoop maxR l)); [ | | | exact Htail ].
  - intros s Hs. exact (HP s Hs).
  - intros s [Hb [Hr [Hl [Ht Hc]]]]. split; [ now apply Base_persist | ].
    split; [ exact Hr | ]. split; [ exact Hl | ]. split; [ exact Ht | ].
    unfold step_persist; cbn [Graph.trace]. rewrite calledNodes_app. cbn.
    now rewrite app_nil_r.
  - intros s u m [Hb [Hr [Hl [Ht Hc]]]] Hrun. apply run_effect in Hrun.
    assert (Hmax : maxRetries (Graph.currentState s) = maxR) by apply Hb.
    destruct (Good_qa _ u Hrun (proj1 Hb)) as [Hg [Hcoding Htimed]]; [ lia | ].
    unfold AtLoop, step_assign, step_called; cbn [Graph.trace Graph.currentState].
    split; [ apply Base_called; auto; [ intros _; lia | discriminate ] | ].
    split; [ exact Hl | ].
    split; [ intros Hst; rewrite (Hcoding Hst); lia | ].
    split; [ now apply Htimed | ].
    split; [ apply Outcome_qa; [ exact Hrun | lia ] | ].
    left. rewrite calledNodes_app. cbn. now rewrite Hc.
Qed.

Lemma InTurn_persist (l : nat) (nodes : list Node.t) (s : Graph.OrchState) :
  InTurn maxR l nodes s -> InTurn maxR l nodes (step_persist s).
Proof.
  intros [Hb [Hr [Hl [Ht [Hq Hc]]]]]. split; [ now apply Base_persist | ].
  split; [ exact Hr | ]. split; [ exact Hl | ]. split; [ exact Ht | ].
  split; [ exact Hq | ].
  unfold step_persist; cbn [Graph.trace]. rewrite calledNodes_app. cbn.
  now rewrite app_nil_r.
Qed.

Lemma AtLoop_persist (l : nat) (s : Graph.OrchState) :
  AtLoop maxR l s -> AtLoop maxR l (step_persist s).
Proof.
  intros [Hb [Hl [Hcoding [Ht [Hout Hshape]]]]].
  split; [ now apply Base_persist | ]. split; [ exact Hl | ].
  split; [ exact Hcoding | ]. split; [ exact Ht | ].
  split.
  - unfold Outcome. rewrite last_call_persist. exact Hout.
  - unfold step_persist; cbn [Graph.trace Graph.currentState].
    rewrite calledNodes_app. cbn. now rewrite app_nil_r.
Qed.

Lemma retryBody_phase (l : nat) E :
  hoare (fun s => AtLoop maxR l s /\ retryTest l (Graph.currentState s) = true)
        (Graph.retryBody (l + 1)) (fun _ => AtLoop maxR (l + 1)) E.
Proof.
  unfold Graph.retryBody.
  set (turn := first_pass ++ retry_turns l).
  apply (hoare_block_run _ (InTurn maxR l turn)
           (fun s => InTurn maxR l (turn ++ [Node.coder]) s /\ Coded s) _ Node.coder).
  - intros s [[Hb [Hl [Hcoding [Ht [Hout Hshape]]]]] Htest]. unfold retryTest in Htest.
    apply andb_prop in Htest. destruct Htest as [Htest _].
    apply andb_prop in Htest. destruct Htest as [Hst Hlt].
    apply Nat.ltb_lt in Hlt.
    destruct (status_eqb_spec (status (Graph.currentState s)) Status.coding) as [Hc | ];
      [ | discriminate ].
    specialize (Hcoding Hc). destruct Hb as [[H1 [H2 H3]] [H4 [H5 H6]]].
    unfold InTurn, Base, Good, numbered, step_assign; cbn.
    repeat split; auto; try lia.
    + now rewrite <- Hcoding.
    + destruct (completedAt (Graph.currentState s)) eqn:Hat; [ | reflexivity ].
      assert (status (Graph.currentState s) = Status.complete) by (apply Ht; discriminate).
      congruence.
    + destruct Hout as [[Hf _] | [_ [r [[_ Hres] [[Hs _] | [_ Hpass]]]]]];
        [ congruence | congruence | eauto ].
    + destruct Hshape as [Hs | [k [_ [_ Hf]]]]; [ exact Hs | congruence ].
  - apply InTurn_persist.
  - intros s u m [Hb [Hr [Hl [Ht [Hq Hc]]]]] Hrun. apply run_effect in Hrun.
    destruct (Good_other Node.coder _ u ltac:(discriminate) Hrun (proj1 Hb))
      as [Hg [Hr' [Ht' [Hq' Hst]]]].
    unfold InTurn, Coded, step_assign, step_called; cbn [Graph.trace Graph.currentState].
    split.
    + split; [ apply Base_called; auto; [ discriminate | ] | ].
      { intros _. right. split; [ lia | exact Hq ]. }
      split; [ congruence | ]. split; [ exact Hl | ]. split; [ congruence | ].
      split; [ now rewrite Hq' | ].
      rewrite calledNodes_app. cbn. now rewrite Hc.
    + rewrite last_call_called.
      destruct (effect_failed _ _ _ Hrun) as [[Hf Hs] | [Hf Hs]].
      * right. auto.
      * left. destruct Hst as [Hst | Hst]; [ exact Hst | contradiction ].
  - apply hoare_bind with
      (R := fun _ s => InTurn maxR l (turn ++ [Node.coder]) s /\ Coded s).
    { apply hoare_persist. intros s [Hin Hst]. split; [ now apply InTurn_persist | ].
      unfold Coded. rewrite last_call_persist. exact Hst. }
    intros _. apply hoare_current. intros c.
    destruct (status_eqb_spec (status c) Status.qa) as [Hqa | Hqa].
    + apply (qa_block (l + 1) (turn ++ [Node.coder])).
      * intros s [[[Hb [Hr [Hl [Ht [_ Hc]]]]] _] _]. auto.
      * unfold turn. rewrite <- !app_assoc. cbn. now rewrite retry_turns_succ.
      * apply hoare_persist, AtLoop_persist.
    + apply hoare_ret. intros s [[[Hb [Hr [Hl [Ht [_ Hc]]]]] Hst] Hcur].
      assert (Hf : status (Graph.currentState s) = Status.failed
                   /\ last_call_failed (Graph.trace s) = true)
        by (destruct Hst as [Hst | Hst]; [ congruence | exact Hst ]).
      destruct Hf as [Hf Hlast].
      split; [ exact Hb | ]. split; [ exact Hl | ].
      split; [ rewrite Hf; discriminate | ].
      split; [ congruence | ].
      split; [ left; auto | ].
      right. exists l. split; [ reflexivity | ]. split; [ | exact Hf ].
      rewrite Hc. unfold turn. now rewrite <- app_assoc.
Qed.

(** The loop ends on its test, never for want of fuel. *)
Lemma retryLoop_phase E (fuel : nat) :
  forall l, maxR <= fuel + l ->
    hoare (AtLoop maxR l) (Graph.retryLoop fuel l)
          (fun _ s => exists l', AtLoop maxR l' s
                                 /\ retryTest l' (Graph.currentState s) = false) E.
Proof.
  induction fuel as [ | fuel IH]; intros l Hfuel; cbn [Graph.retryLoop];
    apply hoare_current; intros c;
    fold (retryTest l c); destruct (retryTest l c) eqn:Htest;
    try (apply hoare_ret; intros s [Hs Hc]; exists l; split; [ exact Hs | now rewrite Hc ]).
  - apply hoare_ret. intros s [[_ [Hl _]] _]. lia.
  - apply hoare_bind with (R := fun _ => AtLoop maxR (l + 1));
      [ | intros _; apply IH; lia ].
    eapply hoare_pre; [ apply retryBody_phase | ].
    intros s [Hs Hc]. split; [ exact Hs | now rewrite Hc ].
Qed.

Lemma tryBlock_phase :
  hoare (Early maxR 0) Graph.tryBlock (fun _ => Done maxR) (fun _ => False).
Proof.
  unfold Graph.tryBlock.
  assert (Hpersist : forall k, hoare (Early maxR k) Graph.persist
                                     (fun _ => Early maxR k) (fun _ => False)).
  { intros k. apply hoare_persist. intros s [Hb [Hr [Ht [Hq Hc]]]].
    split; [ now apply Base_persist | ]. split; [ exact Hr | ]. split; [ exact Ht | ].
    split; [ exact Hq | ].
    unfold step_persist; cbn [Graph.trace]. rewrite calledNodes_app. cbn.
    now rewrite app_nil_r. }
  apply (early_block 0 _ Node.scout); [ discriminate | reflexivity | ].
  apply hoare_bind with (R := fun _ => Early maxR 1); [ apply Hpersist | intros _ ].
  apply (early_block 1 _ Node.architect); [ discriminate | reflexivity | ].
  apply hoare_bind with (R := fun _ => Early maxR 2); [ apply Hpersist | intros _ ].
  apply (early_block 2 _ Node.coder); [ discriminate | reflexivity | ].
  apply hoare_bind with (R := fun _ => Early maxR 3); [ apply Hpersist | intros _ ].
  apply (qa_block 0 (firstn 3 first_pass)).
  { intros s [Hb [Hr [Ht [_ Hc]]]]. auto. }
  { reflexivity. }
  apply hoare_bind with (R := fun _ => AtLoop maxR 0);
    [ apply hoare_persist, AtLoop_persist | intros _ ].
  apply hoare_current. intros c.
  apply (hoare_pure (maxRetries c = maxR)).
  { intros s [[[[Hmax _] _] _] <-]. exact Hmax. }
  intros Hmax.
  eapply hoare_pre; [ | intros s [Hs _]; exact Hs ].
  apply hoare_bind with
    (R := fun _ s => exists l, AtLoop maxR l s
                               /\ retryTest l (Graph.currentState s) = false);
    [ apply retryLoop_phase; lia | intros _ ].
  apply hoare_current. intros c'.
  destruct (status_eqb_spec (status c') Status.failed) as [Hf | Hf]; cbn [negb].
  - apply hoare_ret. intros s [[l [[Hb [Hl [_ [Ht [Hout Hshape]]]]] _]] Hc].
    split; [ exact Hb | ]. split; [ now exists l | ]. left.
    split; [ congruence | ]. split.
    + destruct (completedAt (Graph.currentState s)) eqn:Hat; [ | reflexivity ].
      assert (status (Graph.currentState s) = Status.complete) by (apply Ht; discriminate).
      congruence.
    + destruct Hout as [[_ Hlast] | [_ [r [_ [[Hst _] | [Hst _]]]]]];
        [ exact Hlast | congruence | congruence ].
  - apply hoare_now. intros t. apply hoare_assign.
    intros s [[l [[Hb [Hl [Hcoding [Ht [Hout Hshape]]]]] Htest]] Hc].
    split; [ exact Hb | ]. split.
    { exists l. split; [ exact Hl | ]. left.
      destruct Hshape as [Hs | [k [_ [_ Hst]]]]; [ exact Hs | congruence ]. }
    right. unfold step_assign; cbn [Graph.trace Graph.currentState].
    split; [ reflexivity | ]. split; [ discriminate | ].
    destruct Hout as [[Hst _] | [Hlast [r [Hcar Hres]]]]; [ congruence | ].
    split; [ exact Hlast | ]. exists r. split; [ exact Hcar | ].
    destruct Hres as [[_ Hpass] | [Hst Hpass]]; [ now left | right ].
    split; [ exact Hpass | ]. cbn.
    specialize (Hcoding Hst). unfold retryTest in Htest.
    assert (Hm : maxRetries (Graph.currentState s) = maxR) by apply Hb.
    rewrite Hst, Hm in Htest. cbn [Status.eqb andb] in Htest.
    apply andb_false_iff in Htest. destruct Htest as [Htest | Htest];
      apply Nat.ltb_ge in Htest; lia.
Qed.

Lemma Done_persist (s : Graph.OrchState) : Done maxR s -> Done maxR (step_persist s).
Proof.
  intros [Hb [Hshape Hst]]. split; [ now apply Base_persist | ]. split.
  - unfold step_persist; cbn [Graph.trace Graph.currentState].
    rewrite calledNodes_app. cbn. rewrite app_nil_r. exact Hshape.
  - rewrite last_call_persist. exact Hst.
Qed.

Lemma runFrom_phase (initial : AgentState) (m : MState) :
  maxRetries initial = maxR -> retryCount initial = 0 -> attemptHistory initial = [] ->
  decisionLog initial = [] -> completedAt initial = None -> qaResult initial = None ->
  Done maxR (Graph.runFrom initial m)
  /\ exists rest, Graph.persisted (Graph.trace (Graph.runFrom initial m))
                  = rest ++ [Graph.currentState (Graph.runFrom initial m)].
Proof.
  intros Hmax Hretry Hattempts Hlog Hat Hqa. unfold Graph.runFrom.
  set (Final := fun s : Graph.OrchState =>
                  Done maxR s /\ exists rest, Graph.persisted (Graph.trace s)
                                              = rest ++ [Graph.currentState s]).
  assert (H : hoare (fun s => s = Graph.mkOrchState m [] initial)
                (bind (Graph.updateRedisState initial)
                   (fun _ => bind (tryCatch Graph.tryBlock Graph.catchBlock)
                                  (fun _ => Graph.persist)))
                (fun _ => Final) (fun _ => False)).
  { apply hoare_bind with (R := fun _ => Early maxR 0).
    - intros s ->. cbn.
      assert (Hg : Good maxR initial).
      { unfold Good, numbered. rewrite Hmax, Hretry, Hattempts, Hlog.
        repeat split; constructor. }
      repeat split; auto; try apply Hg; repeat constructor; apply Hg.
    - intros _. apply hoare_bind with (R := fun _ => Done maxR).
      + apply hoare_tryCatch with (E' := fun _ => False);
          [ apply tryBlock_phase | intros e s [] ].
      + intros _. apply hoare_persist. intros s Hdone. split.
        * now apply Done_persist.
        * unfold step_persist; cbn [Graph.trace Graph.currentState].
          rewrite persisted_app. cbn. eauto. }
  specialize (H _ eq_refl).
  destruct (bind _ _ _) as [[a | e] s']; [ exact H | destruct H ].
Qed.

End Phases.

(* ===================================================================== *)
(** * The orchestrator: what a job does                               *)
(* ===================================================================== *)

Section Job.
Context `{RT : Runtime}.

(** X19.  On a state into which an update of [qaNode] was merged,
    [routeAfterQA] always answers [END]: when the validator asks for a retry
    it sets [currentNode] to [coder] itself, and the route to the coder
    requires [currentNode] to be [qa]. *)
Theorem routeAfterQA_never_retries (state : AgentState) (m m' : MState) (update : Partial) :
  QA.qaNode state m = (Ok update, m') ->
  Graph.routeAfterQA (merge state update) = Graph.END.
Proof.
  intros Hrun. apply (run_effect Node.qa) in Hrun.
  destruct Hrun as [[entry [_ ->]] | [_ [r [now ->]]]]; [ reflexivity | ].
  unfold QA.decideNextStep.
  destruct (passed r); [ reflexivity | ].
  destruct (negb false && _); reflexivity.
Qed.

Lemma runAgent_done (target : string) (instructions id : option string) (m : MState) :
  Done 3 (Graph.runAgent target instructions id m)
  /\ exists rest,
       Graph.persisted (Graph.trace (Graph.runAgent target instructions id m))
       = rest ++ [Graph.currentState (Graph.runAgent target instructions id m)].
Proof. apply runFrom_phase; [ lia | reflexivity .. ]. Qed.

(** X12.  In every state of a job, written or returned, the attempt
    history has [retryCount] entries, numbered 1, 2, ..., [retryCount] -- the
    counter of the retry loop and the counter that [qaNode] increments never
    disagree -- and [retryCount] never exceeds [maxRetries]. *)
Theorem attempts_are_numbered (target : string) (instructions id : option string)
  (m : MState) :
  let job := Graph.runAgent target instructions id m in
  Forall (fun st => map attempt (attemptHistory st) = seq 1 (retryCount st)
                    /\ List.length (attemptHistory st) = retryCount st
                    /\ retryCount st <= maxRetries st)
         (Graph.persisted (Graph.trace job) ++ [Graph.currentState job]).
Proof.
  cbv zeta. destruct (runAgent_done target instructions id m) as [[[Hc [Hp _]] _] _].
  destruct (runFrom_bounded (Graph.initialState target instructions id (world m)) m)
    as [Hmax [Hcount [Hstored _]]].
  { unfold retry_ok; cbn. lia. }
  fold (Graph.runAgent target instructions id m) in Hmax, Hcount, Hstored.
  assert (Hn : forall st, Good 3 st -> retry_ok st ->
                 map attempt (attemptHistory st) = seq 1 (retryCount st)
                 /\ List.length (attemptHistory st) = retryCount st
                 /\ retryCount st <= maxRetries st).
  { intros st [_ [Hst _]] Hok. split; [ exact Hst | ]. split; [ | exact Hok ].
    rewrite <- (length_map attempt), Hst. apply length_seq. }
  apply Forall_app. split.
  - rewrite Forall_forall in *. intros st Hin. apply Hn; [ now apply Hp | now apply Hstored ].
  - constructor; [ | constructor ]. apply Hn; [ exact Hc | ].
    unfold retry_ok. rewrite Hmax. exact Hcount.
Qed.

(** X13.  The validator is only ever invoked on a state with
    [retryCount < maxRetries]: within a job a result that does not pass is
    always sent back to the coder, and the decision [Max retries exhausted]
    is never logged -- every decision of the validator in the returned log
    is [Validation passed] or [Retrying with fixes]. *)
Theorem validator_always_has_room (target : string) (instructions id : option string)
  (m : MState) :
  let job := Graph.runAgent target instructions id m in
  Forall qa_has_room (Graph.trace job)
  /\ Forall qa_decision_ok (decisionLog (Graph.currentState job)).
Proof.
  cbv zeta. destruct (runAgent_done target instructions id m) as [[[Hc [_ [Hq _]]] _] _].
  split; [ exact Hq | apply Hc ].
Qed.

(** X14.  The coder is invoked either on a fresh state ([retryCount = 0],
    no validation result) or, in a retry, on a state with a positive
    [retryCount] that carries the result of a validation that did not pass
    -- the issues its prompt lists as [PREVIOUS ISSUES TO FIX]. *)
Theorem coder_is_briefed_on_retry (target : string) (instructions id : option string)
  (m : MState) :
  Forall coder_briefed (Graph.trace (Graph.runAgent target instructions id m)).
Proof. destruct (runAgent_done target instructions id m) as [[[_ [_ [_ Hb]]] _] _]. exact Hb. Qed.



Lemma budget_retry_turns (k : nat) : list_sum (map budget (retry_turns k)) = 8 * k.
Proof.
  unfold retry_turns. induction k as [ | k IH]; [ reflexivity | ].
  cbn [repeat List.concat]. rewrite map_app, list_sum_app, IH. cbn. lia.
Qed.


(** X16.  A job ends [complete] or [failed], and the state it returns is
    the last one it wrote to the store.  A complete job has a completion
    time; a failed one has none. *)
Theorem job_ends_complete_or_failed (target : string) (instructions id : option string)
  (m : MState) :
  let job := Graph.runAgent target instructions id m in
  ((status (Graph.currentState job) = Status.complete
    /\ completedAt (Graph.currentState job) <> None)
   \/ (status (Graph.currentState job) = Status.failed
       /\ completedAt (Graph.currentState job) = None))
  /\ exists earlier,
       Graph.persisted (Graph.trace job) = earlier ++ [Graph.currentState job].
Proof.
  cbv zeta. destruct (runAgent_done target instructions id m) as [[_ [_ Hst]] Hlast].
  split; [ | exact Hlast ].
  destruct Hst as [[Hs [Ht _]] | [Hs [Ht _]]]; auto.
Qed.

(** X17.  The outcome of a job is that of its last invocation: the job
    ends [failed] exactly when the last node invoked returned a failure.
    Otherwise it ends [complete] and carries generated code and a validation
    result, which passes or else was obtained with the third and last
    attempt ([retryCount = 3]). *)
Theorem job_outcome_is_last_invocation (target : string)
  (instructions id : option string) (m : MState) :
  let job := Graph.runAgent target instructions id m in
  if last_call_failed (Graph.trace job)
  then status (Graph.currentState job) = Status.failed
  else status (Graph.currentState job) = Status.complete
       /\ exists r, carries (Graph.currentState job) r
                    /\ (passed r = true
                        \/ (passed r = false /\ retryCount (Graph.currentState job) = 3)).
Proof.
  cbv zeta. destruct (runAgent_done target instructions id m) as [[_ [_ Hst]] _].
  destruct Hst as [[Hs [_ ->]] | [Hs [_ [-> Hr]]]]; auto.
Qed.

Lemma runFrom_journal (initial : AgentState) (m : MState) :
  List.length (journal (Graph.mstate (Graph.runFrom initial m)))
  <= List.length (journal m)
     + list_sum (map budget (Graph.calledNodes (Graph.trace (Graph.runFrom initial m)))).
Proof.
  apply (runFrom_keeps
           (fun s => List.length (journal (Graph.mstate s))
                     <= List.length (journal m)
                        + list_sum (map budget (Graph.calledNodes (Graph.trace s))))).
  - intros s st n H. exact H.
  - intros s l H. exact H.
  - intros s t H. exact H.
  - intros s H. unfold step_persist; cbn [Graph.trace Graph.mstate].
    rewrite calledNodes_app. cbn. now rewrite app_nil_r.
  - intros s n u m' H Hrun. unfold step_assign, step_called; cbn [Graph.trace Graph.mstate].
    rewrite calledNodes_app, map_app, list_sum_app. cbn.
    pose proof (costs_stage n (Graph.currentState s) (Graph.mstate s)) as Hcost.
    rewrite Hrun in Hcost. cbn [snd] in Hcost. lia.
  - cbn. lia.
Qed.

(** X18.  A whole job makes at most 300 provider calls: 276 of the
    architect, and four for each of at most three coder invocations and
    three validations. *)
Theorem job_call_budget (target : string) (instructions id : option string) (m : MState) :
  List.length (journal (Graph.mstate (Graph.runAgent target instructions id m)))
  <= List.length (journal m) + 300.
Proof.
  pose proof (runFrom_journal (Graph.initialState target instructions id (world m)) m) as H.
  destruct (runAgent_done target instructions id m) as [[_ [[l [Hl Hs]] _]] _].
  unfold Graph.runAgent in *.
  destruct Hs as [Hs | [k [-> [Hs _]]]]; rewrite Hs in H;
    rewrite !map_app, !list_sum_app, budget_retry_turns in H; cbn in H; lia.
Qed.

End Job.

(** The route after a validation that scores 72 and asks for a retry. *)
Lemma routeAfterQA_never_retries_witness :
  exists update m',
    @QA.qaNode Scripted.runtime Scripted.generated
      (Scripted.begin (Scripted.mkScript (Ok Scripted.page) [Ok "{72}"])) = (Ok update, m')
    /\ p_status update = Some Status.coding
    /\ Graph.routeAfterQA (merge Scripted.generated update) = Graph.END.
Proof.
  eexists _, _. split; [ vm_compute; reflexivity | ]. split; [ reflexivity | ].
  eapply (@routeAfterQA_never_retries Scripted.runtime) with
    (state := Scripted.generated)
    (m := Scripted.begin (Scripted.mkScript (Ok Scripted.page) [Ok "{72}"])).
  vm_compute. reflexivity.
Defined.

(* ===================================================================== *)
(** * The stream: decisions and errors                                *)
(* ===================================================================== *)

Ltac split_cases :=
  repeat match goal with
    | |- context [match ?x with _ => _ end] => destruct x
    end.

Section Replay.

Lemma decisionEvents_map_decision (l : list Decision) :
  decisionEvents (map (fun d => Stream.decision_event (d_node d) (decision d) (reasoning d)) l)
  = map decision_sent l.
Proof. induction l as [ | d l IH]; cbn; [ reflexivity | now rewrite <- IH ]. Qed.

Lemma jobErrorEvents_map_error (l : list ErrorEntry) :
  jobErrorEvents
    (map (fun e => Stream.error_event (e_error e) (e_node e) (Some (e_timestamp e))) l)
  = map error_sent l.
Proof. induction l as [ | d l IH]; cbn; [ reflexivity | now rewrite <- IH ]. Qed.

Lemma decisionEvents_map_error (l : list ErrorEntry) :
  decisionEvents
    (map (fun e => Stream.error_event (e_error e) (e_node e) (Some (e_timestamp e))) l) = [].
Proof. induction l as [ | d l IH]; cbn; [ reflexivity | exact IH ]. Qed.

Lemma jobErrorEvents_map_decision (l : list Decision) :
  jobErrorEvents
    (map (fun d => Stream.decision_event (d_node d) (decision d) (reasoning d)) l) = [].
Proof. induction l as [ | d l IH]; cbn; [ reflexivity | exact IH ]. Qed.

Lemma decisionEvents_map_issue (l : list Issue) :
  decisionEvents
    (map (fun i => Stream.qa_issue (description i) (suggestion i)
                                   (or_default (severity i) "medium")) l) = [].
Proof. induction l as [ | d l IH]; cbn; [ reflexivity | exact IH ]. Qed.

Lemma jobErrorEvents_map_issue (l : list Issue) :
  jobErrorEvents
    (map (fun i => Stream.qa_issue (description i) (suggestion i)
                                   (or_default (severity i) "medium")) l) = [].
Proof. induction l as [ | d l IH]; cbn; [ reflexivity | exact IH ]. Qed.


(** One poll of an open stream on a state: the log entries it sends and
    the counts it keeps. *)
Lemma pollOpen_logs (p : Stream.Poller) (tick : Stream.Tick) (st : AgentState) :
  Stream.timedOut tick = false -> Stream.jobData tick = Some st ->
  let p' := fst (Stream.pollOpen p tick) in
  let evs := snd (Stream.pollOpen p tick) in
  decisionEvents evs
  = (if Stream.lastDecisionCount p <? List.length (decisionLog st)
     then map decision_sent (skipn (Stream.lastDecisionCount p) (decisionLog st)) else [])
  /\ jobErrorEvents evs
     = (if Stream.lastErrorCount p <? List.length (errors st)
        then map error_sent (skipn (Stream.lastErrorCount p) (errors st)) else [])
  /\ Stream.lastDecisionCount p'
     = (if Stream.lastDecisionCount p <? List.length (decisionLog st)
        then List.length (decisionLog st) else Stream.lastDecisionCount p)
  /\ Stream.lastErrorCount p'
     = (if Stream.lastErrorCount p <? List.length (errors st)
        then List.length (errors st) else Stream.lastErrorCount p)
  /\ Stream.closed p' = terminal (status st).
Proof.
  intros Htime Hdata. cbv zeta. unfold Stream.pollOpen. rewrite Htime, Hdata.
  cbn [fst snd Stream.lastDecisionCount Stream.lastErrorCount Stream.closed].
  split; [ | split; [ | split; [ reflexivity | split; [ reflexivity | ] ] ] ].
  - unfold decisionEvents at 1. rewrite !filter_app. fold decisionEvents.
    match goal with
    | |- ?s1 ++ ?s2 ++ ?s3 ++ ?s4 ++ ?s5 ++ ?s6 ++ ?s7 = _ =>
        assert (H1 : s1 = []) by (split_cases; reflexivity);
        assert (H3 : s3 = [])
          by (destruct (_ <? _); [ apply decisionEvents_map_error | reflexivity ]);
        assert (H4 : s4 = [])
          by (destruct (qaResult st); [ | reflexivity ];
              destruct (_ && _); [ apply decisionEvents_map_issue | reflexivity ]);
        assert (H5 : s5 = []) by (split_cases; reflexivity);
        assert (H6 : s6 = []) by (split_cases; reflexivity);
        assert (H7 : s7 = []) by (split_cases; reflexivity);
        rewrite H1, H3, H4, H5, H6, H7
    end.
    cbn [app]. rewrite app_nil_r.
    destruct (Stream.lastDecisionCount p <? List.length (decisionLog st));
      [ apply decisionEvents_map_decision | reflexivity ].
  - unfold jobErrorEvents at 1. rewrite !filter_app. fold jobErrorEvents.
    match goal with
    | |- ?s1 ++ ?s2 ++ ?s3 ++ ?s4 ++ ?s5 ++ ?s6 ++ ?s7 = _ =>
        assert (H1 : s1 = []) by (split_cases; reflexivity);
        assert (H2 : s2 = [])
          by (destruct (_ <? _); [ apply jobErrorEvents_map_decision | reflexivity ]);
        assert (H4 : s4 = [])
          by (destruct (qaResult st); [ | reflexivity ];
              destruct (_ && _); [ apply jobErrorEvents_map_issue | reflexivity ]);
        assert (H5 : s5 = []) by (split_cases; reflexivity);
        assert (H6 : s6 = []) by (split_cases; reflexivity);
        assert (H7 : s7 = []) by (split_cases; reflexivity);
        rewrite H1, H2, H4, H5, H6, H7
    end.
    cbn [app]. rewrite app_nil_r.
    destruct (Stream.lastErrorCount p <? List.length (errors st));
      [ apply jobErrorEvents_map_error | reflexivity ].
  - unfold terminal. destruct (status st); reflexivity.
Qed.

Lemma events_closed (p : Stream.Poller) (ticks : list Stream.Tick) :
  Stream.closed p = true -> Stream.events p ticks = [].
Proof.
  intros Hp. induction ticks as [ | tick rest IH]; [ reflexivity | ].
  cbn [Stream.events]. unfold Stream.poll. rewrite Hp. exact IH.
Qed.

Lemma last_state_in (l : list AgentState) (st : AgentState) :
  last_state l = Some st -> In st l.
Proof.
  revert st. induction l as [ | x l IH]; intros st H; [ discriminate | ].
  cbn [last_state] in H. destruct (last_state l) as [y | ].
  - right. apply IH. exact H.
  - left. congruence.
Qed.

Lemma skipn_prefix {A : Type} (base added : list A) :
  skipn (List.length base) (base ++ added) = added.
Proof. induction base as [ | x base IH]; [ reflexivity | exact IH ]. Qed.

Lemma skipn_chain {A : Type} (base log log' : list A) :
  extends base log -> extends log log' ->
  skipn (List.length base) log ++ skipn (List.length log) log'
  = skipn (List.length base) log'.
Proof.
  intros [a ->] [b ->]. rewrite (skipn_prefix (base ++ a)), skipn_prefix.
  now rewrite <- app_assoc, skipn_prefix.
Qed.

Lemma sent_from {A B : Type} (f : A -> B) (count : nat) (base log : list A) :
  count = List.length base -> extends base log ->
  (if count <? List.length log then map f (skipn count log) else [])
  = map f (skipn (List.length base) log)
  /\ (if count <? List.length log then List.length log else count) = List.length log.
Proof.
  intros -> [added ->]. rewrite length_app, skipn_prefix.
  destruct (List.length base <? List.length base + List.length added) eqn:Hlt; [ auto | ].
  apply Nat.ltb_ge in Hlt.
  assert (added = []) by (destruct added; [ reflexivity | cbn in Hlt; lia ]).
  subst added. cbn. split; [ reflexivity | lia ].
Qed.

Lemma events_replay (ticks : list Stream.Tick) :
  forall (p : Stream.Poller) (decisions : list Decision) (entries : list ErrorEntry),
    Stream.closed p = false ->
    Stream.lastDecisionCount p = List.length decisions ->
    Stream.lastErrorCount p = List.length entries ->
    ForallOrdPairs log_grows (polled ticks) ->
    Forall (fun st => extends decisions (decisionLog st) /\ extends entries (errors st))
           (polled ticks) ->
    decisionEvents (Stream.events p ticks)
    = match last_state (polled ticks) with
      | Some st => map decision_sent (skipn (List.length decisions) (decisionLog st))
      | None => []
      end
    /\ jobErrorEvents (Stream.events p ticks)
       = match last_state (polled ticks) with
         | Some st => map error_sent (skipn (List.length entries) (errors st))
         | None => []
         end.
Proof.
  induction ticks as [ | tick rest IH]; intros p decisions entries Hopen Hd He Hchain Hbase;
    [ split; reflexivity | ].
  cbn [Stream.events polled] in *. unfold Stream.poll. rewrite Hopen.
  destruct (Stream.timedOut tick) eqn:Htime.
  { unfold Stream.pollOpen. rewrite Htime. cbn [last_state].
    rewrite events_closed by reflexivity. split; reflexivity. }
  destruct (Stream.jobData tick) as [st | ] eqn:Hdata.
  2: { unfold Stream.pollOpen. rewrite Htime, Hdata. cbn [app]. now apply IH. }
  destruct (pollOpen_logs p tick st Htime Hdata) as [Hevd [Heve [Hcd [Hce Hclosed]]]].
  destruct (Stream.pollOpen p tick) as [p' evs]. cbn [fst snd] in *.
  inversion Hbase as [ | ? ? [Hxd Hxe] Hbase']; subst.
  destruct (sent_from decision_sent _ _ _ Hd Hxd) as [Hsd Hnd].
  destruct (sent_from error_sent _ _ _ He Hxe) as [Hse Hne].
  rewrite Hsd in Hevd. rewrite Hse in Heve. rewrite Hnd in Hcd. rewrite Hne in Hce.
  unfold decisionEvents, jobErrorEvents. rewrite !filter_app.
  fold (decisionEvents evs) (jobErrorEvents evs)
       (decisionEvents (Stream.events p' rest)) (jobErrorEvents (Stream.events p' rest)).
  rewrite Hevd, Heve.
  destruct (terminal (status st)) eqn:Hterm.
  - rewrite events_closed by exact Hclosed. cbn. rewrite !app_nil_r. auto.
  - inversion Hchain as [ | ? ? Hfirst Hchain']; subst.
    destruct (IH p' (decisionLog st) (errors st) Hclosed Hcd Hce Hchain') as [IHd IHe].
    { eapply Forall_impl; [ | exact Hfirst ]. intros x Hx. exact Hx. }
    rewrite IHd, IHe. cbn [last_state].
    destruct (last_state (polled rest)) as [st' | ] eqn:Hlast.
    + apply last_state_in in Hlast.
      rewrite Forall_forall in Hfirst. destruct (Hfirst st' Hlast) as [Hgd Hge].
      rewrite <- !map_app, !skipn_chain by assumption. auto.
    + rewrite !app_nil_r. auto.
Qed.

(** X20.  Over states whose logs only grow, the stream sends every decision
    and every error exactly once and in order: its [decision] events and its
    [error] events are the decision log and the error list of the last state
    it read before it closed (none when it read no state). *)
Theorem stream_replays_logs_once (ticks : list Stream.Tick) :
  ForallOrdPairs log_grows (polled ticks) ->
  decisionEvents (Stream.stream ticks)
  = match last_state (polled ticks) with
    | Some st => map decision_sent (decisionLog st)
    | None => []
    end
  /\ jobErrorEvents (Stream.stream ticks)
     = match last_state (polled ticks) with
       | Some st => map error_sent (errors st)
       | None => []
       end.
Proof.
  intros Hchain. unfold Stream.stream, Stream.initialEvent. cbn [decisionEvents jobErrorEvents filter].
  apply (events_replay ticks Stream.start [] []); try reflexivity; [ exact Hchain | ].
  apply Forall_forall. intros st _. split; now eexists.
Qed.

End Replay.

(** The stream of a job whose extraction succeeds and whose planning fails. *)
Lemma stream_replays_logs_once_witness :
  ForallOrdPairs log_grows (polled Scripted.polls)
  /\ decisionEvents (Stream.stream Scripted.polls) = [decision_sent Scripted.analysed]
  /\ jobErrorEvents (Stream.stream Scripted.polls) = [error_sent Scripted.noPlan].
Proof.
  assert (H : ForallOrdPairs log_grows (polled Scripted.polls)).
  { cbn. repeat constructor; try (now exists []); try (now eexists). }
  split; [ exact H | ].
  exact (stream_replays_logs_once Scripted.polls H).
Defined.

Section EndToEnd.
Context `{RT : Runtime}.

Lemma polled_reads_incl (l : list AgentState) : incl (polled (map reads l)) l.
Proof.
  induction l as [ | st l IH]; cbn; [ apply incl_refl | ].
  destruct (terminal (status st)).
  - intros x [<- | []]. now left.
  - intros x [<- | Hx]; [ now left | right; now apply IH ].
Qed.

Lemma polled_reads_chain (R : AgentState -> AgentState -> Prop) (l : list AgentState) :
  ForallOrdPairs R l -> ForallOrdPairs R (polled (map reads l)).
Proof.
  induction 1 as [ | st l Hst Hl IH]; cbn; [ constructor | ].
  destruct (terminal (status st)); constructor; try constructor; auto.
  apply Forall_forall. intros x Hx. rewrite Forall_forall in Hst.
  apply Hst. now apply polled_reads_incl.
Qed.

Lemma polled_reads_last (l : list AgentState) (final : AgentState) :
  In final l -> terminal (status final) = true ->
  exists st before after,
    l = before ++ st :: after
    /\ Forall (fun x => terminal (status x) = false) before
    /\ terminal (status st) = true
    /\ last_state (polled (map reads l)) = Some st.
Proof.
  induction l as [ | x l IH]; intros Hin Hterm; [ destruct Hin | ].
  cbn [map polled reads Stream.timedOut Stream.jobData].
  destruct (terminal (status x)) eqn:Hx.
  - exists x, [], l. repeat split; auto.
  - destruct Hin as [-> | Hin]; [ congruence | ].
    destruct (IH Hin Hterm) as [st [before [after [-> [Hb [Hst Hlast]]]]]].
    exists st, (x :: before), after. cbn [last_state]. rewrite Hlast.
    repeat split; auto.
Qed.

(** X21.  A stream that polls every state a job writes closes on the first
    state written with status [complete] or [failed], and sends, each once
    and in order, the decisions and the errors of that state; the state the
    job returns extends both logs. *)
Theorem job_stream_replays_logs (target : string) (instructions id : option string)
  (m : MState) :
  let job := Graph.runAgent target instructions id m in
  let events := Stream.stream (map reads (Graph.persisted (Graph.trace job))) in
  exists st before after,
    Graph.persisted (Graph.trace job) = before ++ st :: after
    /\ Forall (fun x => terminal (status x) = false) before
    /\ terminal (status st) = true
    /\ decisionEvents events = map decision_sent (decisionLog st)
    /\ jobErrorEvents events = map error_sent (errors st)
    /\ log_grows st (Graph.currentState job).
Proof.
  cbv zeta.
  destruct (runAgent_done target instructions id m) as [[_ [_ Hst]] [earlier Hlast]].
  destruct (runFrom_log_grows (Graph.initialState target instructions id (world m)) m)
    as [Hchain Hfinal].
  fold (Graph.runAgent target instructions id m) in Hchain, Hfinal.
  set (job := Graph.runAgent target instructions id m) in *.
  destruct (polled_reads_last (Graph.persisted (Graph.trace job)) (Graph.currentState job))
    as [st [before [after [Hsplit [Hbefore [Hterm Hl]]]]]].
  { rewrite Hlast. apply in_or_app. right. now left. }
  { destruct Hst as [[-> _] | [-> _]]; reflexivity. }
  exists st, before, after.
  split; [ exact Hsplit | ]. split; [ exact Hbefore | ]. split; [ exact Hterm | ].
  destruct (events_replay (map reads (Graph.persisted (Graph.trace job))) Stream.start [] [])
    as [Hd He]; try reflexivity.
  { now apply polled_reads_chain. }
  { apply Forall_forall. intros x _. split; now eexists. }
  rewrite Hl in Hd, He. unfold Stream.stream, Stream.initialEvent.
  cbn [decisionEvents jobErrorEvents filter]. fold decisionEvents jobErrorEvents.
  split; [ exact Hd | ]. split; [ exact He | ].
  rewrite Forall_forall in Hfinal. apply Hfinal.
  rewrite Hsplit. apply in_or_app. right. now left.
Qed.

End EndToEnd.

Section Closing.

Lemma events_app (p : Stream.Poller) (a b : list Stream.Tick) :
  Stream.events p (a ++ b) = Stream.events p a ++ Stream.events (after_ticks p a) b.
Proof.
  revert p. induction a as [ | tick a IH]; intros p; [ reflexivity | ].
  cbn [app Stream.events after_ticks]. destruct (Stream.poll p tick) as [p' evs].
  cbn [fst]. now rewrite IH, app_assoc.
Qed.

Lemma poll_closes (p : Stream.Poller) (tick : Stream.Tick) :
  closes tick = true -> Stream.closed (fst (Stream.poll p tick)) = true.
Proof.
  unfold closes, Stream.poll. intros H.
  destruct (Stream.closed p) eqn:Hp; [ exact Hp | ].
  destruct (Stream.timedOut tick) eqn:Htime.
  - unfold Stream.pollOpen. now rewrite Htime.
  - destruct (Stream.jobData tick) as [st | ] eqn:Hdata; [ | discriminate ].
    destruct (pollOpen_logs p tick st Htime Hdata) as [_ [_ [_ [_ Hc]]]].
    cbn [orb] in H. congruence.
Qed.

Lemma after_ticks_closed (p : Stream.Poller) (ticks : list Stream.Tick) :
  Stream.closed p = true -> after_ticks p ticks = p.
Proof.
  intros Hp. induction ticks as [ | tick rest IH]; [ reflexivity | ].
  cbn [after_ticks]. unfold Stream.poll. rewrite Hp. exact IH.
Qed.

Lemma after_ticks_app (p : Stream.Poller) (a b : list Stream.Tick) :
  after_ticks p (a ++ b) = after_ticks (after_ticks p a) b.
Proof. revert p. induction a as [ | tick a IH]; intros p; [ reflexivity | apply IH ]. Qed.

(** X22.  After a poll that finds the ten minutes over or the job
    [complete] or [failed], the stream sends nothing more, whatever is
    written to the store afterwards. *)
Theorem stream_is_silent_once_closed (before after : list Stream.Tick)
  (tick : Stream.Tick) :
  closes tick = true ->
  Stream.stream (before ++ tick :: after) = Stream.stream (before ++ [tick]).
Proof.
  intros Hc. unfold Stream.stream. f_equal.
  change (tick :: after) with ([tick] ++ after). rewrite app_assoc.
  rewrite (events_app _ (before ++ [tick]) after).
  rewrite (events_closed (after_ticks Stream.start (before ++ [tick])) after);
    [ apply app_nil_r | ].
  rewrite after_ticks_app. cbn [after_ticks]. now apply poll_closes.
Qed.

End Closing.

(** The same stream, with and without the poll that follows its end. *)
Lemma stream_is_silent_once_closed_witness :
  closes (reads (Scripted.logged Status.failed (Some Node.architect)
                   [Scripted.analysed] [Scripted.noPlan])) = true
  /\ Stream.stream Scripted.polls
     = Stream.stream
         [ Stream.mkTick false None;
           reads (Scripted.logged Status.scouting (Some Node.scout) [] []);
           reads (Scripted.logged Status.planning (Some Node.architect)
                    [Scripted.analysed] []);
           reads (Scripted.logged Status.planning (Some Node.architect)
                    [Scripted.analysed] []);
           reads (Scripted.logged Status.failed (Some Node.architect)
                    [Scripted.analysed] [Scripted.noPlan]) ].
Proof.
  split; [ reflexivity | ].
  apply (stream_is_silent_once_closed
           [ Stream.mkTick false None;
             reads (Scripted.logged Status.scouting (Some Node.scout) [] []);
             reads (Scripted.logged Status.planning (Some Node.architect)
                      [Scripted.analysed] []);
             reads (Scripted.logged Status.planning (Some Node.architect)
                      [Scripted.analysed] []) ]
           [ reads (Scripted.logged Status.coding (Some Node.coder)
                      [Scripted.analysed] [Scripted.noPlan]) ]).
  reflexivity.
Defined.

(* ===================================================================== *)
(** * The stream: status and progress                                 *)
(* ===================================================================== *)

Section OnChange.

Lemma flat_map_none {A B C : Type} (f : B -> list C) (g : A -> B) (l : list A) :
  (forall x, f (g x) = []) -> flat_map f (map g l) = [].
Proof.
  intros H. induction l as [ | x l IH]; cbn; [ reflexivity | ]. now rewrite H, IH.
Qed.

Lemma pollOpen_changes (p : Stream.Poller) (tick : Stream.Tick) (st : AgentState) :
  Stream.timedOut tick = false -> Stream.jobData tick = Some st ->
  let p' := fst (Stream.pollOpen p tick) in
  let evs := snd (Stream.pollOpen p tick) in
  let statusChanged :=
    match Stream.lastStatus p with
    | Some s => negb (Status.eqb (status st) s)
    | None => true
    end in
  let sendProgress (n : Node.t) :=
    match Stream.lastProgress p with
    | Some 0 | None => true
    | Some last => negb (last =? Stream.progressMap n)
    end in
  statusesSent evs = (if statusChanged then [status st] else [])
  /\ Stream.lastStatus p' = (if statusChanged then Some (status st) else Stream.lastStatus p)
  /\ percentsSent evs
     = match currentNode st with
       | Some n => if sendProgress n then [Stream.progressMap n] else []
       | None => []
       end
  /\ Stream.lastProgress p'
     = match currentNode st with
       | Some n => if sendProgress n then Some (Stream.progressMap n)
                   else Stream.lastProgress p
       | None => Stream.lastProgress p
       end.
Proof.
  intros Htime Hdata. cbv zeta. unfold Stream.pollOpen. rewrite Htime, Hdata.
  cbn [fst snd Stream.lastStatus Stream.lastProgress].
  split; [ | split; [ reflexivity | split; [ | now destruct (currentNode st) ] ] ].
  - unfold statusesSent. rewrite !flat_map_app.
    match goal with
    | |- ?s1 ++ ?s2 ++ ?s3 ++ ?s4 ++ ?s5 ++ ?s6 ++ ?s7 = _ =>
        assert (H2 : s2 = [])
          by (destruct (Stream.lastDecisionCount p <? _);
              [ now apply flat_map_none | reflexivity ]);
        assert (H3 : s3 = [])
          by (destruct (Stream.lastErrorCount p <? _);
              [ now apply flat_map_none | reflexivity ]);
        assert (H4 : s4 = [])
          by (destruct (qaResult st); [ | reflexivity ];
              destruct (_ && _); [ now apply flat_map_none | reflexivity ]);
        assert (H5 : s5 = []) by (split_cases; reflexivity);
        assert (H6 : s6 = []) by (split_cases; reflexivity);
        assert (H7 : s7 = []) by (split_cases; reflexivity);
        rewrite H2, H3, H4, H5, H6, H7
    end.
    rewrite app_nil_r. split_cases; reflexivity.
  - unfold percentsSent. rewrite !flat_map_app.
    match goal with
    | |- ?s1 ++ ?s2 ++ ?s3 ++ ?s4 ++ ?s5 ++ ?s6 ++ ?s7 = _ =>
        assert (H1 : s1 = []) by (split_cases; reflexivity);
        assert (H2 : s2 = [])
          by (destruct (Stream.lastDecisionCount p <? _);
              [ now apply flat_map_none | reflexivity ]);
        assert (H3 : s3 = [])
          by (destruct (Stream.lastErrorCount p <? _);
              [ now apply flat_map_none | reflexivity ]);
        assert (H4 : s4 = [])
          by (destruct (qaResult st); [ | reflexivity ];
              destruct (_ && _); [ now apply flat_map_none | reflexivity ]);
        assert (H5 : s5 = []) by (split_cases; reflexivity);
        assert (H7 : s7 = []) by (split_cases; reflexivity);
        rewrite H1, H2, H3, H4, H5, H7
    end.
    cbn [app]. rewrite app_nil_r.
    destruct (currentNode st) as [n | ]; [ | reflexivity ].
    destruct (match Stream.lastProgress p with Some 0 | None => true
              | Some last => negb (last =? Stream.progressMap n) end); reflexivity.
Qed.

Lemma events_change (ticks : list Stream.Tick) :
  forall p, Stream.lastProgress p <> Some 0 ->
    changes (Stream.lastStatus p) (statusesSent (Stream.events p ticks))
    /\ changes (Stream.lastProgress p) (percentsSent (Stream.events p ticks)).
Proof.
  induction ticks as [ | tick rest IH]; intros p Hp; [ split; exact I | ].
  cbn [Stream.events]. unfold Stream.poll.
  destruct (Stream.closed p) eqn:Hclosed; [ cbn [app]; now apply IH | ].
  destruct (Stream.timedOut tick) eqn:Htime.
  { unfold Stream.pollOpen. rewrite Htime.
    rewrite events_closed by reflexivity. split; exact I. }
  destruct (Stream.jobData tick) as [st | ] eqn:Hdata.
  2: { unfold Stream.pollOpen. rewrite Htime, Hdata. cbn [app]. now apply IH. }
  destruct (pollOpen_changes p tick st Htime Hdata) as [Hs [Hls [Hp' Hlp]]].
  destruct (Stream.pollOpen p tick) as [p' evs]. cbn [fst snd] in *.
  unfold statusesSent, percentsSent. rewrite !flat_map_app.
  fold (statusesSent evs) (percentsSent evs)
       (statusesSent (Stream.events p' rest)) (percentsSent (Stream.events p' rest)).
  rewrite Hs, Hp'.
  assert (Hp0 : Stream.lastProgress p' <> Some 0).
  { rewrite Hlp. destruct (currentNode st) as [n | ]; [ | exact Hp ].
    destruct (match Stream.lastProgress p with Some 0 | None => true
              | Some last => negb (last =? Stream.progressMap n) end); [ | exact Hp ].
    destruct n; discriminate. }
  destruct (IH p' Hp0) as [IHs IHp]. rewrite Hls in IHs. rewrite Hlp in IHp.
  split.
  - destruct (Stream.lastStatus p) as [s | ] eqn:Hlast.
    + destruct (status_eqb_spec (status st) s) as [Heq | Hne]; cbn [negb app] in *.
      * exact IHs.
      * split; [ congruence | exact IHs ].
    + cbn [app]. split; [ discriminate | exact IHs ].
  - destruct (currentNode st) as [n | ]; [ | exact IHp ].
    destruct (Stream.lastProgress p) as [[ | last] | ] eqn:Hlast.
    + congruence.
    + destruct (Nat.eqb_spec (S last) (Stream.progressMap n)) as [Heq | Hne];
        cbn [negb app] in *.
      * exact IHp.
      * split; [ congruence | exact IHp ].
    + cbn [app]. split; [ discriminate | exact IHp ].
Qed.

(** X23.  Of the events that the polls send -- the opening event, sent
    before the first poll, set aside -- a [status] event is sent only when
    the status differs from that of the [status] event before it, and a
    [progress] event only when the percentage differs from that of the
    [progress] event before it. *)
Theorem status_and_progress_sent_on_change (ticks : list Stream.Tick) :
  changes None (statusesSent (Stream.events Stream.start ticks))
  /\ changes None (percentsSent (Stream.events Stream.start ticks)).
Proof. apply (events_change ticks Stream.start). discriminate. Qed.

End OnChange.

(* ===================================================================== *)
(** * The stream: delivery of the generated code                      *)
(* ===================================================================== *)

Section Completion.

Lemma completeEvents_if_map {A : Type} (b : bool) (f : A -> Stream.SSEEvent)
  (l : list A) :
  (forall x, match f x with Stream.complete_event _ _ => false | _ => true end = true) ->
  completeEvents (if b then map f l else []) = [].
Proof.
  intros Hf. destruct b; [ | reflexivity ].
  induction l as [ | x l IH]; [ reflexivity | ].
  cbn. specialize (Hf x). destruct (f x); try exact IH. discriminate.
Qed.

Lemma pollOpen_completion (p : Stream.Poller) (tick : Stream.Tick) (st : AgentState) :
  Stream.timedOut tick = false -> Stream.jobData tick = Some st ->
  exists evs,
    snd (Stream.pollOpen p tick)
    = evs ++ match generatedCode st with
             | Some code =>
                 if Status.eqb (status st) Status.complete
                 then [Stream.complete_event code
                         (match qaResult st with
                          | Some r => Stream.or_zero (score r)
                          | None => 0%float
                          end)]
                 else []
             | None => []
             end
    /\ completeEvents evs = []
    /\ Stream.closed (fst (Stream.pollOpen p tick)) = terminal (status st).
Proof.
  intros Htime Hdata. unfold Stream.pollOpen. rewrite Htime, Hdata.
  cbn [fst snd Stream.closed].
  match goal with
  | |- exists evs, ?s1 ++ ?s2 ++ ?s3 ++ ?s4 ++ ?s5 ++ ?s6 ++ ?s7 = _ /\ _ =>
      exists (s1 ++ s2 ++ s3 ++ s4 ++ s5 ++ s6);
      assert (H1 : completeEvents s1 = []) by (split_cases; reflexivity);
      assert (H2 : completeEvents s2 = [])
        by (apply completeEvents_if_map; reflexivity);
      assert (H3 : completeEvents s3 = [])
        by (apply completeEvents_if_map; reflexivity);
      assert (H4 : completeEvents s4 = [])
        by (destruct (qaResult st) as [r | ]; [ | reflexivity ];
            apply completeEvents_if_map; reflexivity);
      assert (H5 : completeEvents s5 = []) by (split_cases; reflexivity);
      assert (H6 : completeEvents s6 = []) by (split_cases; reflexivity)
  end.
  split; [ now rewrite <- !app_assoc | ]. split.
  - unfold completeEvents in *. rewrite !filter_app, H1, H2, H3, H4, H5, H6. reflexivity.
  - now destruct (status st).
Qed.

Lemma completeEvents_app (a b : list Stream.SSEEvent) :
  completeEvents (a ++ b) = completeEvents a ++ completeEvents b.
Proof. apply filter_app. Qed.

Lemma poll_completion (p : Stream.Poller) (tick : Stream.Tick) :
  let p' := fst (Stream.poll p tick) in
  let evs := snd (Stream.poll p tick) in
  (completeEvents evs = [])
  \/ (Stream.closed p' = true
      /\ exists before code qaScore,
           evs = before ++ [Stream.complete_event code qaScore]
           /\ completeEvents before = []).
Proof.
  cbv zeta. unfold Stream.poll. destruct (Stream.closed p); [ now left | ].
  destruct (Stream.timedOut tick) eqn:Htime.
  { left. unfold Stream.pollOpen. now rewrite Htime. }
  destruct (Stream.jobData tick) as [st | ] eqn:Hdata.
  2:{ left. unfold Stream.pollOpen. now rewrite Htime, Hdata. }
  destruct (pollOpen_completion p tick st Htime Hdata) as [evs [-> [Hevs ->]]].
  destruct (generatedCode st) as [code | ];
    [ | left; now rewrite app_nil_r ].
  destruct (status_eqb_spec (status st) Status.complete) as [Hst | Hst];
    [ | left; now rewrite app_nil_r ].
  right. rewrite Hst. split; [ reflexivity | ]. eauto.
Qed.

Lemma events_complete_last (p : Stream.Poller) (ticks : list Stream.Tick) :
  completeEvents (Stream.events p ticks) = []
  \/ exists before code qaScore,
       Stream.events p ticks = before ++ [Stream.complete_event code qaScore]
       /\ completeEvents before = [].
Proof.
  revert p. induction ticks as [ | tick rest IH]; intros p; [ now left | ].
  cbn [Stream.events]. pose proof (poll_completion p tick) as H. cbv zeta in H.
  destruct (Stream.poll p tick) as [p' evs]. cbn [fst snd] in H.
  destruct H as [Hnone | [Hclosed [before [code [q [-> Hbefore]]]]]].
  - destruct (IH p') as [Hrest | [before [code [q [-> Hbefore]]]]].
    + left. now rewrite completeEvents_app, Hnone, Hrest.
    + right. exists (evs ++ before), code, q. split; [ now rewrite app_assoc | ].
      now rewrite completeEvents_app, Hnone, Hbefore.
  - right. rewrite (events_closed p' rest Hclosed), app_nil_r. eauto.
Qed.

(** X24.  A stream sends at most one [complete] event, and nothing after
    it: the events of a stream hold no [complete] event, or end with the
    only one. *)
Theorem complete_event_is_last (ticks : list Stream.Tick) :
  completeEvents (Stream.stream ticks) = []
  \/ exists before code qaScore,
       Stream.stream ticks = before ++ [Stream.complete_event code qaScore]
       /\ completeEvents before = [].
Proof.
  unfold Stream.stream.
  destruct (events_complete_last Stream.start ticks) as [H | [before [code [q [H Hb]]]]].
  - left. cbn. exact H.
  - right. exists (Stream.initialEvent :: before), code, q. rewrite H. split; [ reflexivity | ].
    cbn. exact Hb.
Qed.


End Completion.

Section Delivery.
Context `{RT : Runtime}.


















End Delivery.


(* ===================================================================== *)
(** * The cache name of an image ([scoutNode])                        *)
(* ===================================================================== *)

Section CachedFilename.

Lemma split_nonempty (c : ascii) (s : string) :
  exists piece pieces, Scout.split c s = piece :: pieces.
Proof.
  destruct s as [ | a rest]; cbn; [ eauto | ].
  destruct (Ascii.eqb a c); [ eauto | ]. destruct (Scout.split c rest); eauto.
Qed.

Lemma split_join (c : ascii) (s : string) : join (String c "") (Scout.split c s) = s.
Proof.
  unfold join. induction s as [ | a rest IH]; [ reflexivity | ]. cbn [Scout.split].
  destruct (Ascii.eqb_spec a c) as [-> | Hne].
  - destruct (split_nonempty c rest) as [p [ps H]]. rewrite H in *.
    cbn. cbn in IH. now rewrite IH.
  - destruct (split_nonempty c rest) as [p [ps H]]. rewrite H in *.
    destruct ps; cbn in *; now rewrite IH.
Qed.

Lemma split_lacks (c : ascii) (s : string) :
  Forall (fun piece => lacks c piece = true) (Scout.split c s).
Proof.
  induction s as [ | a rest IH]; [ repeat constructor | ]. cbn [Scout.split].
  destruct (Ascii.eqb_spec a c) as [-> | Hne]; [ now constructor | ].
  destruct (Scout.split c rest) as [ | p ps]; [ repeat constructor; cbn | ].
  - apply Ascii.eqb_neq in Hne. now rewrite Hne.
  - inversion IH as [ | ? ? Hp Hps]; subst. constructor; [ | exact Hps ].
    unfold lacks in *. cbn. apply Ascii.eqb_neq in Hne. now rewrite Hne.
Qed.

Lemma pop_last {A : Type} (x : A) (l : list A) :
  exists init final, x :: l = init ++ [final] /\ Scout.pop (x :: l) = Some final.
Proof.
  revert x. induction l as [ | y l IH]; intros x; [ now exists [], x | ].
  destruct (IH y) as [init [final [H Hp]]].
  exists (x :: init), final. split; [ cbn; now rewrite H | exact Hp ].
Qed.

Lemma join_snoc (sep : string) (init : list string) (final : string) :
  join sep (init ++ [final])
  = match init with
    | [] => final
    | _ => (join sep init ++ sep ++ final)%string
    end.
Proof.
  unfold join. induction init as [ | x init IH]; [ reflexivity | ].
  destruct init as [ | y init]; [ reflexivity | ].
  change (String.concat sep ((x :: y :: init) ++ [final]))
    with (x ++ sep ++ String.concat sep ((y :: init) ++ [final]))%string.
  rewrite IH. cbn [String.concat].
  now rewrite <- !string_app_assoc.
Qed.

(** The last piece: what follows the last separator. *)
Lemma split_pop (c : ascii) (s : string) :
  exists stem piece,
    Scout.pop (Scout.split c s) = Some piece /\ s = (stem ++ piece)%string
    /\ lacks c piece = true
    /\ (stem = "" \/ exists before, stem = (before ++ String c "")%string).
Proof.
  destruct (split_nonempty c s) as [p [ps H]].
  destruct (pop_last p ps) as [init [final [Hsplit Hpop]]].
  pose proof (split_join c s) as Hjoin. pose proof (split_lacks c s) as Hlacks.
  rewrite H, Hsplit in Hjoin, Hlacks. rewrite H. rewrite join_snoc in Hjoin.
  apply Forall_app in Hlacks. destruct Hlacks as [_ Hfinal].
  inversion Hfinal as [ | ? ? Hf _]; subst.
  destruct init as [ | x init].
  - exists "", final. auto.
  - exists (join (String c "") (x :: init) ++ String c "")%string, final.
    split; [ exact Hpop | ]. split; [ now rewrite <- string_app_assoc | ].
    split; [ exact Hf | right; eauto ].
Qed.

(** The first piece: what precedes the first separator. *)
Lemma split_first (c : ascii) (s : string) :
  exists first pieces rest,
    Scout.split c s = first :: pieces /\ s = (first ++ rest)%string /\ lacks c first = true
    /\ (rest = "" \/ exists after, rest = String c after).
Proof.
  induction s as [ | a s IH]; [ exists "", [], ""; auto | ]. cbn [Scout.split].
  destruct (Ascii.eqb_spec a c) as [-> | Hne].
  - exists "", (Scout.split c s), (String c s). repeat split; eauto.
  - destruct IH as [first [pieces [rest [-> [-> [Hl Hrest]]]]]].
    exists (String a first), pieces, rest. repeat split; auto.
    unfold lacks in *. cbn. apply Ascii.eqb_neq in Hne. now rewrite Hne.
Qed.

Lemma lacks_app (c : ascii) (a b : string) :
  lacks c (a ++ b)%string = lacks c a && lacks c b.
Proof.
  unfold lacks. induction a as [ | x a IH]; [ reflexivity | ].
  cbn. now rewrite IH, andb_assoc.
Qed.

(** X26.  The name of a cached image is the first twelve digits of the
    MD5 of its URL, a dot and an extension.  The extension is the text
    between the last dot of the URL -- wherever it stands, in the host name
    or in the query string -- and the first question mark after it, and
    [png] when that text is empty: it is never empty and holds neither a dot
    nor a question mark. *)
Theorem cached_filename_extension (md5hex : string -> string) (url : string) :
  exists stem tail query,
    url = (stem ++ tail ++ query)%string
    /\ (stem = "" \/ exists before, stem = (before ++ ".")%string)
    /\ lacks "." (tail ++ query)%string = true
    /\ lacks "?" tail = true
    /\ (query = "" \/ exists after, query = ("?" ++ after)%string)
    /\ Scout.getCachedFilename md5hex url
       = (String.substring 0 12 (md5hex url) ++ "."
          ++ (if String.eqb tail "" then "png" else tail))%string
    /\ Scout.extension url <> ""
    /\ lacks "." (Scout.extension url) = true /\ lacks "?" (Scout.extension url) = true.
Proof.
  destruct (split_pop "." url) as [stem [piece [Hpop [Hurl [Hdot Hstem]]]]].
  destruct (split_first "?" piece) as [tail [pieces [query [Hsplit [Hpiece [Hq Hquery]]]]]].
  assert (Hext : Scout.extension url = if String.eqb tail "" then "png" else tail).
  { unfold Scout.extension. now rewrite Hpop, Hsplit. }
  exists stem, tail, query. subst piece.
  split; [ exact Hurl | ]. split; [ exact Hstem | ]. split; [ exact Hdot | ].
  split; [ exact Hq | ]. split; [ exact Hquery | ].
  split; [ unfold Scout.getCachedFilename; now rewrite Hext | ].
  rewrite Hext. rewrite lacks_app in Hdot. apply andb_prop in Hdot.
  destruct (String.eqb_spec tail "") as [-> | Hne]; [ repeat split; discriminate | ].
  repeat split; [ exact Hne | apply Hdot | exact Hq ].
Qed.

End CachedFilename.
